(** * EasyRPG Player FileFinder: asset resolution and RTP narrowing

    A shallow embedding of the FileFinder translation unit (path joining and
    canonicalisation, directory-tree lookup, the RTP narrowing state machine,
    the top-level lookup order and the directory scan) together with the
    properties stated about it.

    Conventions of the embedding.
    - Text is a [string] of decoded code points, one [ascii] per code point
      (the source decodes its UTF-8 input before it splits a path).
    - The build modelled is the default one: neither [_WIN32] nor
      [EMSCRIPTEN] is defined.
    - [std::unordered_map<std::string, std::string>] is a [gmap string string];
      [std::vector] is a [list].
    - The process-wide objects ([rtp_state], [game_directory_tree], the
      static [has_fast_dir_stat] and the output log) form the record [World],
      threaded through a state-and-fault monad [M].
    - Collaborators that live outside this translation unit (the text
      normaliser, the RTP tables, the translation provider, the platform's
      directory primitives) are fields of the record [Env]. *)

From stdpp Require Import gmap strings list fin_maps pretty.
From Stdlib Require Import ZArith Ascii String Lia.

Open Scope string_scope.
Open Scope Z_scope.
Open Scope list_scope.

(** ** Strings as the source uses them *)

Module Str.

Definition slash : ascii := "/"%char.
Definition backslash : ascii := "\"%char.
Definition nul : ascii := "000"%char.

(** [std::replace(str.begin(), str.end(), a, b)]. *)
Fixpoint replace_char (a b : ascii) (s : string) : string :=
  match s with
  | EmptyString => EmptyString
  | String c r => String (if Ascii.eqb c a then b else c) (replace_char a b r)
  end.

(** Does [c] occur in [s]? *)
Fixpoint has_char (c : ascii) (s : string) : bool :=
  match s with
  | EmptyString => false
  | String d r => Ascii.eqb d c || has_char c r
  end.

(** [s.find_first_of(c)]: [None] stands for [npos]. *)
Fixpoint find_first_of (c : ascii) (s : string) : option nat :=
  match s with
  | EmptyString => None
  | String d r =>
      if Ascii.eqb d c then Some O
      else match find_first_of c r with
           | Some n => Some (S n)
           | None => None
           end
  end.

(** [s.substr(0, n)] and [s.substr(n)]. *)
Fixpoint take (n : nat) (s : string) : string :=
  match n, s with
  | O, _ => EmptyString
  | S _, EmptyString => EmptyString
  | S n', String c r => String c (take n' r)
  end.

Fixpoint drop (n : nat) (s : string) : string :=
  match n, s with
  | O, _ => s
  | S _, EmptyString => EmptyString
  | S n', String _ r => drop n' r
  end.

(** [s.find(pat)]: position of the first occurrence of [pat]; the empty
    pattern is found at position 0, as [std::string::find] has it. *)
Fixpoint find (pat s : string) : option nat :=
  if String.prefix pat s then Some O
  else match s with
       | EmptyString => None
       | String _ r =>
           match find pat r with
           | Some n => Some (S n)
           | None => None
           end
       end.

Definition is_empty (s : string) : bool :=
  match s with EmptyString => true | _ => false end.

End Str.

(** ** Diagnostics

    [Output::Debug] and [Output::Warning] append to the log; each message
    of the translation unit has a constructor. *)

Inductive Level := LvDebug | LvWarning.

(** Modelled from the spec: the header [rtp.h] is not part of the sources.
    The only enumerator the translation unit names is
    [RTP::Type::RPG2000_DonMiguelAddon]; the other variants are numbered. *)
Inductive RtpType :=
| RPG2000_DonMiguelAddon
| RtpVariant (n : nat).

Global Instance RtpType_eq_dec : EqDecision RtpType.
Proof. solve_decision. Defined.

Inductive LogMsg :=
| DbgPathTraversal (path : string)
| DbgGameUsesRtp (t : RtpType)
| WarnClaimsNoRtp
| WarnCannotFindRtp (dir name : string) (paths_empty : bool)
| DbgCannotFind (dir name : string)
| DbgErrorOpeningDir (path : string)
| WarnFolderTwice (name : string)
| WarnMergeDirectories.

Definition level (m : LogMsg) : Level :=
  match m with
  | DbgPathTraversal _ | DbgGameUsesRtp _ | DbgCannotFind _ _
  | DbgErrorOpeningDir _ => LvDebug
  | WarnClaimsNoRtp | WarnCannotFindRtp _ _ _ | WarnFolderTwice _
  | WarnMergeDirectories => LvWarning
  end.

(** ** Path primitives *)

(** [FileFinder::MakePath] (the non-Windows branch). *)
Definition MakePath (dir name : string) : string :=
  let str := if Str.is_empty dir then name else dir +:+ "/" +:+ name in
  Str.replace_char Str.backslash Str.slash str.

(** The separator normalisation [MakePath] ends with. *)
Abbreviation rb := (Str.replace_char Str.backslash Str.slash) (only parsing).

(** Modelled from the spec: [Utils::Tokenize] is not part of the sources.
    It splits the decoded text at every code point the predicate accepts
    and keeps empty tokens, the last one included. *)
Fixpoint Tokenize_from (cur_token : string) (text : string)
    (predicate : ascii → bool) : list string :=
  match text with
  | EmptyString => [cur_token]
  | String c rest =>
      if predicate c then cur_token :: Tokenize_from "" rest predicate
      else Tokenize_from (cur_token +:+ String c "") rest predicate
  end.

Definition Tokenize (text : string) (predicate : ascii → bool) : list string :=
  Tokenize_from "" text predicate.

(** The delimiter test of [FileFinder::SplitPath]: the leading code point
    of [Player::escape_symbol] (NUL when that string is empty) or a slash. *)
Definition escape_char_back (escape_symbol : string) : ascii :=
  match escape_symbol with
  | EmptyString => Str.nul
  | String c _ => c
  end.

Definition is_delim (escape_symbol : string) (t : ascii) : bool :=
  Ascii.eqb t (escape_char_back escape_symbol) || Ascii.eqb t Str.slash.

(** [FileFinder::SplitPath]. *)
Definition SplitPath (escape_symbol path : string) : list string :=
  Tokenize path (is_delim escape_symbol).

(** The loop of [FileFinder::MakeCanonical] over the path components:
    [path_can] is the vector being built, [initial_deepness] the remaining
    budget, and the third component collects the [Output::Debug] lines. *)
Fixpoint MakeCanonical_loop (path : string) (path_components : list string)
    (path_can : list string) (initial_deepness : Z) (out : list LogMsg)
  : list string * Z * list LogMsg :=
  match path_components with
  | [] => (path_can, initial_deepness, out)
  | path_comp :: rest =>
      if String.eqb path_comp ".." then
        if (0 <? Z.of_nat (List.length path_can)) then
          MakeCanonical_loop path rest (removelast path_can) initial_deepness out
        else if (0 <? initial_deepness) then
          MakeCanonical_loop path rest path_can (initial_deepness - 1) out
        else
          MakeCanonical_loop path rest path_can initial_deepness
            (out ++ [DbgPathTraversal path])
      else if Str.is_empty path_comp || String.eqb path_comp "." then
        MakeCanonical_loop path rest path_can initial_deepness out
      else
        MakeCanonical_loop path rest (path_can ++ [path_comp]) initial_deepness out
  end.

(** [FileFinder::MakeCanonical], with the diagnostics it logs. *)
Definition MakeCanonical_run (escape_symbol path : string) (initial_deepness : Z)
  : string * list LogMsg :=
  let path_components := SplitPath escape_symbol path in
  let '(path_can, _, out) :=
    MakeCanonical_loop path path_components [] initial_deepness [] in
  (fold_left MakePath path_can "", out).

Definition MakeCanonical (escape_symbol path : string) (initial_deepness : Z) : string :=
  fst (MakeCanonical_run escape_symbol path initial_deepness).

(** *** The canonicaliser as the specification words it

    A left-to-right fold over the segments with the retained segments, the
    remaining depth and the number of clamped ascents as its state. *)
Module CanonSpec.

Record fold_state := {
  retained : list string;
  depth : Z;
  clamped : nat
}.

Definition step (st : fold_state) (seg : string) : fold_state :=
  if decide (seg = "." ∨ seg = "") then st
  else if decide (seg = "..") then
    match retained st with
    | _ :: _ => {| retained := removelast (retained st); depth := depth st; clamped := clamped st |}
    | [] =>
        if decide (0 < depth st)
        then {| retained := []; depth := depth st - 1; clamped := clamped st |}
        else {| retained := []; depth := depth st; clamped := S (clamped st) |}
    end
  else {| retained := retained st ++ [seg]; depth := depth st; clamped := clamped st |}.

Definition canonicalize_fold (segments : list string) (initial_depth : Z) : fold_state :=
  fold_left step segments {| retained := []; depth := initial_depth; clamped := O |}.

(** Segments joined with the canonical separator. *)
Definition join (segs : list string) : string := String.concat "/" segs.

(** What a run shows of its final state: the retained segments, the depth
    left, and one traversal diagnostic per clamped ascent. *)
Definition observe (path : string) (st : fold_state)
  : list string * Z * list LogMsg :=
  (retained st, depth st, repeat (DbgPathTraversal path) (clamped st)).

End CanonSpec.

(** ** Data model *)

(** Modelled from the spec: the header [filefinder.h] is not part of the
    sources. [string_map] is [std::unordered_map<std::string, std::string>];
    a [DirectoryTree] has the four members the translation unit reads and
    writes. *)
Record DirectoryTree := {
  directory_path : string;
  files : gmap string string;
  directories : gmap string string;
  sub_members : gmap string (gmap string string)
}.

(** [FileFinder::Directory], the result of one scan. *)
Record Directory := {
  base : string;
  dir_files : gmap string string;
  dir_directories : gmap string string
}.

Inductive Mode := FILES | DIRECTORIES | ALL | RECURSIVE.

(** [Platform::FileType], as far as the scan tells its values apart. *)
Inductive FileType := FtUnknown | FtDirectory | FtFile.

(** [RTP::RtpHitInfo]. Of its members the lookup reads [type] and [tree]. *)
Record RtpHitInfo := {
  hit_type : RtpType;
  hit_name : string;
  hit_tree : DirectoryTree;
  hit_hits : Z;
  hit_max : Z
}.

(** The anonymous struct behind [rtp_state]. *)
Record RtpState := {
  search_paths : list DirectoryTree;
  disable_rtp : bool;
  game_has_full_package_flag : bool;
  warning_broken_rtp_game_shown : bool;
  detected_rtp : list RtpHitInfo;
  game_rtp : list RtpType
}.

(** [rtp_state = {}]: the default member initialisers. *)
Definition rtp_state_default : RtpState := {|
  search_paths := [];
  disable_rtp := true;
  game_has_full_package_flag := false;
  warning_broken_rtp_game_shown := false;
  detected_rtp := [];
  game_rtp := []
|}.

(** The mutable objects of the translation unit and the output log.
    [game_rtp_writes] counts the structural modifications ([erase],
    assignment) of the vector [rtp_state.game_rtp]: an iterator into that
    vector is valid as long as the count is the one it was taken at. *)
Record World := {
  rtp_state : RtpState;
  game_directory_tree : option DirectoryTree;
  has_fast_dir_stat : bool;
  output : list LogMsg;
  game_rtp_writes : nat
}.

(** The collaborators outside the translation unit. [LookupRtpToRtp]
    receives the current value of the flag behind its [bool*] argument and
    returns the value it leaves there. [indeterminate] is the value of the
    uninitialised local [is_rtp_asset] of the top-level [FindFile]. *)
Record Env := {
  Normalize : string → string;
  escape_symbol : string;
  GetCurrentTranslationId : string;
  GetTranslationDir : string;
  EngineVersion : Z;
  LookupAnyToRtp : string → string → Z → list RtpType;
  LookupRtpToRtp : string → string → RtpType → RtpType → bool → string * bool;
  Exists : string → bool;
  IsDirectory : string → bool;
  ReadDirectory : string → option (list (string * FileType));
  indeterminate : bool
}.

(** ** The state-and-fault monad *)

Inductive Fault :=
| InvalidDereference   (* an end() iterator is dereferenced *)
| NullDereference      (* an empty shared_ptr is dereferenced *)
| AssertionFailed      (* an assert() fails *)
| Diverges             (* a loop that does not terminate *)
| InvalidatedIterator  (* an iterator is used after its vector was modified *)
| OutOfFuel.           (* the recursion bound of the embedding is reached *)

Inductive Outcome (A : Type) :=
| Done (a : A) (w : World)
| Crash (f : Fault).
Arguments Done {A} a w.
Arguments Crash {A} f.

Definition M (A : Type) : Type := World → Outcome A.

Definition ret {A} (a : A) : M A := λ w, Done a w.

Definition bind {A B} (m : M A) (k : A → M B) : M B :=
  λ w, match m w with
       | Done a w' => k a w'
       | Crash f => Crash f
       end.

Definition crash {A} (f : Fault) : M A := λ _, Crash f.

Global Instance M_ret : MRet M := @ret.
Global Instance M_bind : MBind M := λ A B k m, bind m k.

Definition with_rtp (w : World) (st : RtpState) : World :=
  {| rtp_state := st;
     game_directory_tree := game_directory_tree w;
     has_fast_dir_stat := has_fast_dir_stat w;
     output := output w;
     game_rtp_writes := game_rtp_writes w |}.

Definition add_output (w : World) (msgs : list LogMsg) : World :=
  {| rtp_state := rtp_state w;
     game_directory_tree := game_directory_tree w;
     has_fast_dir_stat := has_fast_dir_stat w;
     output := output w ++ msgs;
     game_rtp_writes := game_rtp_writes w |}.

Definition with_fast_dir_stat (w : World) (b : bool) : World :=
  {| rtp_state := rtp_state w;
     game_directory_tree := game_directory_tree w;
     has_fast_dir_stat := b;
     output := output w;
     game_rtp_writes := game_rtp_writes w |}.

Definition with_writes (w : World) (n : nat) : World :=
  {| rtp_state := rtp_state w;
     game_directory_tree := game_directory_tree w;
     has_fast_dir_stat := has_fast_dir_stat w;
     output := output w;
     game_rtp_writes := n |}.

Definition get_rtp : M RtpState := λ w, Done (rtp_state w) w.

Definition put_rtp (st : RtpState) : M unit := λ w, Done tt (with_rtp w st).

Definition say_all (msgs : list LogMsg) : M unit := λ w, Done tt (add_output w msgs).

Definition say (msg : LogMsg) : M unit := say_all [msg].

Definition assert (b : bool) : M unit :=
  if b then ret tt else crash AssertionFailed.

Definition set_game_rtp (st : RtpState) (g : list RtpType) : RtpState :=
  {| search_paths := search_paths st;
     disable_rtp := disable_rtp st;
     game_has_full_package_flag := game_has_full_package_flag st;
     warning_broken_rtp_game_shown := warning_broken_rtp_game_shown st;
     detected_rtp := detected_rtp st;
     game_rtp := g |}.

Definition set_warning_shown (st : RtpState) : RtpState :=
  {| search_paths := search_paths st;
     disable_rtp := disable_rtp st;
     game_has_full_package_flag := game_has_full_package_flag st;
     warning_broken_rtp_game_shown := true;
     detected_rtp := detected_rtp st;
     game_rtp := game_rtp st |}.

Definition set_fast_dir_stat (b : bool) : M unit :=
  λ w, Done tt (with_fast_dir_stat w b).

Definition get_fast_dir_stat : M bool := λ w, Done (has_fast_dir_stat w) w.

(** [rtp_state.game_rtp] was erased from or assigned to: the iterators
    into it are invalid from here on. *)
Definition touch_game_rtp : M unit :=
  λ w, Done tt (with_writes w (S (game_rtp_writes w))).

Definition get_game_rtp_writes : M nat := λ w, Done (game_rtp_writes w) w.

(** [*GetDirectoryTree()]: dereferencing the shared pointer. *)
Definition deref_game_tree : M DirectoryTree :=
  λ w, match game_directory_tree w with
       | Some t => Done t w
       | None => Crash NullDereference
       end.

(** ** Lookup in one directory tree *)

(** The [while] loop of [FindFile] that rewrites every occurrence of the
    escape symbol into a slash: [erase] then [insert] at the found
    position, then search again from the start. [fuel] bounds the number
    of iterations; [None] means the bound was reached. Twice the length
    of the name is enough whenever the loop terminates at all (lemma
    [replace_escape_terminates]); it does not terminate for an empty
    escape symbol (lemma [replace_escape_empty_symbol]). *)
Fixpoint replace_escape (fuel : nat) (escape_symbol corrected_name : string)
  : option string :=
  match Str.find escape_symbol corrected_name with
  | None => Some corrected_name
  | Some escape_pos =>
      match fuel with
      | O => None
      | S fuel' =>
          replace_escape fuel' escape_symbol
            (Str.take escape_pos corrected_name +:+ "/" +:+
             Str.drop (escape_pos + String.length escape_symbol) corrected_name)
      end
  end.

(** The extension loop over one [string_map]: the original name stored
    under the first key [corrected_name + ext] that is present. *)
Fixpoint first_ext_hit (dir_map : gmap string string) (corrected_name : string)
    (exts : list string) : option string :=
  match exts with
  | [] => None
  | c :: rest =>
      match dir_map !! (corrected_name +:+ c) with
      | Some original => Some original
      | None => first_ext_hit dir_map corrected_name rest
      end
  end.

(** [static const char* no_exts[] = {"", NULL}]. *)
Definition no_exts : list string := [""].

(** [std::find] followed by [erase] of the iterator found: the first
    occurrence goes. *)
Fixpoint erase_first (x : RtpType) (l : list RtpType) : list RtpType :=
  match l with
  | [] => []
  | y :: r => if decide (y = x) then r else y :: erase_first x r
  end.

(** [std::find(candidates.begin(), candidates.end(), x) != candidates.end()]. *)
Definition contains (candidates : list RtpType) (x : RtpType) : bool :=
  bool_decide (x ∈ candidates).

Section Finder.

Context (E : Env).

(** The two-argument [FindDefault(dir, name)], which re-enters the
    top-level [FindFile]; the knot is tied after the section. *)
Variable FindDefault_dir_name : string → string → M string.

(** [FindDefault(const DirectoryTree& tree, const std::string& name)]. *)
Definition FindDefault_tree_name (tree : DirectoryTree) (name : string) : M string :=
  let path_comps := SplitPath (escape_symbol E) name in
  if (1 <? List.length path_comps)%nat then
    let f := fold_left MakePath (tail path_comps) "" in
    FindDefault_dir_name (hd "" path_comps) f
  else
    match files tree !! Normalize E name with
    | Some original => ret (MakePath (directory_path tree) original)
    | None => ret ""
    end.

(** The extension loop of the path-correction branch of [FindFile]. *)
Fixpoint find_default_exts (tree : DirectoryTree) (canon : string)
    (exts : list string) : M string :=
  match exts with
  | [] => ret ""
  | c :: rest =>
      res ← FindDefault_tree_name tree (canon +:+ c);
      if Str.is_empty res then find_default_exts tree canon rest else ret res
  end.

(** The tail of [FindFile(tree, ...)], from the escape-symbol loop on. *)
Definition lookup_members (tree : DirectoryTree)
    (corrected_dir corrected_name : string) (exts : list string) : M string :=
  match replace_escape (2 * String.length corrected_name) (escape_symbol E)
          corrected_name with
  | None => crash Diverges
  | Some corrected_name =>
      match directories tree !! corrected_dir with
      | None => ret ""
      | Some dir_original =>
          match sub_members tree !! corrected_dir with
          | None => crash InvalidDereference
          | Some dir_map =>
              match first_ext_hit dir_map corrected_name exts with
              | Some name_original =>
                  ret (MakePath (directory_path tree +:+ "/" +:+ dir_original) name_original)
              | None => ret ""
              end
          end
      end
  end.

(** [FindFile(tree, dir, name, exts, translate)]. *)
Definition FindFile_in_tree (tree : DirectoryTree) (dir name : string)
    (exts : list string) (translate : bool) : M string :=
  if translate && Str.is_empty (GetCurrentTranslationId E) then ret ""
  else
    let corrected_dir := Normalize E (if translate then GetTranslationDir E else dir) in
    let corrected_name :=
      Normalize E (if translate
                   then MakePath (MakePath (GetCurrentTranslationId E) dir) name
                   else name) in
    let combined_path := MakePath corrected_dir corrected_name in
    let '(canon, out) := MakeCanonical_run (escape_symbol E) combined_path 1 in
    say_all out;;
    if negb (String.eqb combined_path canon) then
      match Str.find_first_of Str.slash canon with
      | None => find_default_exts tree canon exts
      | Some pos =>
          lookup_members tree (Str.take pos canon) (Str.drop (pos + 1) canon) exts
      end
    else lookup_members tree corrected_dir corrected_name exts.

(** ** The RTP lookup *)

(** The lambda [normal_search]: it clears [is_rtp_asset] and tries the
    search paths in order. *)
Fixpoint search_in_paths (paths : list DirectoryTree) (dir name : string)
    (exts : list string) : M string :=
  match paths with
  | [] => ret ""
  | path :: rest =>
      r ← FindFile_in_tree path dir name exts false;
      if negb (Str.is_empty r) then ret r
      else search_in_paths rest dir name exts
  end.

Definition normal_search (dir name : string) (exts : list string) : M (string * bool) :=
  st ← get_rtp;
  r ← search_in_paths (search_paths st) dir name exts;
  ret (r, false).

(** Lines 178-209: narrowing [rtp_state.game_rtp]. The vector is
    assigned to when it is empty (the candidates are not), and erased from
    once for every element that is no candidate: it is modified exactly
    when its value changes. *)
Definition narrow (game_rtp candidates : list RtpType) : list RtpType :=
  if bool_decide (game_rtp = []) then candidates
  else filter (λ t, contains candidates t = true) game_rtp.

Definition detect_game_rtp (dir name : string) : M unit :=
  st ← get_rtp;
  if negb (List.length (game_rtp st) =? 1)%nat then
    let candidates := LookupAnyToRtp E dir name (EngineVersion E) in
    let candidates := erase_first RPG2000_DonMiguelAddon candidates in
    if negb (bool_decide (candidates = [])) then
      let g := narrow (game_rtp st) candidates in
      put_rtp (set_game_rtp st g);;
      (if bool_decide (g = game_rtp st) then ret tt else touch_game_rtp);;
      match g with
      | [t] => say (DbgGameUsesRtp t)
      | _ => ret tt
      end
    else ret tt
  else ret tt.

(** The inner range-[for] of the search across all RTP (line 220), which
    iterates the live vector [rtp_state.game_rtp]: [variants] is what is
    left of it from the loop's iterator on. The call of [FindFile] in the
    body can re-enter [rtp_lookup] (through [FindDefault]) and modify the
    vector; the loop's iterators are invalid then. With a result the body
    returns without touching them ([Some ret] is that early return);
    without one the loop goes on and uses them, which is undefined
    behaviour. *)
Fixpoint search_variants (rtp : RtpHitInfo) (dir name : string) (exts : list string)
    (variants : list RtpType) (is_rtp_asset : bool) : M (option string * bool) :=
  match variants with
  | [] => ret (None, is_rtp_asset)
  | game_rtp :: rest =>
      let '(rtp_entry, is_rtp_asset) :=
        LookupRtpToRtp E dir name game_rtp (hit_type rtp) is_rtp_asset in
      if negb (Str.is_empty rtp_entry) then
        writes ← get_game_rtp_writes;
        r ← FindFile_in_tree (hit_tree rtp) dir rtp_entry exts false;
        if negb (Str.is_empty r) then ret (Some r, true)
        else
          writes' ← get_game_rtp_writes;
          if (writes' =? writes)%nat
          then search_variants rtp dir name exts rest is_rtp_asset
          else crash InvalidatedIterator
      else search_variants rtp dir name exts rest is_rtp_asset
  end.

(** The outer range-[for] (line 219) over [rtp_state.detected_rtp], which
    no lookup writes; every iteration starts the inner loop on
    [rtp_state.game_rtp] as it is then. *)
Fixpoint search_detected (detected : list RtpHitInfo) (dir name : string)
    (exts : list string) (is_rtp_asset : bool)
  : M (option string * bool) :=
  match detected with
  | [] => ret (None, is_rtp_asset)
  | rtp :: rest =>
      st ← get_rtp;
      '(hit, is_rtp_asset) ←
        search_variants rtp dir name exts (game_rtp st) is_rtp_asset;
      match hit with
      | Some r => ret (Some r, is_rtp_asset)
      | None => search_detected rest dir name exts is_rtp_asset
      end
  end.

(** Lines 211-233 of [rtp_lookup]: the search once [game_rtp] is
    narrowed. *)
Definition search_rtp (dir name : string) (exts : list string)
    (is_rtp_asset : bool) : M (string * bool) :=
  st ← get_rtp;
  if bool_decide (game_rtp st = []) then
    normal_search dir name exts
  else
    '(hit, is_rtp_asset) ←
      search_detected (detected_rtp st) dir name exts is_rtp_asset;
    match hit with
    | Some r => ret (r, is_rtp_asset)
    | None => normal_search dir name exts
    end.

(** [rtp_lookup]: the returned pair is the path and the final value of
    the reference parameter [is_rtp_asset]. *)
Definition rtp_lookup (dir name : string) (exts : list string)
    (is_rtp_asset : bool) : M (string * bool) :=
  detect_game_rtp dir name;;
  search_rtp dir name exts is_rtp_asset.

(** ** The top-level lookup *)

(** Lines 260-270: the two warnings after an RTP lookup. *)
Definition report_rtp (dir name ret_path : string) (is_rtp_asset : bool) : M unit :=
  let lcase := Normalize E dir in
  let is_audio_asset := String.eqb lcase "music" || String.eqb lcase "sound" in
  if is_rtp_asset then
    st ← get_rtp;
    if negb (Str.is_empty ret_path) && game_has_full_package_flag st
       && negb (warning_broken_rtp_game_shown st) && negb is_audio_asset then
      put_rtp (set_warning_shown st);;
      say WarnClaimsNoRtp
    else if Str.is_empty ret_path && negb (game_has_full_package_flag st)
            && negb is_audio_asset then
      say (WarnCannotFindRtp dir name
             (bool_decide (search_paths st = [])))
    else ret tt
  else ret tt.

(** Lines 252-277 of [FindFile]: the RTP lookup when RTP is enabled, its
    warnings, and the closing debug line. [r] is the (empty) result of the
    stages before. *)
Definition rtp_stage (dir name : string) (exts : list string) (r : string)
  : M string :=
  st ← get_rtp;
  r ← (if negb (disable_rtp st) then
         '(r, is_rtp_asset) ←
           rtp_lookup (Normalize E dir) (Normalize E name) exts (indeterminate E);
         report_rtp dir name r is_rtp_asset;;
         ret r
       else ret r);
  (if Str.is_empty r then say (DbgCannotFind dir name) else ret tt);;
  ret r.

(** [FindFile(dir, name, exts, tryTranslate)]. *)
Definition FindFile_body (dir name : string) (exts : list string)
    (tryTranslate : bool) : M string :=
  tree ← deref_game_tree;
  r ← (if tryTranslate then FindFile_in_tree tree dir name exts true else ret "");
  if negb (Str.is_empty r) then ret r
  else
    r ← FindFile_in_tree tree dir name exts false;
    if negb (Str.is_empty r) then ret r
    else rtp_stage dir name exts r.

End Finder.

(** ** Tying the knot

    [FindDefault(dir, name)] is [FindFile(dir, name, no_exts)], and
    [FindFile] reaches [FindDefault(dir, name)] through
    [FindDefault(tree, name)]. A call with [no_exts] never takes that way
    again (lemma [FindDefault_dir_name_unfold] below), so two levels
    are the whole recursion. *)

Definition no_reentry : string → string → M string := λ _ _, crash OutOfFuel.

Definition FindDefault_dir_name (E : Env) (dir name : string) : M string :=
  FindFile_body E no_reentry dir name no_exts false.

Definition FindFile (E : Env) : string → string → list string → bool → M string :=
  FindFile_body E (FindDefault_dir_name E).

Definition FindFile_tree (E : Env)
  : DirectoryTree → string → string → list string → bool → M string :=
  FindFile_in_tree E (FindDefault_dir_name E).

Definition rtp_stage_top (E : Env) : string → string → list string → string → M string :=
  rtp_stage E (FindDefault_dir_name E).

Definition rtp_lookup_top (E : Env)
  : string → string → list string → bool → M (string * bool) :=
  rtp_lookup E (FindDefault_dir_name E).

(** The public lookups. *)
Definition IMG_TYPES : list string := [".bmp"; ".png"; ".xyz"].
Definition MUSIC_TYPES : list string :=
  [".opus"; ".oga"; ".ogg"; ".wav"; ".mid"; ".midi"; ".mp3"; ".wma"].
Definition SOUND_TYPES : list string :=
  [".opus"; ".oga"; ".ogg"; ".wav"; ".mp3"; ".wma"].
Definition FONTS_TYPES : list string := [".ttf"; ".ttc"; ".otf"; ".fon"].

Definition FindImage (E : Env) (dir name : string) : M string :=
  FindFile E dir name IMG_TYPES true.
Definition FindMusic (E : Env) (name : string) : M string :=
  FindFile E "Music" name MUSIC_TYPES false.
Definition FindSound (E : Env) (name : string) : M string :=
  FindFile E "Sound" name SOUND_TYPES false.
Definition FindFont (E : Env) (name : string) : M string :=
  FindFile E "Font" name FONTS_TYPES false.
Definition FindDefault_name (E : Env) (name : string) : M string :=
  tree ← deref_game_tree;
  FindDefault_tree_name E (FindDefault_dir_name E) tree name.
Definition FindDefault_tree_dir_name (E : Env) (tree : DirectoryTree)
    (dir name : string) : M string :=
  FindFile_tree E tree dir name no_exts false.

(** ** The lookup as the specification words it

    "Algorithm, first match wins": the translation overlay when translation
    is allowed and a translation is active, the project's index, the RTP
    engine when RTP is not disabled. In the first two every candidate
    extension is tried in order, after the logical name has undergone
    canonicalisation, the path-correction fallback and the substitution of
    the escape symbol. *)
Module LookupSpec.

(** First match wins: the attempts are made in order, the first result
    that is not empty is returned, and the later attempts are not made. *)
Fixpoint first_match {A} (attempt : A → M string) (candidates : list A) : M string :=
  match candidates with
  | [] => ret ""
  | c :: rest =>
      r ← attempt c;
      if Str.is_empty r then first_match attempt rest else ret r
  end.

(** The attempts for [candidates], made in order from [w], all returned
    the empty result and left [w']. *)
Inductive missed {A} (attempt : A → M string) : list A → World → World → Prop :=
| missed_nil w : missed attempt [] w w
| missed_cons c rest w w1 w2 :
    attempt c w = Done "" w1 →
    missed attempt rest w1 w2 →
    missed attempt (c :: rest) w w2.

(** Where the index lookup looks: among the members of a directory of
    the index, under a key; at the root of the index, when the corrected
    path has one segment; or nowhere, when the index does not list the
    directory. *)
Inductive Place :=
| Member (dir_original : string) (members : gmap string string) (name_key : string)
| Root (canon : string)
| Nowhere.

Inductive Stage := Overlay | Project | Rtp.

Section Resolve.

Context (E : Env).

Definition member_place (tree : DirectoryTree) (dir_key name_key : string) : M Place :=
  match replace_escape (2 * String.length name_key) (escape_symbol E) name_key with
  | None => crash Diverges
  | Some name_key =>
      match directories tree !! dir_key with
      | None => ret Nowhere
      | Some dir_original =>
          match sub_members tree !! dir_key with
          | None => crash InvalidDereference
          | Some members => ret (Member dir_original members name_key)
          end
      end
  end.

(** What the logical name undergoes before the index lookup. *)
Definition prepare (tree : DirectoryTree) (dir name : string) (translate : bool)
  : M Place :=
  let dir_key := Normalize E (if translate then GetTranslationDir E else dir) in
  let name_key :=
    Normalize E (if translate
                 then MakePath (MakePath (GetCurrentTranslationId E) dir) name
                 else name) in
  let combined := MakePath dir_key name_key in
  let '(canon, out) := MakeCanonical_run (escape_symbol E) combined 1 in
  say_all out;;
  if negb (String.eqb combined canon) then
    match Str.find_first_of Str.slash canon with
    | None => ret (Root canon)
    | Some pos => member_place tree (Str.take pos canon) (Str.drop (pos + 1) canon)
    end
  else member_place tree dir_key name_key.

(** The index lookup for one candidate extension. *)
Definition attempt (tree : DirectoryTree) (place : Place) (c : string) : M string :=
  match place with
  | Member dir_original members name_key =>
      ret (match members !! (name_key +:+ c) with
           | Some original =>
               MakePath (directory_path tree +:+ "/" +:+ dir_original) original
           | None => ""
           end)
  | Root canon => FindDefault_tree_name E (FindDefault_dir_name E) tree (canon +:+ c)
  | Nowhere => ret ""
  end.

(** Steps 1 and 2 on one index: every candidate extension in order. *)
Definition resolve_in_index (tree : DirectoryTree) (dir name : string)
    (exts : list string) (translate : bool) : M string :=
  place ← prepare tree dir name translate;
  first_match (attempt tree place) exts.

(** The stages in their order. *)
Definition stages (tryTranslate : bool) : list Stage :=
  (if tryTranslate && negb (Str.is_empty (GetCurrentTranslationId E))
   then [Overlay] else [])
  ++ [Project; Rtp].

Definition run_stage (tree : DirectoryTree) (dir name : string) (exts : list string)
    (stage : Stage) : M string :=
  match stage with
  | Overlay => resolve_in_index tree dir name exts true
  | Project => resolve_in_index tree dir name exts false
  | Rtp =>
      st ← get_rtp;
      if disable_rtp st then ret ""
      else
        '(r, is_rtp_asset) ←
          rtp_lookup_top E (Normalize E dir) (Normalize E name) exts (indeterminate E);
        report_rtp E dir name r is_rtp_asset;;
        ret r
  end.

(** The algorithm: the first stage with a result wins; a miss everywhere
    leaves the debug line. *)
Definition resolve (dir name : string) (exts : list string) (tryTranslate : bool)
  : M string :=
  tree ← deref_game_tree;
  r ← first_match (run_stage tree dir name exts) (stages tryTranslate);
  (if Str.is_empty r then say (DbgCannotFind dir name) else ret tt);;
  ret r.

End Resolve.

End LookupSpec.

(** ** Scanning a directory *)

Definition with_files (d : Directory) (f : gmap string string) : Directory :=
  {| base := base d; dir_files := f; dir_directories := dir_directories d |}.

Definition with_directories (d : Directory) (f : gmap string string) : Directory :=
  {| base := base d; dir_files := dir_files d; dir_directories := f |}.

Section Scan.

Context (E : Env).

(** The recursive call of [GetDirectoryMembers] inside its own loop. *)
Variable recurse : string → Mode → string → M Directory.

(** How one entry is classified: lines 844-856. *)
Definition entry_is_directory (path name : string) (type : FileType) : M bool :=
  fast ← get_fast_dir_stat;
  is_directory ←
    (if (fast : bool) return M bool then
       match type with
       | FtUnknown => set_fast_dir_stat false;; ret false
       | FtDirectory => ret true
       | FtFile => ret false
       end
     else ret false);
  fast ← get_fast_dir_stat;
  if negb (fast : bool) then ret (IsDirectory E (MakePath path name))
  else ret is_directory.

(** Lines 882-891: the entry enters one of the two maps. *)
Definition record_entry (result : Directory) (name : string) (is_directory : bool)
  : M Directory :=
  let name_norm := Normalize E name in
  if is_directory then
    (if bool_decide (is_Some (dir_directories result !! name_norm)) return M unit then
       say (WarnFolderTwice name);; say WarnMergeDirectories
     else ret tt);;
    ret (with_directories result (<[name_norm := name]> (dir_directories result)))
  else
    ret (with_files result (<[name_norm := name]> (dir_files result))).

(** One iteration of the [while (dir.Read())] loop. *)
Definition scan_entry (path : string) (m : Mode) (parent : string)
    (result : Directory) (name : string) (type : FileType) : M Directory :=
  is_directory ← entry_is_directory path name type;
  if String.eqb name "." || String.eqb name ".." then ret result
  else
    match m with
    | FILES =>
        if (is_directory : bool) then ret result
        else record_entry result name is_directory
    | DIRECTORIES =>
        if negb is_directory then ret result else record_entry result name is_directory
    | ALL => record_entry result name is_directory
    | RECURSIVE =>
        if is_directory then
          rdir ← recurse (MakePath path name) RECURSIVE (MakePath parent name);
          (* unordered_map::insert(first, last) keeps the keys already there *)
          ret {| base := base result;
                 dir_files := dir_files result ∪ dir_files rdir;
                 dir_directories := dir_directories result ∪ dir_directories rdir |}
        else
          ret (with_files result
                 (<[Normalize E (MakePath parent name) := MakePath parent name]>
                    (dir_files result)))
    end.

Fixpoint scan_entries (path : string) (m : Mode) (parent : string)
    (entries : list (string * FileType)) (result : Directory) : M Directory :=
  match entries with
  | [] => ret result
  | (name, type) :: rest =>
      result ← scan_entry path m parent result name type;
      scan_entries path m parent rest result
  end.

(** The body of [FileFinder::GetDirectoryMembers]. *)
Definition GetDirectoryMembers_body (path : string) (m : Mode) (parent : string)
  : M Directory :=
  assert (Exists E path);;
  assert (IsDirectory E path);;
  let result := {| base := path; dir_files := ∅; dir_directories := ∅ |} in
  match ReadDirectory E path with
  | None => say (DbgErrorOpeningDir path);; ret result
  | Some entries => scan_entries path m parent entries result
  end.

End Scan.

(** [FileFinder::GetDirectoryMembers]; [fuel] bounds the nesting depth of
    the recursive mode. *)
Fixpoint GetDirectoryMembers (E : Env) (fuel : nat) (path : string) (m : Mode)
    (parent : string) : M Directory :=
  match fuel with
  | O => crash OutOfFuel
  | S fuel' => GetDirectoryMembers_body E (GetDirectoryMembers E fuel') path m parent
  end.

(** The loop of [CreateDirectoryTree] that fills [sub_members] in the
    recursive mode. *)
Fixpoint fill_sub_members (E : Env) (fuel : nat) (p : string)
    (dirs : list (string * string)) (subs : gmap string (gmap string string))
  : M (gmap string (gmap string string)) :=
  match dirs with
  | [] => ret subs
  | (key, original) :: rest =>
      rdir ← GetDirectoryMembers E fuel (MakePath p original) RECURSIVE "";
      fill_sub_members E fuel p rest (<[key := dir_files rdir]> subs)
  end.

(** [FileFinder::CreateDirectoryTree]: [None] is the empty shared pointer.
    The directories are visited in the order [map_to_list] gives, and the
    default argument of [parent], declared in the header, is taken to be
    the empty string. *)
Definition CreateDirectoryTree (E : Env) (fuel : nat) (p : string) (mode : Mode)
  : M (option DirectoryTree) :=
  if negb (Exists E p && IsDirectory E p) then ret None
  else
    let recursive := match mode with RECURSIVE => true | _ => false end in
    let mode := match mode with RECURSIVE => ALL | _ => mode end in
    mem ← GetDirectoryMembers E fuel p mode "";
    subs ← (if recursive
            then fill_sub_members E fuel p (map_to_list (dir_directories mem)) ∅
            else ret ∅);
    ret (Some {| directory_path := p;
                 files := dir_files mem;
                 directories := dir_directories mem;
                 sub_members := subs |}).

(** ** Vocabulary of the statements *)

(** Every character of [s] satisfies [p]. *)
Fixpoint str_all (p : ascii → bool) (s : string) : bool :=
  match s with
  | EmptyString => true
  | String c r => p c && str_all p r
  end.

(** [s] holds no path delimiter. *)
Definition delimiter_free (escape_symbol s : string) : bool :=
  str_all (λ c, negb (is_delim escape_symbol c)) s.

(** Extensions as the callers of this translation unit pass them: no
    path delimiter inside an extension. *)
Definition exts_plain (E : Env) (exts : list string) : Prop :=
  Forall (λ c, delimiter_free (escape_symbol E) c = true) exts.

(** The escape symbols for which the substitution loop of [FindFile]
    terminates. *)
Definition sane_escape (E : Env) : Prop :=
  escape_symbol E ≠ "" ∧ escape_symbol E ≠ "/".

(** Every directory the tree lists has its member map. *)
Definition tree_ok (t : DirectoryTree) : Prop :=
  ∀ k, is_Some (directories t !! k) → is_Some (sub_members t !! k).

Definition world_ok (w : World) : Prop :=
  (∃ t, game_directory_tree w = Some t ∧ tree_ok t)
  ∧ Forall tree_ok (search_paths (rtp_state w))
  ∧ Forall (λ h, tree_ok (hit_tree h)) (detected_rtp (rtp_state w)).

(** [m] run in [w] satisfies [Q]. With [strict = true] a fault refutes
    the statement (total correctness), with [strict = false] it satisfies
    it (partial correctness). *)
Definition holds (strict : bool) {A} (m : M A) (w : World)
    (Q : A → World → Prop) : Prop :=
  match m w with
  | Done a w' => Q a w'
  | Crash _ => strict = false
  end.

(** Between [w] and [w'] the log only grew, and by debug lines only. *)
Definition quiet (w w' : World) : Prop :=
  ∃ msgs, output w' = output w ++ msgs ∧ Forall (λ m, level m = LvDebug) msgs.

(** [p] is the path of an entry recorded in the index of [t]: the base
    path joined, by [MakePath], with names the tree itself stores. *)
Definition indexed (t : DirectoryTree) (p : string) : Prop :=
  (∃ k d m k' n, directories t !! k = Some d ∧ sub_members t !! k = Some m
                 ∧ m !! k' = Some n
                 ∧ p = MakePath (directory_path t +:+ "/" +:+ d) n)
  ∨ (∃ k f, files t !! k = Some f ∧ p = MakePath (directory_path t) f).

(** [p] lies under [base_path]: it is [base_path], a slash, and more. *)
Definition lies_under (base_path p : string) : Prop :=
  ∃ rest, p = base_path +:+ "/" +:+ rest.

(** The number of log lines that satisfy [f]. *)
Definition count_msgs (f : LogMsg → bool) (out : list LogMsg) : nat :=
  List.length (List.filter f out).

Definition is_missing_warning (m : LogMsg) : bool :=
  match m with WarnCannotFindRtp _ _ _ => true | _ => false end.

(** The value an operation returned, if it returned. *)
Definition returned {A} (o : Outcome A) : option A :=
  match o with Done a _ => Some a | Crash _ => None end.

(** What a lookup owes its caller: the invariant still holds, and a miss
    has left debug lines only. *)
Definition lookup_post (Inv : World → Prop) (w : World) (r : string) (w' : World) : Prop :=
  Inv w' ∧ (r = "" → quiet w w').

(** The contract under which [FindDefault(dir, name)] is re-entered. *)
Definition callback_ok (strict : bool) (Inv : World → Prop)
    (cb : string → string → M string) : Prop :=
  ∀ d n w, Inv w → holds strict (cb d n) w (lookup_post Inv w).

(** [game_rtp] after lines 178-209 have seen one more request. *)
Definition narrowed (E : Env) (dir name : string) (g : list RtpType) : list RtpType :=
  if decide (List.length g = 1%nat) then g
  else
    let candidates :=
      erase_first RPG2000_DonMiguelAddon (LookupAnyToRtp E dir name (EngineVersion E)) in
    if decide (candidates = []) then g else narrow g candidates.

(** [game_rtp_writes] after those lines: the vector is written to exactly
    when its value changes. *)
Definition narrowed_writes (E : Env) (dir name : string) (g : list RtpType)
    (writes : nat) : nat :=
  if bool_decide (narrowed E dir name g = g) then writes else S writes.

(** The oracle answers with a set: no variant is listed twice. *)
Definition oracle_is_set (E : Env) : Prop :=
  ∀ dir name version, NoDup (LookupAnyToRtp E dir name version).

(** The measure that decreases in the substitution loop of [FindFile]:
    a slash weighs one, any other character two. *)
Fixpoint weight (s : string) : nat :=
  match s with
  | EmptyString => O
  | String c r => ((if Ascii.eqb c Str.slash then 1 else 2) + weight r)%nat
  end.

(** The log an operation left ([[]] if it faulted). *)
Definition log_of {A} (o : Outcome A) : list LogMsg :=
  match o with Done _ w => output w | Crash _ => [] end.

(** *** What a flat scan records

    The entries of one directory as the scan classifies them, the names
    that enter each of the two maps, and the warnings the specification
    asks for. *)

Definition is_unknown (type : FileType) : bool :=
  match type with FtUnknown => true | _ => false end.

Definition is_directory_type (type : FileType) : bool :=
  match type with FtDirectory => true | _ => false end.

(** [has_fast_dir_stat] after an entry of the given type was read. *)
Definition next_fast (fast : bool) (type : FileType) : bool :=
  fast && negb (is_unknown type).

(** Each entry with the value [is_directory] gets, from the value of
    [has_fast_dir_stat] before the scan on. *)
Fixpoint classify (E : Env) (path : string) (fast : bool)
    (entries : list (string * FileType)) : list (string * bool) :=
  match entries with
  | [] => []
  | (name, type) :: rest =>
      let fast' := next_fast fast type in
      (name, if fast' then is_directory_type type
             else IsDirectory E (MakePath path name))
      :: classify E path fast' rest
  end.

Definition is_dot (name : string) : bool :=
  String.eqb name "." || String.eqb name "..".

(** Does the mode keep an entry? *)
Definition keeps (m : Mode) (is_directory : bool) : bool :=
  match m with
  | FILES => negb is_directory
  | DIRECTORIES => is_directory
  | ALL => true
  | RECURSIVE => false
  end.

(** The names a flat scan enters into the directory map ([want = true])
    or the file map ([want = false]), in the order of the scan. *)
Definition recorded (m : Mode) (want : bool) (cls : list (string * bool)) : list string :=
  List.map fst
    (List.filter (λ e, negb (is_dot e.1) && keeps m e.2 && Bool.eqb e.2 want) cls).

Definition same_key (E : Env) (k name : string) : bool :=
  String.eqb (Normalize E name) k.

(** Last write wins: the last of the names with the key [k]. *)
Definition last_with_key (E : Env) (k : string) (names : list string) : option string :=
  last (List.filter (same_key E k) names).

(** One pair of warnings for every directory whose key an earlier
    directory of the scan has. *)
Fixpoint folder_warnings (E : Env) (earlier dirs : list string) : list LogMsg :=
  match dirs with
  | [] => []
  | name :: rest =>
      (if existsb (same_key E (Normalize E name)) earlier
       then [WarnFolderTwice name; WarnMergeDirectories]
       else [])
      ++ folder_warnings E (earlier ++ [name]) rest
  end.

(** What a flat scan that started in [w] with the names [earlier_f] and
    [earlier_d] already entered has done once it has entered [new_f] and
    [new_d]: each key maps to the last name entered under it, and the log
    grew by the folder warnings. *)
Definition scan_post (E : Env) (w : World) (fast' : bool)
    (earlier_f earlier_d new_f new_d : list string)
    (r : Directory) (w' : World) : Prop :=
  (∀ k, dir_files r !! k = last_with_key E k (earlier_f ++ new_f))
  ∧ (∀ k, dir_directories r !! k = last_with_key E k (earlier_d ++ new_d))
  ∧ output w' = output w ++ folder_warnings E earlier_d new_d
  ∧ has_fast_dir_stat w' = fast'
  ∧ rtp_state w' = rtp_state w
  ∧ game_directory_tree w' = game_directory_tree w.

(** The platform's answers fit together: what a listing shows as a
    directory exists, is a directory, and lies less deep than the
    directory listed. *)
Definition platform_consistent (E : Env) (depth : string → nat) : Prop :=
  ∀ path entries name type,
    ReadDirectory E path = Some entries →
    (name, type) ∈ entries → is_dot name = false →
    type = FtDirectory ∨ IsDirectory E (MakePath path name) = true →
    Exists E (MakePath path name) = true
    ∧ IsDirectory E (MakePath path name) = true
    ∧ (depth (MakePath path name) < depth path)%nat.

(** *** Sessions *)

(** One request to [rtp_lookup]. *)
Record Request := {
  req_dir : string;
  req_name : string;
  req_exts : list string;
  req_flag : bool
}.

(** The worlds a session of [rtp_lookup] and top-level [FindFile] calls
    passes through, starting from [w0]. *)
Inductive reachable (E : Env) (w0 : World) : World → Prop :=
| reach_start : reachable E w0 w0
| reach_lookup w q r w' :
    reachable E w0 w →
    rtp_lookup_top E (req_dir q) (req_name q) (req_exts q) (req_flag q) w = Done r w' →
    reachable E w0 w'
| reach_find w dir name exts tryTranslate r w' :
    reachable E w0 w →
    FindFile E dir name exts tryTranslate w = Done r w' →
    reachable E w0 w'.

(** A sequence of [rtp_lookup] calls; the result lists [game_rtp] as it
    is after each call. *)
Fixpoint lookup_session (E : Env) (reqs : list Request) : M (list (list RtpType)) :=
  match reqs with
  | [] => ret []
  | q :: rest =>
      rtp_lookup_top E (req_dir q) (req_name q) (req_exts q) (req_flag q);;
      st ← get_rtp;
      later ← lookup_session E rest;
      ret (game_rtp st :: later)
  end.

(** A sequence of top-level [FindFile] calls. *)
Fixpoint find_session (E : Env) (reqs : list (string * string * list string))
  : M (list string) :=
  match reqs with
  | [] => ret []
  | (dir, name, exts) :: rest =>
      r ← FindFile E dir name exts false;
      later ← find_session E rest;
      ret (r :: later)
  end.

(** A sequence of runs of the warning step of [FindFile], each with the
    outcome [(path, is_rtp_asset)] of its RTP lookup. *)
Fixpoint report_session (E : Env)
    (steps : list (string * string * string * bool)) : M unit :=
  match steps with
  | [] => ret tt
  | (dir, name, ret_path, is_rtp_asset) :: rest =>
      report_rtp E dir name ret_path is_rtp_asset;;
      report_session E rest
  end.

(** *** A sample installation

    Used to evaluate the definitions on concrete inputs. *)
Module Sample.

(** Modelled from the spec: [lcf::ReaderUtil::Normalize] is not part of
    the sources; the sample normaliser folds ASCII case. *)
Definition lower_char (c : ascii) : ascii :=
  let n := nat_of_ascii c in
  if ((65 <=? n) && (n <=? 90))%nat then ascii_of_nat (n + 32) else c.

Fixpoint ascii_lower (s : string) : string :=
  match s with
  | EmptyString => EmptyString
  | String c r => String (lower_char c) (ascii_lower r)
  end.

Definition V (n : nat) : RtpType := RtpVariant n.

(** The RTP tables of the sample: four assets of the category [charset],
    the add-on listed with every one of them. *)
Definition any_to_rtp (dir name : string) (version : Z) : list RtpType :=
  if negb (String.eqb dir "charset") then []
  else if String.eqb name "a" then [V 1; RPG2000_DonMiguelAddon; V 2]
  else if String.eqb name "b" then [RPG2000_DonMiguelAddon; V 2; V 3]
  else if String.eqb name "c" then [V 3; RPG2000_DonMiguelAddon]
  else if String.eqb name "d" then [V 4; RPG2000_DonMiguelAddon]
  else [].

(** The cross-variant table of the sample: an asset the tables know keeps
    its name in every variant and is reported as an RTP asset. *)
Definition rtp_to_rtp (dir name : string) (src target : RtpType) (flag : bool)
  : string * bool :=
  match any_to_rtp dir name 2000 with
  | [] => ("", false)
  | _ => (name, true)
  end.

(** A file system of one game directory with two sub-directories. *)
Definition read_directory (path : string) : option (list (string * FileType)) :=
  if String.eqb path "/game" then
    Some [("."%string, FtDirectory); (".."%string, FtDirectory);
          ("RPG_RT.ldb", FtFile); ("Music", FtDirectory);
          ("Title.png", FtFile); ("title.PNG", FtFile);
          ("music", FtDirectory)]
  else if String.eqb path "/game/Music" then Some [("Town.ogg", FtFile)]
  else if String.eqb path "/game/music" then Some [("Town.ogg", FtFile)]
  else None.

Definition is_directory (path : string) : bool :=
  String.eqb path "/game" || String.eqb path "/game/Music"
  || String.eqb path "/game/music".

(** How deep the tree below a directory of the sample is. *)
Definition depth (path : string) : nat :=
  if String.eqb path "/game" then 1%nat else 0%nat.

Definition env : Env := {|
  Normalize := ascii_lower;
  escape_symbol := "\";
  GetCurrentTranslationId := "";
  GetTranslationDir := "language";
  EngineVersion := 2000;
  LookupAnyToRtp := any_to_rtp;
  LookupRtpToRtp := rtp_to_rtp;
  Exists := is_directory;
  IsDirectory := is_directory;
  ReadDirectory := read_directory;
  indeterminate := true
|}.

(** The game's tree. *)
Definition game_tree : DirectoryTree := {|
  directory_path := "/game";
  files := {[ "rpg_rt.ldb" := "RPG_RT.ldb"; "secret.png" := "Secret.png" ]};
  directories := {[ "music" := "Music"; "picture" := "Picture" ]};
  sub_members := {[ "music" := {[ "town.ogg" := "Town.ogg" ]}; "picture" := ∅ ]}
|}.

(** An installed RTP. *)
Definition rtp_tree : DirectoryTree := {|
  directory_path := "/rtp";
  files := ∅;
  directories := {[ "charset" := "CharSet" ]};
  sub_members := {[ "charset" := {[ "a.png" := "A.png" ]} ]}
|}.

(** A tree as [CreateDirectoryTree] builds it in the mode [ALL]: the
    directories are listed, their members are not. *)
Definition flat_tree : DirectoryTree := {|
  directory_path := "/game";
  files := {[ "rpg_rt.ldb" := "RPG_RT.ldb" ]};
  directories := {[ "music" := "Music" ]};
  sub_members := ∅
|}.

(** A tree whose base path holds a backslash. *)
Definition backslash_tree : DirectoryTree := {|
  directory_path := "/srv/my\game";
  files := ∅;
  directories := {[ "music" := "Music" ]};
  sub_members := {[ "music" := {[ "town.ogg" := "Town.ogg" ]} ]}
|}.

(** The sample with the translation [de] active, and a game that ships
    that translation. *)
Definition env_de : Env := {|
  Normalize := ascii_lower;
  escape_symbol := "\";
  GetCurrentTranslationId := "de";
  GetTranslationDir := "Language";
  EngineVersion := 2000;
  LookupAnyToRtp := any_to_rtp;
  LookupRtpToRtp := rtp_to_rtp;
  Exists := is_directory;
  IsDirectory := is_directory;
  ReadDirectory := read_directory;
  indeterminate := true
|}.

Definition game_tree_de : DirectoryTree := {|
  directory_path := "/game";
  files := {[ "rpg_rt.ldb" := "RPG_RT.ldb" ]};
  directories := {[ "picture" := "Picture"; "language" := "Language" ]};
  sub_members :=
    {[ "picture" := {[ "title.png" := "Title.png"; "logo.png" := "Logo.png" ]};
       "language" := {[ "de/picture/title.png" := "de/Picture/Title.png" ]} ]}
|}.

Definition rtp_hit : RtpHitInfo := {|
  hit_type := V 2;
  hit_name := "sample";
  hit_tree := rtp_tree;
  hit_hits := 1;
  hit_max := 1
|}.

(** The state after [InitRtpPaths(false, false)] found one RTP. *)
Definition rtp_state0 : RtpState := {|
  search_paths := [rtp_tree];
  disable_rtp := false;
  game_has_full_package_flag := false;
  warning_broken_rtp_game_shown := false;
  detected_rtp := [rtp_hit];
  game_rtp := []
|}.

Definition world : World := {|
  rtp_state := rtp_state0;
  game_directory_tree := Some game_tree;
  has_fast_dir_stat := true;
  output := [];
  game_rtp_writes := 0
|}.

(** Requests for the four assets the sample tables know. *)
Definition request (name : string) : Request := {|
  req_dir := "charset";
  req_name := name;
  req_exts := IMG_TYPES;
  req_flag := false
|}.

Definition world_de : World := {|
  rtp_state := rtp_state0;
  game_directory_tree := Some game_tree_de;
  has_fast_dir_stat := true;
  output := [];
  game_rtp_writes := 0
|}.

End Sample.

(** ** Further operations of the translation unit *)

(** [FileFinder::GetPathInsidePath]. *)
Definition GetPathInsidePath (path_to path_in : string) : string :=
  if negb (String.prefix path_to path_in) then path_in
  else
    let path_out := Str.drop (String.length path_to) path_in in
    match path_out with
    | String c rest =>
        if Ascii.eqb c Str.slash || Ascii.eqb c Str.backslash then rest
        else path_out
    | EmptyString => path_out
    end.

(** [FileFinder::GetPathInsideGamePath]. *)
Definition GetPathInsideGamePath (path_in : string) : M string :=
  tree ← deref_game_tree;
  ret (GetPathInsidePath (directory_path tree) path_in).

(** [FileFinder::GetDirectoryTree] and [FileFinder::SetDirectoryTree]. *)
Definition GetDirectoryTree : M (option DirectoryTree) :=
  λ w, Done (game_directory_tree w) w.

Definition SetDirectoryTree (directory_tree : option DirectoryTree) : M unit :=
  λ w, Done tt {| rtp_state := rtp_state w;
                  game_directory_tree := directory_tree;
                  has_fast_dir_stat := has_fast_dir_stat w;
                  output := output w;
                  game_rtp_writes := game_rtp_writes w |}.

(** [FileFinder::Quit]; [rtp_state = {}] assigns to every member. *)
Definition Quit : M unit :=
  λ w, Done tt {| rtp_state := rtp_state_default;
                  game_directory_tree := None;
                  has_fast_dir_stat := has_fast_dir_stat w;
                  output := output w;
                  game_rtp_writes := S (game_rtp_writes w) |}.

(** [FileFinder::CreateSaveDirectoryTree]. [save_path] is the value of
    [Main_Data::GetSavePath()], which lives outside the translation unit. *)
Definition CreateSaveDirectoryTree (E : Env) (fuel : nat) (save_path : string)
  : M (option DirectoryTree) :=
  if negb (Exists E save_path && IsDirectory E save_path) then ret None
  else
    mem ← GetDirectoryMembers E fuel save_path FILES "";
    ret (Some {| directory_path := save_path;
                 files := dir_files mem;
                 directories := dir_directories mem;
                 sub_members := ∅ |}).

(** The file name [GetSavegames] builds for the slot [i]:
    [ss << "Save" << (i <= 9 ? "0" : "") << i << ".lsd"]. *)
Definition save_name (i : nat) : string :=
  "Save" +:+ (if (i <=? 9)%nat then "0" else "") +:+ pretty i +:+ ".lsd".

(** The loop of [GetSavegames]; every iteration dereferences [tree]. *)
Fixpoint count_savegames (E : Env) (tree : option DirectoryTree)
    (slots : list nat) (count : Z) : M Z :=
  match slots with
  | [] => ret count
  | i :: rest =>
      match tree with
      | None => crash NullDereference
      | Some t =>
          filename ← FindDefault_tree_name E (FindDefault_dir_name E) t (save_name i);
          count_savegames E tree rest
            (if negb (Str.is_empty filename) then count + 1 else count)
      end
  end.

(** [FileFinder::GetSavegames] and [FileFinder::HasSavegame]. *)
Definition GetSavegames (E : Env) (fuel : nat) (save_path : string) : M Z :=
  tree ← CreateSaveDirectoryTree E fuel save_path;
  count_savegames E tree (seq 1 15) 0.

Definition HasSavegame (E : Env) (fuel : nat) (save_path : string) : M bool :=
  count ← GetSavegames E fuel save_path;
  ret (0 <? count).

(** *** Vocabulary of the further statements *)

(** A path segment that is neither empty nor [.] nor [..]. *)
Definition ordinary (seg : string) : Prop :=
  seg ≠ "" ∧ seg ≠ "." ∧ seg ≠ "..".

(** Every backslash of [path] is a path delimiter: the escape symbol
    starts with a backslash, or [path] holds none. *)
Definition backslash_delimits (escape_symbol path : string) : Prop :=
  Str.has_char Str.backslash path = false
  ∨ escape_char_back escape_symbol = Str.backslash.

(** [s] starts with a slash or a backslash. *)
Definition starts_with_separator (s : string) : bool :=
  match s with
  | String c _ => Ascii.eqb c Str.slash || Ascii.eqb c Str.backslash
  | EmptyString => false
  end.

(** Between [w] and [w'] nothing changed but [game_rtp], the latch of the
    warning (which was at most set) and the log (which at most grew). *)
Definition same_setup (w w' : World) : Prop :=
  game_directory_tree w' = game_directory_tree w
  ∧ has_fast_dir_stat w' = has_fast_dir_stat w
  ∧ search_paths (rtp_state w') = search_paths (rtp_state w)
  ∧ detected_rtp (rtp_state w') = detected_rtp (rtp_state w)
  ∧ disable_rtp (rtp_state w') = disable_rtp (rtp_state w)
  ∧ game_has_full_package_flag (rtp_state w')
    = game_has_full_package_flag (rtp_state w)
  ∧ (warning_broken_rtp_game_shown (rtp_state w) = true →
     warning_broken_rtp_game_shown (rtp_state w') = true)
  ∧ ∃ msgs, output w' = output w ++ msgs.

Definition is_claims_warning (m : LogMsg) : bool :=
  match m with WarnClaimsNoRtp => true | _ => false end.

(** The trees a lookup in [w] can draw from: the game's, the RTP search
    paths, and the trees of the detected RTPs. *)
Definition sources (w : World) : list DirectoryTree :=
  option_list (game_directory_tree w)
  ++ search_paths (rtp_state w)
  ++ List.map hit_tree (detected_rtp (rtp_state w)).

(** [r] is empty or the path of an entry one of the trees records. *)
Definition from_trees (trees : list DirectoryTree) (r : string) : Prop :=
  r = "" ∨ ∃ t, t ∈ trees ∧ indexed t r.

(** The save slots whose file name, normalised, is the key of one of
    [names]. *)
Definition present_slots (E : Env) (names : list string) : list nat :=
  List.filter (λ i, existsb (same_key E (Normalize E (save_name i))) names) (seq 1 15).

(** What a lookup that draws from [trees] owes its caller: the invariant
    still holds and the result is empty or indexed in one of the trees. *)
Definition drawn_from (trees : list DirectoryTree) (Inv : World → Prop)
    (r : string) (w' : World) : Prop :=
  Inv w' ∧ from_trees trees r.

Definition callback_drawn (trees : list DirectoryTree) (Inv : World → Prop)
    (cb : string → string → M string) : Prop :=
  ∀ d n w, Inv w → holds false (cb d n) w (drawn_from trees Inv).
(** The keys of [f] are the normalised forms of its values. *)
Definition keyed (E : Env) (f : gmap string string) : Prop :=
  ∀ k n, f !! k = Some n → k = Normalize E n.

(** Between [w] and [w'] a scan left the RTP state and the game tree as
    they were and logged nothing but failures to open a directory. *)
Definition scanned_silently (w w' : World) : Prop :=
  rtp_state w' = rtp_state w
  ∧ game_directory_tree w' = game_directory_tree w
  ∧ ∃ msgs, output w' = output w ++ msgs
            ∧ Forall (λ m, ∃ p, m = DbgErrorOpeningDir p) msgs.

(** What a scan in the mode [RECURSIVE] that started in [w] returns. *)
Definition recursive_scan_post (E : Env) (w : World) (r : Directory) (w' : World)
  : Prop :=
  dir_directories r = ∅ ∧ keyed E (dir_files r) ∧ scanned_silently w w'.

(** The sample with an oracle that also knows the asset [..] of the
    category [charset]. *)
Module LiveSample.

Definition any_to_rtp (dir name : string) (version : Z) : list RtpType :=
  if String.eqb dir "charset" && String.eqb name ".."
  then [Sample.V 1; Sample.V 2]
  else Sample.any_to_rtp dir name version.

Definition rtp_to_rtp (dir name : string) (src target : RtpType) (flag : bool)
  : string * bool :=
  match any_to_rtp dir name 2000 with
  | [] => ("", false)
  | _ => (name, true)
  end.

Definition env : Env := {|
  Normalize := Sample.ascii_lower;
  escape_symbol := "\";
  GetCurrentTranslationId := "";
  GetTranslationDir := "language";
  EngineVersion := 2000;
  LookupAnyToRtp := any_to_rtp;
  LookupRtpToRtp := rtp_to_rtp;
  Exists := Sample.is_directory;
  IsDirectory := Sample.is_directory;
  ReadDirectory := Sample.read_directory;
  indeterminate := true
|}.

End LiveSample.

(** A second sample: a save directory. *)
Module SaveSample.

Definition read_directory (path : string) : option (list (string * FileType)) :=
  if String.eqb path "/save" then
    Some [("."%string, FtDirectory); (".."%string, FtDirectory);
          ("Save01.lsd", FtFile); ("save03.LSD", FtFile);
          ("Save16.lsd", FtFile); ("notes.txt", FtFile);
          ("Save02.lsd", FtDirectory)]
  else None.

Definition is_directory (path : string) : bool :=
  String.eqb path "/save" || String.eqb path "/save/Save02.lsd".

Definition env : Env := {|
  Normalize := Sample.ascii_lower;
  escape_symbol := "\";
  GetCurrentTranslationId := "";
  GetTranslationDir := "language";
  EngineVersion := 2000;
  LookupAnyToRtp := Sample.any_to_rtp;
  LookupRtpToRtp := Sample.rtp_to_rtp;
  Exists := is_directory;
  IsDirectory := is_directory;
  ReadDirectory := read_directory;
  indeterminate := true
|}.

End SaveSample.

(** * Properties *)

(** ** Strings *)

#[local] Arguments String.append _ _ : simpl nomatch.

Lemma replace_char_app a b s t :
  Str.replace_char a b (s +:+ t) = Str.replace_char a b s +:+ Str.replace_char a b t.
Proof. induction s as [|c s IH]; simpl; [done | by rewrite IH]. Qed.

Lemma replace_char_idem s : rb (rb s) = rb s.
Proof.
  induction s as [|c s IH]; simpl; [done|]. rewrite IH. f_equal.
  destruct (Ascii.eqb c Str.backslash) eqn:Hc; [done|]. by rewrite Hc.
Qed.

Lemma string_app_nil_r (s : string) : s +:+ "" = s.
Proof. induction s as [|c s IH]; simpl; [done | by rewrite IH]. Qed.

Lemma string_app_assoc (s t u : string) : (s +:+ t) +:+ u = s +:+ t +:+ u.
Proof. induction s as [|c s IH]; simpl; [done | by rewrite IH]. Qed.

Lemma is_empty_true s : Str.is_empty s = true ↔ s = "".
Proof. destruct s; simpl; split; congruence. Qed.

Lemma is_empty_false s : Str.is_empty s = false ↔ s ≠ "".
Proof. destruct s; simpl; split; congruence. Qed.

Lemma replace_char_empty a b s : Str.replace_char a b s = "" ↔ s = "".
Proof. destruct s; simpl; split; congruence. Qed.

Lemma MakePath_empty_dir name : MakePath "" name = rb name.
Proof. reflexivity. Qed.

Lemma MakePath_nonempty_dir dir name :
  dir ≠ "" → MakePath dir name = rb dir +:+ "/" +:+ rb name.
Proof.
  intros Hd. unfold MakePath. apply is_empty_false in Hd. rewrite Hd.
  by rewrite !replace_char_app.
Qed.

Lemma concat_snoc (l : list string) (x : string) :
  l ≠ [] → String.concat "/" (l ++ [x]) = String.concat "/" l +:+ "/" +:+ x.
Proof.
  induction l as [|y l IH]; [done|]. intros _.
  destruct l as [|z l]; [done|].
  change (String.concat "/" ((y :: z :: l) ++ [x]))
    with (y +:+ "/" +:+ String.concat "/" ((z :: l) ++ [x])).
  rewrite IH by done.
  change (String.concat "/" (y :: z :: l)) with (y +:+ "/" +:+ String.concat "/" (z :: l)).
  by rewrite !string_app_assoc.
Qed.

Lemma string_app_eq_nil (s t : string) : s +:+ t = "" → s = "" ∧ t = "".
Proof. destruct s; simpl; [done | congruence]. Qed.

Lemma concat_nonempty (l : list string) :
  l ≠ [] → Forall (λ s, s ≠ "") l → String.concat "/" l ≠ "".
Proof.
  destruct l as [|y l]; [done|]. intros _ Hall.
  apply Forall_cons in Hall as [Hy _].
  destruct l; simpl; [done|].
  intros H. by apply string_app_eq_nil in H as [? _].
Qed.

(** The loop that rejoins the components computes the join with slashes,
    backslashes rewritten. *)
Lemma fold_MakePath_join (l : list string) :
  Forall (λ s, s ≠ "") l →
  fold_left MakePath l "" = rb (CanonSpec.join l).
Proof.
  induction l as [|x l IH] using rev_ind; [done|].
  intros Hall. apply Forall_app in Hall as [Hl Hx].
  rewrite fold_left_app. simpl. rewrite IH by done.
  destruct (decide (l = [])) as [->|Hne]; [done|].
  unfold CanonSpec.join. rewrite concat_snoc by done.
  rewrite MakePath_nonempty_dir.
  - by rewrite replace_char_idem, !replace_char_app.
  - rewrite replace_char_empty. by apply concat_nonempty.
Qed.

Lemma Forall_removelast {A} (P : A → Prop) (l : list A) :
  Forall P l → Forall P (removelast l).
Proof.
  induction l as [|x l IH]; [done|]. intros [Hx Hl]%Forall_cons.
  destruct l as [|y l]; [constructor|].
  change (removelast (x :: y :: l)) with (x :: removelast (y :: l)).
  constructor; [done | by apply IH].
Qed.

Lemma step_retained_nonempty st seg :
  Forall (λ s, s ≠ "") (CanonSpec.retained st) →
  Forall (λ s, s ≠ "") (CanonSpec.retained (CanonSpec.step st seg)).
Proof.
  intros H. unfold CanonSpec.step.
  destruct (decide (seg = "." ∨ seg = "")); [done|].
  destruct (decide (seg = "..")).
  - destruct (CanonSpec.retained st) as [|x l] eqn:Hr.
    + destruct (decide (0 < CanonSpec.depth st)); simpl; constructor.
    + cbn [CanonSpec.retained]. by apply Forall_removelast.
  - cbn [CanonSpec.retained]. apply Forall_app. split; [done|].
    apply Forall_singleton. tauto.
Qed.

Lemma fold_retained_nonempty segs st :
  Forall (λ s, s ≠ "") (CanonSpec.retained st) →
  Forall (λ s, s ≠ "") (CanonSpec.retained (fold_left CanonSpec.step segs st)).
Proof.
  revert st. induction segs as [|seg segs IH]; intros st H; [done|].
  simpl. apply IH. by apply step_retained_nonempty.
Qed.

Lemma step_skip st seg : seg = "." ∨ seg = "" → CanonSpec.step st seg = st.
Proof. intros H. unfold CanonSpec.step. by rewrite decide_True. Qed.

Lemma step_pop st x l :
  CanonSpec.retained st = x :: l →
  CanonSpec.step st ".." =
  {| CanonSpec.retained := removelast (x :: l);
     CanonSpec.depth := CanonSpec.depth st;
     CanonSpec.clamped := CanonSpec.clamped st |}.
Proof.
  intros H. unfold CanonSpec.step.
  rewrite decide_False by (intros [?|?]; done).
  rewrite decide_True by done. by rewrite H.
Qed.

Lemma step_ascend st :
  CanonSpec.retained st = [] → 0 < CanonSpec.depth st →
  CanonSpec.step st ".." =
  {| CanonSpec.retained := [];
     CanonSpec.depth := CanonSpec.depth st - 1;
     CanonSpec.clamped := CanonSpec.clamped st |}.
Proof.
  intros H Hd. unfold CanonSpec.step.
  rewrite decide_False by (intros [?|?]; done).
  rewrite decide_True by done. rewrite H. by rewrite decide_True.
Qed.

Lemma step_clamp st :
  CanonSpec.retained st = [] → ¬ 0 < CanonSpec.depth st →
  CanonSpec.step st ".." =
  {| CanonSpec.retained := [];
     CanonSpec.depth := CanonSpec.depth st;
     CanonSpec.clamped := S (CanonSpec.clamped st) |}.
Proof.
  intros H Hd. unfold CanonSpec.step.
  rewrite decide_False by (intros [?|?]; done).
  rewrite decide_True by done. rewrite H. by rewrite decide_False.
Qed.

Lemma step_push st seg :
  seg ≠ "." → seg ≠ "" → seg ≠ ".." →
  CanonSpec.step st seg =
  {| CanonSpec.retained := CanonSpec.retained st ++ [seg];
     CanonSpec.depth := CanonSpec.depth st;
     CanonSpec.clamped := CanonSpec.clamped st |}.
Proof.
  intros H1 H2 H3. unfold CanonSpec.step.
  rewrite decide_False by (intros [?|?]; done).
  by rewrite decide_False.
Qed.

(** The loop of [MakeCanonical] is the fold of the specification. *)
Lemma MakeCanonical_loop_fold path comps pc d k :
  MakeCanonical_loop path comps pc d (repeat (DbgPathTraversal path) k)
  = CanonSpec.observe path
      (fold_left CanonSpec.step comps
         {| CanonSpec.retained := pc; CanonSpec.depth := d; CanonSpec.clamped := k |}).
Proof.
  revert pc d k. induction comps as [|c comps IH]; intros pc d k; [done|].
  cbn [MakeCanonical_loop fold_left].
  destruct (String.eqb_spec c "..") as [->|Hdd].
  - destruct pc as [|p pc].
    + change (0 <? Z.of_nat (List.length (@nil string))) with false. cbv iota.
      destruct (Z.ltb_spec 0 d).
      * rewrite step_ascend by done. apply IH.
      * rewrite step_clamp by (simpl; first [done | lia]).
        cbn [CanonSpec.depth CanonSpec.clamped CanonSpec.retained].
        rewrite <- (IH [] d (S k)). f_equal.
        simpl. by rewrite repeat_cons.
    + replace (0 <? Z.of_nat (List.length (p :: pc))) with true
        by (symmetry; apply Z.ltb_lt; simpl; lia).
      erewrite step_pop by reflexivity. apply IH.
  - destruct (decide (c = "." ∨ c = "")) as [Hskip|Hkeep].
    + replace (Str.is_empty c || String.eqb c ".") with true.
      * rewrite step_skip by done. apply IH.
      * symmetry. destruct Hskip as [->| ->]; done.
    + replace (Str.is_empty c || String.eqb c ".") with false.
      * rewrite step_push by tauto. apply IH.
      * symmetry. apply orb_false_iff. split.
        -- apply is_empty_false. tauto.
        -- apply String.eqb_neq. tauto.
Qed.

Lemma is_delim_slash esc : is_delim esc Str.slash = true.
Proof. unfold is_delim. by rewrite Ascii.eqb_refl, orb_true_r. Qed.

Lemma MakeCanonical_run_fold esc path d :
  MakeCanonical_run esc path d =
  let st := CanonSpec.canonicalize_fold (SplitPath esc path) d in
  (Str.replace_char Str.backslash Str.slash (CanonSpec.join (CanonSpec.retained st)),
   repeat (DbgPathTraversal path) (CanonSpec.clamped st)).
Proof.
  unfold MakeCanonical_run.
  pose proof (MakeCanonical_loop_fold path (SplitPath esc path) [] d 0) as H.
  simpl in H. rewrite H. unfold CanonSpec.observe. cbv zeta.
  unfold CanonSpec.canonicalize_fold. f_equal.
  apply fold_MakePath_join. apply fold_retained_nonempty. constructor.
Qed.

(** C6. [MakeCanonical] splits the path and folds the segments from left
    to right: [.] and empty segments are dropped, [..] removes the last
    retained segment if there is one, otherwise uses up one unit of the
    initial depth, and with no depth left is ignored with a diagnostic;
    the retained segments are joined with slashes (a backslash left inside
    a segment is written as a slash too). For every initial depth
    [a/b/../c] becomes [a/c]; with depth 1 both [../x] and [../../x] become
    [x], the latter with one traversal diagnostic. The three examples hold
    whenever none of their letters is the escape character. *)
Theorem MakeCanonical_semantics (esc : string) :
  (∀ path d,
     MakeCanonical_run esc path d =
     let st := CanonSpec.canonicalize_fold (SplitPath esc path) d in
     (Str.replace_char Str.backslash Str.slash
        (CanonSpec.join (CanonSpec.retained st)),
      repeat (DbgPathTraversal path) (CanonSpec.clamped st)))
  ∧ (delimiter_free esc "abcx." = true →
     (∀ d, MakeCanonical esc "a/b/../c" d = "a/c")
     ∧ MakeCanonical_run esc "../x" 1 = ("x", [])
     ∧ MakeCanonical_run esc "../../x" 1 = ("x", [DbgPathTraversal "../../x"])).
Proof.
  split; [apply MakeCanonical_run_fold|].
  intros Hfree. unfold delimiter_free in Hfree. simpl in Hfree.
  repeat (apply andb_prop in Hfree as [?%negb_true_iff Hfree]).
  pose proof (is_delim_slash esc) as Hs. unfold Str.slash in Hs.
  assert (SplitPath esc "a/b/../c" = ["a"; "b"; ".."; "c"]) as E1.
  { unfold SplitPath, Tokenize.
    repeat (cbn [Tokenize_from String.append];
            rewrite ?Hs, ?H, ?H0, ?H1, ?H2, ?H3). done. }
  assert (SplitPath esc "../x" = [".."; "x"]) as E2.
  { unfold SplitPath, Tokenize.
    repeat (cbn [Tokenize_from String.append];
            rewrite ?Hs, ?H, ?H0, ?H1, ?H2, ?H3). done. }
  assert (SplitPath esc "../../x" = [".."; ".."; "x"]) as E3.
  { unfold SplitPath, Tokenize.
    repeat (cbn [Tokenize_from String.append];
            rewrite ?Hs, ?H, ?H0, ?H1, ?H2, ?H3). done. }
  split; [|split].
  - intros d. unfold MakeCanonical, MakeCanonical_run. rewrite E1.
    cbn [MakeCanonical_loop String.eqb Ascii.eqb Bool.eqb Str.is_empty orb].
    reflexivity.
  - unfold MakeCanonical_run. by rewrite E2.
  - unfold MakeCanonical_run. by rewrite E3.
Qed.

Lemma MakeCanonical_semantics_witness :
  delimiter_free "\" "abcx." = true
  ∧ MakeCanonical "\" "a/b/../c" 0 = "a/c"
  ∧ MakeCanonical_run "\" "../x" 1 = ("x", [])
  ∧ MakeCanonical_run "\" "../../x" 1 = ("x", [DbgPathTraversal "../../x"]).
Proof.
  split; [reflexivity|].
  destruct (MakeCanonical_semantics "\") as [_ H].
  destruct (H eq_refl) as (H1 & H2 & H3).
  split; [apply H1 | split; [apply H2 | apply H3]].
Defined.

(** *** Tokens *)

Lemma str_all_app p s t : str_all p (s +:+ t) = str_all p s && str_all p t.
Proof.
  induction s as [|c s IH]; simpl; [done|]. rewrite IH. by rewrite andb_assoc.
Qed.

Lemma has_char_app c s t : Str.has_char c (s +:+ t) = Str.has_char c s || Str.has_char c t.
Proof.
  induction s as [|d s IH]; simpl; [done|]. rewrite IH. by rewrite orb_assoc.
Qed.

Lemma find_first_of_None c s : Str.find_first_of c s = None ↔ Str.has_char c s = false.
Proof.
  induction s as [|d s IH]; simpl; [done|].
  destruct (Ascii.eqb d c); simpl; [split; congruence|].
  destruct (Str.find_first_of c s); split; intros H; try congruence.
  - apply IH in H. congruence.
  - by apply IH.
Qed.

(** A text without delimiters is one token. *)
Lemma Tokenize_from_clean pred cur text :
  str_all (λ c, negb (pred c)) text = true →
  Tokenize_from cur text pred = [cur +:+ text].
Proof.
  revert cur. induction text as [|c text IH]; intros cur H; simpl.
  - by rewrite string_app_nil_r.
  - simpl in H. apply andb_prop in H as [Hc Ht].
    apply negb_true_iff in Hc. rewrite Hc. rewrite IH by done.
    by rewrite string_app_assoc.
Qed.

(** No token holds a delimiter. *)
Lemma Tokenize_from_tokens pred cur text :
  str_all (λ c, negb (pred c)) cur = true →
  Forall (λ t, str_all (λ c, negb (pred c)) t = true) (Tokenize_from cur text pred).
Proof.
  revert cur. induction text as [|c text IH]; intros cur H; simpl.
  - by constructor.
  - destruct (pred c) eqn:Hc.
    + constructor; [done|]. by apply IH.
    + apply IH. rewrite str_all_app, H. simpl. by rewrite Hc.
Qed.

Lemma SplitPath_tokens esc path :
  Forall (λ t, delimiter_free esc t = true) (SplitPath esc path).
Proof. apply Tokenize_from_tokens. done. Qed.

Lemma SplitPath_clean esc s :
  delimiter_free esc s = true → SplitPath esc s = [s].
Proof. intros H. unfold SplitPath, Tokenize. by rewrite Tokenize_from_clean. Qed.

Lemma step_retained_Forall (P : string → Prop) st seg :
  P seg → Forall P (CanonSpec.retained st) →
  Forall P (CanonSpec.retained (CanonSpec.step st seg)).
Proof.
  intros Hseg H. unfold CanonSpec.step.
  destruct (decide (seg = "." ∨ seg = "")); [done|].
  destruct (decide (seg = "..")).
  - destruct (CanonSpec.retained st) as [|x l] eqn:Hr.
    + destruct (decide (0 < CanonSpec.depth st)); simpl; constructor.
    + cbn [CanonSpec.retained]. by apply Forall_removelast.
  - cbn [CanonSpec.retained]. apply Forall_app. split; [done|].
    by apply Forall_singleton.
Qed.

Lemma fold_retained_Forall (P : string → Prop) segs st :
  Forall P segs → Forall P (CanonSpec.retained st) →
  Forall P (CanonSpec.retained (fold_left CanonSpec.step segs st)).
Proof.
  revert st. induction segs as [|seg segs IH]; intros st Hs H; [done|].
  apply Forall_cons in Hs as [Hseg Hs].
  simpl. apply IH; [done|]. by apply step_retained_Forall.
Qed.

Lemma replace_char_absent a b s :
  Str.has_char a s = false → Str.replace_char a b s = s.
Proof.
  induction s as [|c s IH]; simpl; [done|].
  intros [Hc Hs]%orb_false_iff. rewrite Hc. by rewrite IH.
Qed.

Lemma has_char_replace_slash s :
  Str.has_char Str.slash (Str.replace_char Str.backslash Str.slash s) = false →
  Str.has_char Str.slash s = false ∧ Str.has_char Str.backslash s = false.
Proof.
  induction s as [|c s IH]; simpl; [done|].
  intros [Hc Hs]%orb_false_iff. destruct (IH Hs) as [-> ->].
  destruct (Ascii.eqb c Str.backslash) eqn:Hb; [done|].
  by rewrite Hc.
Qed.

Lemma concat_two_has_slash x y l :
  Str.has_char Str.slash (String.concat "/" (x :: y :: l)) = true.
Proof.
  change (String.concat "/" (x :: y :: l))
    with (x +:+ "/" +:+ String.concat "/" (y :: l)).
  rewrite !has_char_app. simpl. by rewrite orb_true_r.
Qed.

(** A canonical path without a slash holds no delimiter at all: it is
    empty or a single token. *)
Lemma canon_without_slash esc path d :
  Str.find_first_of Str.slash (MakeCanonical_run esc path d).1 = None →
  delimiter_free esc (MakeCanonical_run esc path d).1 = true.
Proof.
  rewrite MakeCanonical_run_fold. cbv zeta. cbn [fst].
  set (st := CanonSpec.canonicalize_fold (SplitPath esc path) d).
  assert (Forall (λ t, delimiter_free esc t = true) (CanonSpec.retained st)) as Hall.
  { apply fold_retained_Forall; [apply SplitPath_tokens | constructor]. }
  intros H%find_first_of_None.
  apply has_char_replace_slash in H as [Hs Hb].
  rewrite replace_char_absent by done.
  destruct (CanonSpec.retained st) as [|x [|y l]].
  - done.
  - by apply Forall_cons in Hall as [? _].
  - unfold CanonSpec.join in Hs. by rewrite concat_two_has_slash in Hs.
Qed.

Lemma SplitPath_canon_ext esc canon c :
  delimiter_free esc canon = true → delimiter_free esc c = true →
  (1 <? List.length (SplitPath esc (canon +:+ c)))%nat = false.
Proof.
  intros H1 H2. rewrite SplitPath_clean; [done|].
  unfold delimiter_free. rewrite str_all_app.
  unfold delimiter_free in H1, H2. by rewrite H1, H2.
Qed.

(** *** The substitution loop *)

Lemma weight_app s t : weight (s +:+ t) = (weight s + weight t)%nat.
Proof. induction s as [|c s IH]; simpl; [done|]. rewrite IH. lia. Qed.

Lemma prefix_split pat s :
  String.prefix pat s = true → s = pat +:+ Str.drop (String.length pat) s.
Proof.
  revert s. induction pat as [|c pat IH]; intros s H; simpl; [by destruct s|].
  destruct s as [|d s]; simpl in H; [done|].
  destruct (ascii_dec c d) as [->|]; [|done].
  simpl. f_equal. by apply IH.
Qed.

Lemma take_drop n s : Str.take n s +:+ Str.drop n s = s.
Proof.
  revert s. induction n as [|n IH]; intros s; [done|].
  destruct s as [|c s]; simpl; [done|]. by rewrite IH.
Qed.

Lemma drop_drop n m s : Str.drop n (Str.drop m s) = Str.drop (m + n) s.
Proof.
  revert s. induction m as [|m IH]; intros s; [done|].
  destruct s as [|c s]; simpl; [by destruct n|]. apply IH.
Qed.

Lemma find_split pat s pos :
  Str.find pat s = Some pos →
  s = Str.take pos s +:+ pat +:+ Str.drop (pos + String.length pat) s.
Proof.
  revert pos. induction s as [|c s IH]; intros pos.
  - cbn [Str.find]. destruct (String.prefix pat "") eqn:Hp; [|done].
    intros [= <-]. simpl. by apply prefix_split in Hp.
  - cbn [Str.find]. destruct (String.prefix pat (String c s)) eqn:Hp.
    + intros [= <-]. simpl. by apply prefix_split in Hp.
    + destruct (Str.find pat s) as [n|] eqn:Hf; [|done].
      intros [= <-]. simpl. f_equal. by apply IH.
Qed.

Lemma weight_escape esc : esc ≠ "" → esc ≠ "/" → (2 ≤ weight esc)%nat.
Proof.
  destruct esc as [|c esc]; [done|]. intros _ H. simpl.
  destruct (Ascii.eqb_spec c Str.slash) as [->|]; [|lia].
  destruct esc as [|d esc]; [done|]. simpl.
  destruct (Ascii.eqb d Str.slash); lia.
Qed.

Lemma weight_length s : (weight s ≤ 2 * String.length s)%nat.
Proof.
  induction s as [|c s IH]; simpl; [lia|].
  destruct (Ascii.eqb c Str.slash); lia.
Qed.

Lemma replace_escape_enough esc fuel s :
  esc ≠ "" → esc ≠ "/" → (weight s ≤ fuel)%nat →
  ∃ s', replace_escape fuel esc s = Some s'.
Proof.
  intros He1 He2. revert s. induction fuel as [|fuel IH]; intros s Hw.
  - destruct (Str.find esc s) as [pos|] eqn:Hf.
    + apply find_split in Hf. rewrite Hf in Hw.
      rewrite !weight_app in Hw. pose proof (weight_escape esc He1 He2). lia.
    + exists s. simpl. by rewrite Hf.
  - cbn [replace_escape]. destruct (Str.find esc s) as [pos|] eqn:Hf; [|by exists s].
    apply IH. apply find_split in Hf.
    rewrite Hf in Hw. rewrite !weight_app in Hw. rewrite !weight_app.
    pose proof (weight_escape esc He1 He2). simpl. lia.
Qed.

(** With a sane escape symbol the loop of [FindFile] terminates within
    the bound the embedding gives it. *)
Lemma replace_escape_terminates esc s :
  esc ≠ "" → esc ≠ "/" →
  ∃ s', replace_escape (2 * String.length s) esc s = Some s'.
Proof. intros. apply replace_escape_enough; [done..|]. apply weight_length. Qed.

(** With an empty escape symbol it never terminates: [find("")] is 0. *)
Lemma replace_escape_empty_symbol fuel s : replace_escape fuel "" s = None.
Proof.
  revert s. induction fuel as [|fuel IH]; intros s.
  - by destruct s.
  - cbn [replace_escape]. destruct s; simpl; apply IH.
Qed.

(** ** The program logic *)

Lemma holds_ret strict {A} (a : A) w (Q : A → World → Prop) :
  Q a w → holds strict (ret a) w Q.
Proof. done. Qed.

Lemma holds_bind strict {A B} (m : M A) (k : A → M B) w (Q : B → World → Prop) :
  holds strict m w (λ a w', holds strict (k a) w' Q) →
  holds strict (m ≫= k) w Q.
Proof.
  unfold holds, mbind, M_bind, bind. by destruct (m w).
Qed.

Lemma holds_mono strict {A} (m : M A) w (Q Q' : A → World → Prop) :
  (∀ a w', Q a w' → Q' a w') → holds strict m w Q → holds strict m w Q'.
Proof. unfold holds. intros H. destruct (m w); auto. Qed.

Lemma holds_strict strict {A} (m : M A) w (Q : A → World → Prop) :
  holds true m w Q → holds strict m w Q.
Proof. unfold holds. destruct (m w); [auto | done]. Qed.

Lemma holds_done strict {A} (m : M A) w (Q : A → World → Prop) a w' :
  holds strict m w Q → m w = Done a w' → Q a w'.
Proof. unfold holds. intros H Hm. by rewrite Hm in H. Qed.

Lemma holds_total {A} (m : M A) w (Q : A → World → Prop) :
  holds true m w Q → ∃ a w', m w = Done a w' ∧ Q a w'.
Proof. unfold holds. destruct (m w) as [a w'|f]; [eauto | done]. Qed.

Lemma holds_say_all strict msgs w (Q : unit → World → Prop) :
  Q tt (add_output w msgs) → holds strict (say_all msgs) w Q.
Proof. done. Qed.

Lemma holds_say strict msg w (Q : unit → World → Prop) :
  Q tt (add_output w [msg]) → holds strict (say msg) w Q.
Proof. done. Qed.

Lemma holds_get_rtp strict w (Q : RtpState → World → Prop) :
  Q (rtp_state w) w → holds strict get_rtp w Q.
Proof. done. Qed.

Lemma holds_put_rtp strict st w (Q : unit → World → Prop) :
  Q tt (with_rtp w st) → holds strict (put_rtp st) w Q.
Proof. done. Qed.

Lemma quiet_refl w : quiet w w.
Proof. exists []. by rewrite app_nil_r. Qed.

Lemma quiet_trans w1 w2 w3 : quiet w1 w2 → quiet w2 w3 → quiet w1 w3.
Proof.
  intros (m1 & H1 & F1) (m2 & H2 & F2). exists (m1 ++ m2).
  split; [by rewrite H2, H1, app_assoc | by apply Forall_app].
Qed.

Lemma quiet_add_output w msgs :
  Forall (λ m, level m = LvDebug) msgs → quiet w (add_output w msgs).
Proof. intros H. by exists msgs. Qed.

Lemma quiet_with_rtp w st : quiet w (with_rtp w st).
Proof. exists []. simpl. by rewrite app_nil_r. Qed.

Lemma MakeCanonical_run_debug esc path d :
  Forall (λ m, level m = LvDebug) (MakeCanonical_run esc path d).2.
Proof.
  rewrite MakeCanonical_run_fold. cbv zeta. cbn [snd].
  induction (CanonSpec.clamped _) as [|n IH]; simpl; by constructor.
Qed.

(** ** Lookups preserve an invariant and miss quietly *)

Section GenericTree.

Context (E : Env) (strict : bool) (Inv : World → Prop).
Context (cb : string → string → M string).

Hypothesis sane : strict = true → sane_escape E.
Hypothesis Inv_output : ∀ w msgs, Inv w → Inv (add_output w msgs).

Lemma FindDefault_tree_name_post tree canon c w :
  delimiter_free (escape_symbol E) canon = true →
  delimiter_free (escape_symbol E) c = true ∨ callback_ok strict Inv cb →
  Inv w →
  holds strict (FindDefault_tree_name E cb tree (canon +:+ c)) w (lookup_post Inv w).
Proof.
  intros Hcanon Hc HI. unfold FindDefault_tree_name.
  destruct (1 <? _)%nat eqn:Hlen.
  - destruct Hc as [Hc|Hcb].
    + by rewrite SplitPath_canon_ext in Hlen.
    + by apply Hcb.
  - destruct (files tree !! _); apply holds_ret; (split; [done|]); intros _;
      apply quiet_refl.
Qed.

Lemma find_default_exts_post tree canon exts w :
  delimiter_free (escape_symbol E) canon = true →
  exts_plain E exts ∨ callback_ok strict Inv cb →
  Inv w →
  holds strict (find_default_exts E cb tree canon exts) w (lookup_post Inv w).
Proof.
  intros Hcanon Hc. revert w. induction exts as [|c exts IH]; intros w HI.
  - apply holds_ret. split; [done|]. intros _. apply quiet_refl.
  - cbn [find_default_exts]. apply holds_bind.
    eapply holds_mono; [|apply FindDefault_tree_name_post; try done].
    + intros r w1 [HI1 Hq1]. cbv beta.
      destruct (Str.is_empty r) eqn:Hr.
      * apply is_empty_true in Hr. subst r.
        eapply holds_mono; [|apply IH; [|done]].
        -- intros r w2 [HI2 Hq2]. split; [done|]. intros Hr.
           eapply quiet_trans; [by apply Hq1 | by apply Hq2].
        -- destruct Hc as [Hc|Hc]; [left | by right].
           by apply Forall_cons in Hc as [_ ?].
      * apply holds_ret. split; [done|]. intros ->. done.
    + destruct Hc as [Hc|Hc]; [left | by right].
      by apply Forall_cons in Hc as [? _].
Qed.

Lemma lookup_members_post tree dir name exts w :
  (strict = true → tree_ok tree) → Inv w →
  holds strict (lookup_members E tree dir name exts) w (lookup_post Inv w).
Proof.
  intros Hok HI. unfold lookup_members.
  destruct (replace_escape _ _ _) as [name'|] eqn:Hrep.
  - destruct (directories tree !! dir) as [d|] eqn:Hd.
    + destruct (sub_members tree !! dir) as [m|] eqn:Hm.
      * destruct (first_ext_hit _ _ _); apply holds_ret; (split; [done|]);
          intros _; apply quiet_refl.
      * unfold holds, crash. destruct strict; [|done].
        destruct (Hok eq_refl dir) as [? Hsome]; [by eexists|]. congruence.
    + apply holds_ret. split; [done|]. intros _. apply quiet_refl.
  - unfold holds, crash. destruct strict; [|done].
    destruct (sane eq_refl) as [H1 H2].
    destruct (replace_escape_terminates (escape_symbol E) name H1 H2) as [? Hx].
    congruence.
Qed.

Lemma FindFile_in_tree_post tree dir name exts translate w :
  (strict = true → tree_ok tree) →
  exts_plain E exts ∨ callback_ok strict Inv cb →
  Inv w →
  holds strict (FindFile_in_tree E cb tree dir name exts translate) w
    (lookup_post Inv w).
Proof.
  intros Hok Hc HI. unfold FindFile_in_tree.
  destruct (translate && _).
  { apply holds_ret. split; [done|]. intros _. apply quiet_refl. }
  set (corrected_dir := Normalize E _).
  set (corrected_name := Normalize E _).
  set (combined := MakePath _ _).
  pose proof (MakeCanonical_run_debug (escape_symbol E) combined 1) as Hdbg.
  pose proof (canon_without_slash (escape_symbol E) combined 1) as Hcanon.
  destruct (MakeCanonical_run (escape_symbol E) combined 1) as [canon out].
  cbn [fst snd] in *.
  apply holds_bind. apply holds_say_all.
  assert (∀ m : M string,
    holds strict m (add_output w out) (lookup_post Inv (add_output w out)) →
    holds strict m (add_output w out) (lookup_post Inv w)) as Hshift.
  { intros m. apply holds_mono. intros r w' [HI' Hq]. split; [done|].
    intros Hr. eapply quiet_trans; [by apply quiet_add_output | by apply Hq]. }
  apply Hshift.
  destruct (negb _).
  - destruct (Str.find_first_of Str.slash canon) eqn:Hpos.
    + apply lookup_members_post; auto.
    + apply find_default_exts_post; auto.
  - apply lookup_members_post; auto.
Qed.

Lemma search_in_paths_post paths dir name exts w :
  (strict = true → Forall tree_ok paths) →
  exts_plain E exts ∨ callback_ok strict Inv cb →
  Inv w →
  holds strict (search_in_paths E cb paths dir name exts) w (lookup_post Inv w).
Proof.
  intros Hok Hc. revert w. induction paths as [|path paths IH]; intros w HI.
  - apply holds_ret. split; [done|]. intros _. apply quiet_refl.
  - cbn [search_in_paths]. apply holds_bind.
    eapply holds_mono; [|apply FindFile_in_tree_post; try done].
    + intros r w1 [HI1 Hq1]. cbv beta.
      destruct (Str.is_empty r) eqn:Hr; cbn [negb].
      * apply is_empty_true in Hr. subst r.
        eapply holds_mono; [|apply IH; [|done]].
        -- intros r w2 [HI2 Hq2]. split; [done|]. intros Hr.
           eapply quiet_trans; [by apply Hq1 | by apply Hq2].
        -- intros Hs. specialize (Hok Hs). by apply Forall_cons in Hok as [_ ?].
      * apply holds_ret. split; [done|]. intros ->. done.
    + intros Hs. specialize (Hok Hs). by apply Forall_cons in Hok as [? _].
Qed.

End GenericTree.

(** With extensions that hold no path delimiter a lookup in a tree does
    not re-enter: it leaves the state as it is but for the log. *)
Lemma FindFile_in_tree_plain E cb tree dir name exts translate w :
  exts_plain E exts →
  holds false (FindFile_in_tree E cb tree dir name exts translate) w
    (λ _ w', ∃ msgs, w' = add_output w msgs).
Proof.
  intros Hplain.
  eapply holds_mono;
    [|apply (FindFile_in_tree_post E false (λ w', ∃ msgs, w' = add_output w msgs) cb
               ltac:(done))].
  - by intros r w' [? _].
  - intros w1 msgs [msgs0 ->]. exists (msgs0 ++ msgs).
    unfold add_output. simpl. by rewrite app_assoc.
  - done.
  - by left.
  - exists []. unfold add_output. rewrite app_nil_r. by destruct w.
Qed.

Lemma holds_and strict {A} (m : M A) w (Q1 Q2 : A → World → Prop) :
  holds strict m w Q1 → holds false m w Q2 →
  holds strict m w (λ a w', Q1 a w' ∧ Q2 a w').
Proof. unfold holds. by destruct (m w). Qed.

Lemma holds_get_game_rtp_writes strict w (Q : nat → World → Prop) :
  Q (game_rtp_writes w) w → holds strict get_game_rtp_writes w Q.
Proof. done. Qed.

Section Generic.

Context (E : Env) (strict : bool) (Inv : World → Prop).
Context (cb : string → string → M string).

Hypothesis sane : strict = true → sane_escape E.
Hypothesis Inv_output : ∀ w msgs, Inv w → Inv (add_output w msgs).
Hypothesis Inv_ok : strict = true → ∀ w, Inv w → world_ok w.

(** What the loops over [game_rtp] need of the extensions: no nested
    lookup at all, or partial correctness. *)
Lemma loop_tree_case exts :
  exts_plain E exts ∨ (strict = false ∧ callback_ok strict Inv cb) →
  exts_plain E exts ∨ callback_ok strict Inv cb.
Proof. intros [?|[_ ?]]; [by left | by right]. Qed.

Lemma normal_search_post dir name exts w :
  exts_plain E exts ∨ callback_ok strict Inv cb →
  Inv w →
  holds strict (normal_search E cb dir name exts) w
    (λ p w', Inv w' ∧ (p.1 = "" → quiet w w') ∧ p.2 = false).
Proof.
  intros Hc HI. unfold normal_search.
  apply holds_bind, holds_get_rtp, holds_bind.
  eapply holds_mono; [|apply search_in_paths_post; try done].
  - intros r w1 [HI1 Hq1]. by apply holds_ret.
  - intros Hs. by destruct (Inv_ok Hs w HI) as (_ & ? & _).
Qed.

Lemma search_variants_post rtp dir name exts variants flag w :
  (strict = true → tree_ok (hit_tree rtp)) →
  exts_plain E exts ∨ (strict = false ∧ callback_ok strict Inv cb) →
  Inv w →
  holds strict (search_variants E cb rtp dir name exts variants flag) w
    (λ p w', Inv w' ∧ (p.1 = None → quiet w w') ∧ (∀ r, p.1 = Some r → r ≠ "")).
Proof.
  intros Hok Hc. revert flag w.
  induction variants as [|v variants IH]; intros flag w HI.
  - apply holds_ret. split; [done|]. split; [intros _; apply quiet_refl | done].
  - cbn [search_variants].
    destruct (LookupRtpToRtp E dir name v (hit_type rtp) flag) as [entry flag'].
    destruct (Str.is_empty entry); cbn [negb]; [by apply IH|].
    apply holds_bind, holds_get_game_rtp_writes, holds_bind.
    assert (holds strict
              (FindFile_in_tree E cb (hit_tree rtp) dir entry exts false) w
              (λ r w1, lookup_post Inv w r w1
                       ∧ (strict = true → game_rtp_writes w1 = game_rtp_writes w)))
      as Hfind.
    { destruct Hc as [Hplain|[Hs Hcb]].
      - eapply holds_mono;
          [|apply holds_and;
            [apply (FindFile_in_tree_post E strict Inv cb sane Inv_output
                      (hit_tree rtp) dir entry exts false w Hok (or_introl Hplain) HI)
            |apply (FindFile_in_tree_plain E cb _ dir entry exts false w Hplain)]].
        intros r w1 [Hpost [msgs ->]]. by split.
      - eapply holds_mono;
          [|apply (FindFile_in_tree_post E strict Inv cb sane Inv_output
                     (hit_tree rtp) dir entry exts false w Hok (or_intror Hcb) HI)].
        intros r w1 Hpost. split; [done|]. congruence. }
    eapply holds_mono; [|exact Hfind].
    intros r w1 [[HI1 Hq1] Hw1]. cbv beta.
    destruct (Str.is_empty r) eqn:Hr; cbn [negb].
    + apply is_empty_true in Hr. subst r.
      apply holds_bind, holds_get_game_rtp_writes.
      destruct (Nat.eqb_spec (game_rtp_writes w1) (game_rtp_writes w)) as [_|Hne].
      * eapply holds_mono; [|by apply IH].
        intros p w2 (HI2 & Hq2 & Hne). split; [done|]. split; [|done].
        intros Hp. eapply quiet_trans; [by apply Hq1 | by apply Hq2].
      * unfold holds, crash. destruct strict; [|done]. by specialize (Hw1 eq_refl).
    + apply holds_ret. split; [done|]. split; [done|].
      intros r' [= <-]. by apply is_empty_false.
Qed.

Lemma search_detected_post detected dir name exts flag w :
  (strict = true → Forall (λ h, tree_ok (hit_tree h)) detected) →
  exts_plain E exts ∨ (strict = false ∧ callback_ok strict Inv cb) →
  Inv w →
  holds strict (search_detected E cb detected dir name exts flag) w
    (λ p w', Inv w' ∧ (p.1 = None → quiet w w') ∧ (∀ r, p.1 = Some r → r ≠ "")).
Proof.
  intros Hok Hc. revert flag w.
  induction detected as [|rtp detected IH]; intros flag w HI.
  - apply holds_ret. split; [done|]. split; [intros _; apply quiet_refl | done].
  - cbn [search_detected]. apply holds_bind, holds_get_rtp, holds_bind.
    eapply holds_mono; [|apply search_variants_post; try done].
    + intros [hit flag'] w1 (HI1 & Hq1 & Hne1). cbn [fst] in *.
      destruct hit as [r|].
      * apply holds_ret. split; [done|]. split; [done|]. apply Hne1.
      * eapply holds_mono; [|apply IH; [|done]].
        -- intros p w2 (HI2 & Hq2 & Hne). split; [done|]. split; [|done].
           intros Hp. eapply quiet_trans; [by apply Hq1 | by apply Hq2].
        -- intros Hs. specialize (Hok Hs). by apply Forall_cons in Hok as [_ ?].
    + intros Hs. specialize (Hok Hs). by apply Forall_cons in Hok as [? _].
Qed.

Lemma search_rtp_post dir name exts flag w :
  exts_plain E exts ∨ (strict = false ∧ callback_ok strict Inv cb) →
  Inv w →
  holds strict (search_rtp E cb dir name exts flag) w
    (λ p w', Inv w' ∧ (p.1 = "" → quiet w w') ∧ (p.2 = true → p.1 ≠ "")).
Proof.
  intros Hc HI. unfold search_rtp. apply holds_bind, holds_get_rtp.
  assert (∀ w0 w1, quiet w0 w1 → Inv w1 →
    holds strict (normal_search E cb dir name exts) w1
      (λ p w', Inv w' ∧ (p.1 = "" → quiet w0 w') ∧ (p.2 = true → p.1 ≠ ""))) as Hnormal.
  { intros w0 w1 Hq HI1.
    eapply holds_mono; [|apply normal_search_post; [by apply loop_tree_case|done]].
    intros [r b] w' (HI' & Hq' & Hb). cbn [fst snd] in *. subst b.
    split; [done|]. split; [|done].
    intros Hr. eapply quiet_trans; [done | by apply Hq']. }
  destruct (bool_decide _).
  - apply Hnormal; [apply quiet_refl | done].
  - apply holds_bind.
    eapply holds_mono; [|apply search_detected_post; try done].
    + intros [hit flag'] w1 (HI1 & Hq1 & Hne1). cbn [fst] in *.
      destruct hit as [r|].
      * apply holds_ret. split; [done|]. cbn [fst snd].
        split; [|intros _; by apply Hne1].
        intros ->. by specialize (Hne1 "" eq_refl).
      * apply Hnormal; [by apply Hq1 | done].
    + intros Hs. by destruct (Inv_ok Hs w HI) as (_ & _ & ?).
Qed.

Hypothesis Inv_detect : ∀ d n w, Inv w →
  holds true (detect_game_rtp E d n) w (λ _ w', Inv w' ∧ quiet w w').

Lemma rtp_lookup_post dir name exts flag w :
  exts_plain E exts ∨ (strict = false ∧ callback_ok strict Inv cb) →
  Inv w →
  holds strict (rtp_lookup E cb dir name exts flag) w
    (λ p w', Inv w' ∧ (p.1 = "" → quiet w w') ∧ (p.2 = true → p.1 ≠ "")).
Proof.
  intros Hc HI. unfold rtp_lookup. apply holds_bind.
  eapply holds_mono; [|apply holds_strict, Inv_detect; done].
  intros _ w1 [HI1 Hq1]. cbv beta.
  eapply holds_mono; [|by apply search_rtp_post].
  intros p w2 (HI2 & Hq2 & Hb). split; [done|]. split; [|done].
  intros Hp. eapply quiet_trans; [done | by apply Hq2].
Qed.

Hypothesis Inv_latch : ∀ w, Inv w → Inv (with_rtp w (set_warning_shown (rtp_state w))).

Lemma report_rtp_post dir name r is_rtp_asset w :
  (is_rtp_asset = true → r ≠ "") → Inv w →
  holds strict (report_rtp E dir name r is_rtp_asset) w
    (λ _ w', Inv w' ∧ (r = "" → quiet w w')).
Proof.
  intros Hr HI. unfold report_rtp.
  destruct is_rtp_asset.
  - specialize (Hr eq_refl). apply is_empty_false in Hr as He. rewrite He.
    apply holds_bind, holds_get_rtp. cbn [negb andb].
    destruct (_ && _ && _).
    + apply holds_bind, holds_put_rtp, holds_say. split; [|done].
      apply Inv_output. by apply Inv_latch.
    + by apply holds_ret.
  - apply holds_ret. split; [done|]. intros _. apply quiet_refl.
Qed.

Lemma FindFile_body_miss dir name exts tryTranslate w :
  exts_plain E exts ∨ callback_ok strict Inv cb →
  (strict = true →
   exts_plain E exts ∨ ∀ w, Inv w → disable_rtp (rtp_state w) = true) →
  Inv w →
  holds strict (FindFile_body E cb dir name exts tryTranslate) w
    (λ r w', Inv w' ∧ (r = "" → ∃ msgs,
                          output w' = output w ++ msgs ++ [DbgCannotFind dir name]
                          ∧ Forall (λ m, level m = LvDebug) msgs)).
Proof.
  intros Hc Hrtp HI. unfold FindFile_body. apply holds_bind.
  unfold holds at 1, deref_game_tree.
  destruct (game_directory_tree w) as [tree|] eqn:Htree; cycle 1.
  { destruct strict eqn:Hs; [|done].
    destruct (Inv_ok eq_refl w HI) as ((t & ? & _) & _). congruence. }
  assert (strict = true → tree_ok tree) as Hok.
  { intros Hs. destruct (Inv_ok Hs w HI) as ((t & Ht & Hok) & _).
    rewrite Htree in Ht. by injection Ht as <-. }
  apply holds_bind.
  assert (holds strict
            (if tryTranslate then FindFile_in_tree E cb tree dir name exts true
             else ret "") w (lookup_post Inv w)) as H1.
  { destruct tryTranslate; [by apply FindFile_in_tree_post|].
    apply holds_ret. split; [done|]. intros _. apply quiet_refl. }
  eapply holds_mono; [|exact H1]. clear H1.
  intros r1 w1 [HI1 Hq1]. cbv beta.
  destruct (Str.is_empty r1) eqn:Hr1; cbn [negb]; cycle 1.
  { apply holds_ret. split; [done|]. intros ->. done. }
  apply is_empty_true in Hr1. subst r1. specialize (Hq1 eq_refl).
  apply holds_bind.
  eapply holds_mono; [|by apply FindFile_in_tree_post].
  intros r2 w2 [HI2 Hq2]. cbv beta.
  destruct (Str.is_empty r2) eqn:Hr2; cbn [negb]; cycle 1.
  { apply holds_ret. split; [done|]. intros ->. done. }
  apply is_empty_true in Hr2. subst r2. specialize (Hq2 eq_refl).
  assert (quiet w w2) as Hq by (by eapply quiet_trans).
  unfold rtp_stage. apply holds_bind, holds_get_rtp, holds_bind.
  assert (∀ r w3, Inv w3 → (r = "" → quiet w w3) →
    holds strict
      ((if Str.is_empty r then say (DbgCannotFind dir name) else ret tt) ≫= λ _, ret r)
      w3 (λ r w', Inv w' ∧ (r = "" → ∃ msgs,
                          output w' = output w ++ msgs ++ [DbgCannotFind dir name]
                          ∧ Forall (λ m, level m = LvDebug) msgs))) as Hlast.
  { intros r w3 HI3 Hq3. apply holds_bind.
    destruct (Str.is_empty r) eqn:Hr.
    - apply is_empty_true in Hr. subst r.
      apply holds_say, holds_ret. split; [by apply Inv_output|]. intros _.
      destruct (Hq3 eq_refl) as (msgs & Hout & Hdbg). exists msgs.
      split; [|done]. simpl. by rewrite Hout, app_assoc.
    - apply holds_ret, holds_ret. split; [done|]. intros ->. done. }
  destruct (disable_rtp (rtp_state w2)) eqn:Hdis; cbn [negb].
  - apply holds_ret. by apply Hlast.
  - assert (exts_plain E exts ∨ (strict = false ∧ callback_ok strict Inv cb))
      as Hloop.
    { destruct Hc as [?|Hcb]; [by left|].
      destruct strict eqn:Hs; [|by right].
      destruct (Hrtp eq_refl) as [?|Hoff]; [by left|].
      rewrite (Hoff w2 HI2) in Hdis. done. }
    apply holds_bind.
    eapply holds_mono; [|by apply rtp_lookup_post].
    intros [r b] w3 (HI3 & Hq3 & Hb). cbn [fst snd] in *.
    apply holds_bind.
    eapply holds_mono; [|by apply report_rtp_post].
    intros _ w4 [HI4 Hq4]. apply holds_ret. apply Hlast; [done|].
    intros Hr. eapply quiet_trans; [done|].
    eapply quiet_trans; [by apply Hq3 | by apply Hq4].
Qed.

Lemma FindFile_body_post dir name exts tryTranslate w :
  exts_plain E exts ∨ callback_ok strict Inv cb →
  (strict = true →
   exts_plain E exts ∨ ∀ w, Inv w → disable_rtp (rtp_state w) = true) →
  Inv w →
  holds strict (FindFile_body E cb dir name exts tryTranslate) w (lookup_post Inv w).
Proof.
  intros Hc Hrtp HI. eapply holds_mono; [|by apply FindFile_body_miss].
  intros r w' [HI' Hmiss]. split; [done|]. intros Hr.
  destruct (Hmiss Hr) as (msgs & Hout & Hdbg).
  exists (msgs ++ [DbgCannotFind dir name]). split; [done|].
  apply Forall_app. split; [done|]. by repeat constructor.
Qed.

End Generic.

(** ** The two levels of the recursion *)

Lemma no_exts_plain E : exts_plain E no_exts.
Proof. by repeat constructor. Qed.

Section TopLevel.

Context (E : Env) (strict : bool) (Inv : World → Prop).

Hypothesis sane : strict = true → sane_escape E.
Hypothesis Inv_output : ∀ w msgs, Inv w → Inv (add_output w msgs).
Hypothesis Inv_ok : strict = true → ∀ w, Inv w → world_ok w.
Hypothesis Inv_detect : ∀ d n w, Inv w →
  holds true (detect_game_rtp E d n) w (λ _ w', Inv w' ∧ quiet w w').
Hypothesis Inv_latch : ∀ w, Inv w → Inv (with_rtp w (set_warning_shown (rtp_state w))).

(** The re-entered lookup runs with [no_exts] and never re-enters. *)
Lemma FindDefault_dir_name_ok : callback_ok strict Inv (FindDefault_dir_name E).
Proof.
  intros d n w HI. unfold FindDefault_dir_name.
  apply FindFile_body_post; auto.
  - left. apply no_exts_plain.
  - intros _. left. apply no_exts_plain.
Qed.

Lemma FindFile_post dir name exts tryTranslate w :
  (strict = true →
   exts_plain E exts ∨ ∀ w, Inv w → disable_rtp (rtp_state w) = true) →
  Inv w →
  holds strict (FindFile E dir name exts tryTranslate) w (lookup_post Inv w).
Proof.
  intros Hrtp HI. apply FindFile_body_post; auto. right. apply FindDefault_dir_name_ok.
Qed.

Lemma FindFile_miss dir name exts tryTranslate w :
  (strict = true →
   exts_plain E exts ∨ ∀ w, Inv w → disable_rtp (rtp_state w) = true) →
  Inv w →
  holds strict (FindFile E dir name exts tryTranslate) w
    (λ r w', Inv w' ∧ (r = "" → ∃ msgs,
                          output w' = output w ++ msgs ++ [DbgCannotFind dir name]
                          ∧ Forall (λ m, level m = LvDebug) msgs)).
Proof.
  intros Hrtp HI. apply FindFile_body_miss; auto. right. apply FindDefault_dir_name_ok.
Qed.

Lemma FindFile_tree_post tree dir name exts translate w :
  (strict = true → tree_ok tree) → Inv w →
  holds strict (FindFile_tree E tree dir name exts translate) w (lookup_post Inv w).
Proof.
  intros Hok HI. apply FindFile_in_tree_post; auto.
  right. apply FindDefault_dir_name_ok.
Qed.

Lemma rtp_lookup_top_post dir name exts flag w :
  (strict = true → exts_plain E exts) →
  Inv w →
  holds strict (rtp_lookup_top E dir name exts flag) w
    (λ p w', Inv w' ∧ (p.1 = "" → quiet w w') ∧ (p.2 = true → p.1 ≠ "")).
Proof.
  intros Hplain HI. apply rtp_lookup_post; auto.
  destruct (Bool.bool_dec strict true) as [Hs|Hs]; [left; by apply Hplain|].
  right. split; [by apply not_true_is_false|]. apply FindDefault_dir_name_ok.
Qed.

End TopLevel.

(** ** What the narrowing step does to the world *)

Lemma with_rtp_same w : with_rtp w (rtp_state w) = w.
Proof. by destruct w. Qed.

Lemma set_game_rtp_same st : set_game_rtp st (game_rtp st) = st.
Proof. by destruct st. Qed.

Lemma add_output_nil w : add_output w [] = w.
Proof. destruct w. unfold add_output. simpl. by rewrite app_nil_r. Qed.

Lemma add_output_add_output w m1 m2 :
  add_output (add_output w m1) m2 = add_output w (m1 ++ m2).
Proof. unfold add_output. simpl. by rewrite app_assoc. Qed.

Lemma with_writes_same w : with_writes w (game_rtp_writes w) = w.
Proof. by destruct w. Qed.

Lemma quiet_narrowed w st n msgs :
  Forall (λ m, level m = LvDebug) msgs →
  quiet w (add_output (with_writes (with_rtp w st) n) msgs).
Proof. intros H. by exists msgs. Qed.

(** [detect_game_rtp] never faults; it replaces [game_rtp] by [narrowed],
    counts a write if that changes the vector, and logs at most one debug
    line. *)
Lemma detect_game_rtp_effect E dir name w :
  ∃ msgs,
    detect_game_rtp E dir name w
    = Done tt (add_output
                 (with_writes
                    (with_rtp w (set_game_rtp (rtp_state w)
                                   (narrowed E dir name (game_rtp (rtp_state w)))))
                    (narrowed_writes E dir name (game_rtp (rtp_state w))
                       (game_rtp_writes w)))
                 msgs)
    ∧ Forall (λ m, level m = LvDebug) msgs.
Proof.
  unfold detect_game_rtp, narrowed_writes, narrowed.
  unfold mbind, M_bind, bind, get_rtp.
  destruct (decide (List.length (game_rtp (rtp_state w)) = 1%nat)) as [Hlen|Hlen].
  - rewrite Hlen. simpl. exists []. rewrite bool_decide_eq_true_2 by done.
    by rewrite set_game_rtp_same, with_rtp_same, with_writes_same, add_output_nil.
  - apply Nat.eqb_neq in Hlen. rewrite Hlen. cbn [negb].
    set (candidates := erase_first _ _).
    destruct (decide (candidates = [])) as [Hc|Hc].
    + rewrite bool_decide_eq_true_2 by done. simpl. exists [].
      rewrite bool_decide_eq_true_2 by done.
      by rewrite set_game_rtp_same, with_rtp_same, with_writes_same, add_output_nil.
    + rewrite bool_decide_eq_false_2 by done. cbn [negb].
      unfold put_rtp, touch_game_rtp. cbn [game_rtp set_game_rtp rtp_state with_rtp].
      set (g' := narrow (game_rtp (rtp_state w)) candidates).
      assert (∀ w1 : World,
                (if bool_decide (g' = game_rtp (rtp_state w))
                 then ret tt else touch_game_rtp) w1
                = Done tt (with_writes w1
                             (if bool_decide (g' = game_rtp (rtp_state w))
                              then game_rtp_writes w1 else S (game_rtp_writes w1))))
        as Htouch.
      { intros w1. case_bool_decide; [|done]. unfold ret. by rewrite with_writes_same. }
      unfold touch_game_rtp in Htouch. rewrite Htouch.
      cbn [game_rtp_writes with_rtp].
      destruct g' as [|t [|t' g]].
      * exists []. by rewrite add_output_nil.
      * exists [DbgGameUsesRtp t]. split; [done | by repeat constructor].
      * exists []. by rewrite add_output_nil.
Qed.

Lemma detect_world_ok E d n w :
  world_ok w →
  holds true (detect_game_rtp E d n) w (λ _ w', world_ok w' ∧ quiet w w').
Proof.
  intros Hok. destruct (detect_game_rtp_effect E d n w) as (msgs & Heq & Hdbg).
  unfold holds. rewrite Heq. split; [done|].
  by apply quiet_narrowed.
Qed.

(** ** The flag of [rtp_lookup] *)

Lemma detect_quiet E d n w :
  holds true (detect_game_rtp E d n) w (λ _ w', True ∧ quiet w w').
Proof.
  destruct (detect_game_rtp_effect E d n w) as (msgs & Heq & Hdbg).
  unfold holds. rewrite Heq. split; [done|].
  by apply quiet_narrowed.
Qed.

(** C10. Whatever the arguments, the state and the value [is_rtp_asset]
    holds on entry: when [rtp_lookup] returns, the flag is set only
    together with a non-empty path, and an empty path comes with a cleared
    flag. *)
Theorem rtp_lookup_flag_implies_path E dir name exts flag w r is_rtp_asset w' :
  rtp_lookup_top E dir name exts flag w = Done (r, is_rtp_asset) w' →
  (is_rtp_asset = true → r ≠ "") ∧ (r = "" → is_rtp_asset = false).
Proof.
  intros Hrun.
  assert (is_rtp_asset = true → r ≠ "") as H.
  { pose proof (rtp_lookup_top_post E false (λ _, True)) as Hpost.
    eapply holds_done in Hrun;
      [|apply (Hpost ltac:(done) ltac:(done) ltac:(done)
                 (λ d n w _, detect_quiet E d n w) ltac:(done)); done].
    by destruct Hrun as (_ & _ & ?). }
  split; [done|]. intros ->. destruct is_rtp_asset; [|done].
  by specialize (H eq_refl).
Qed.

Lemma rtp_lookup_flag_implies_path_witness :
  ∃ w', rtp_lookup_top Sample.env "charset" "a" [".png"] false Sample.world
        = Done ("/rtp/CharSet/A.png", true) w'
        ∧ ((true = true → "/rtp/CharSet/A.png" ≠ "")
           ∧ ("/rtp/CharSet/A.png" = "" → true = false)).
Proof.
  eexists. split.
  - vm_compute. reflexivity.
  - eapply (rtp_lookup_flag_implies_path Sample.env "charset" "a" [".png"] false Sample.world).
    vm_compute. reflexivity.
Defined.

(** ** The add-on never enters [game_rtp] *)

Lemma erase_first_NoDup x l : NoDup l → x ∉ erase_first x l.
Proof.
  induction l as [|y l IH]; simpl; [intros _; apply not_elem_of_nil|].
  intros [Hy Hl]%NoDup_cons. destruct (decide (y = x)) as [->|Hne]; [done|].
  apply not_elem_of_cons. split; [done | by apply IH].
Qed.

Lemma narrow_elem x g candidates :
  x ∈ narrow g candidates → x ∈ candidates.
Proof.
  unfold narrow. case_bool_decide; [done|].
  intros [Hx _]%list_elem_of_filter. unfold contains in Hx.
  by apply bool_decide_eq_true in Hx.
Qed.

Lemma narrow_subset x g candidates :
  g ≠ [] → x ∈ narrow g candidates → x ∈ g.
Proof.
  intros Hg. unfold narrow. rewrite bool_decide_eq_false_2 by done.
  by intros [_ H]%list_elem_of_filter.
Qed.

(** While [game_rtp] is not empty a lookup only removes elements. *)
Lemma narrowed_subset E dir name g x :
  g ≠ [] → x ∈ narrowed E dir name g → x ∈ g.
Proof.
  intros Hg. unfold narrowed. repeat case_decide; try done.
  by apply narrow_subset.
Qed.

Lemma narrowed_addon_free E dir name g :
  oracle_is_set E →
  RPG2000_DonMiguelAddon ∉ g →
  RPG2000_DonMiguelAddon ∉ narrowed E dir name g.
Proof.
  intros Hset Hg. unfold narrowed. repeat case_decide; try done.
  intros Hx%narrow_elem. revert Hx. by apply erase_first_NoDup.
Qed.

Lemma detect_addon_free E d n w :
  oracle_is_set E →
  RPG2000_DonMiguelAddon ∉ game_rtp (rtp_state w) →
  holds true (detect_game_rtp E d n) w
    (λ _ w', (RPG2000_DonMiguelAddon ∉ game_rtp (rtp_state w')) ∧ quiet w w').
Proof.
  intros Hset Hw. destruct (detect_game_rtp_effect E d n w) as (msgs & Heq & Hdbg).
  unfold holds. rewrite Heq. split.
  - simpl. by apply narrowed_addon_free.
  - by apply quiet_narrowed.
Qed.

(** C3. In a session of [rtp_lookup] and top-level [FindFile] calls that
    starts without the vendor add-on in [game_rtp] (in particular from the
    empty vector [InitRtpPaths] leaves), [RPG2000_DonMiguelAddon] is in
    [game_rtp] at no point, whatever the oracle lists; the oracle answers
    with a set, as its interface says. *)
Theorem addon_never_in_game_rtp E w0 w :
  oracle_is_set E →
  RPG2000_DonMiguelAddon ∉ game_rtp (rtp_state w0) →
  reachable E w0 w →
  RPG2000_DonMiguelAddon ∉ game_rtp (rtp_state w).
Proof.
  intros Hset H0 Hreach.
  set (Inv := λ w : World, RPG2000_DonMiguelAddon ∉ game_rtp (rtp_state w)).
  induction Hreach as [|w q r w' _ IH Hrun|w dir name exts tr r w' _ IH Hrun]; [done| |].
  - eapply holds_done in Hrun;
      [|apply (rtp_lookup_top_post E false Inv ltac:(done) ltac:(done) ltac:(done)
                 (λ d n w, detect_addon_free E d n w Hset) ltac:(done));
         [done | exact IH]].
    by destruct Hrun as (? & _).
  - eapply holds_done in Hrun;
      [|apply (FindFile_post E false Inv ltac:(done) ltac:(done) ltac:(done)
                 (λ d n w, detect_addon_free E d n w Hset) ltac:(done));
         [done | exact IH]].
    by destruct Hrun as (? & _).
Qed.

Lemma sample_oracle_is_set : oracle_is_set Sample.env.
Proof.
  intros dir name version. simpl. unfold Sample.any_to_rtp.
  repeat match goal with
         | |- context [if ?b then _ else _] => destruct b
         end;
    by apply (bool_decide_unpack _).
Qed.

Lemma addon_never_in_game_rtp_witness :
  oracle_is_set Sample.env
  ∧ (RPG2000_DonMiguelAddon ∉ game_rtp (rtp_state Sample.world))
  ∧ ∃ w, reachable Sample.env Sample.world w
         ∧ game_rtp (rtp_state w) = [Sample.V 2]
         ∧ (RPG2000_DonMiguelAddon ∉ game_rtp (rtp_state w)).
Proof.
  split; [apply sample_oracle_is_set|].
  split; [apply not_elem_of_nil|].
  assert (∃ w, reachable Sample.env Sample.world w
               ∧ game_rtp (rtp_state w) = [Sample.V 2]) as (w & Hreach & Hg).
  { eexists. split.
    - eapply (reach_lookup _ _ _
                {| req_dir := "charset"; req_name := "b";
                   req_exts := IMG_TYPES; req_flag := false |}).
      + eapply (reach_lookup _ _ _
                  {| req_dir := "charset"; req_name := "a";
                     req_exts := IMG_TYPES; req_flag := false |});
          [apply reach_start | vm_compute; reflexivity].
      + vm_compute. reflexivity.
    - reflexivity. }
  exists w. split; [done|]. split; [done|].
  apply (addon_never_in_game_rtp Sample.env Sample.world w);
    [apply sample_oracle_is_set | apply not_elem_of_nil | done].
Defined.

(** ** The order of the top-level lookup *)

Lemma is_empty_neq r : r ≠ "" → Str.is_empty r = false.
Proof. apply is_empty_false. Qed.

Lemma first_ext_hit_first (m : gmap string string) name pre c post n :
  (∀ c', c' ∈ pre → m !! (name +:+ c') = None) →
  m !! (name +:+ c) = Some n →
  first_ext_hit m name (pre ++ c :: post) = Some n.
Proof.
  intros Hpre Hc. induction pre as [|c0 pre IH]; simpl.
  - by rewrite Hc.
  - rewrite (Hpre c0) by (by left). apply IH. intros c' Hin. apply Hpre. by right.
Qed.

Lemma replace_escape_absent fuel esc s :
  Str.find esc s = None → replace_escape fuel esc s = Some s.
Proof. intros H. destruct fuel; simpl; by rewrite H. Qed.

(** A request that needs no path correction: the first extension of the
    list under which the directory's member map has the name wins. *)
Lemma FindFile_tree_first_extension (E : Env) (tree : DirectoryTree) (dir name : string)
    (translate : bool) (pre : list string) (c : string) (post : list string)
    (d : string) (mp : gmap string string) (n : string) (w : World) :
  let corrected_dir :=
    Normalize E (if translate then GetTranslationDir E else dir) in
  let corrected_name :=
    Normalize E (if translate
                 then MakePath (MakePath (GetCurrentTranslationId E) dir) name
                 else name) in
  let combined_path := MakePath corrected_dir corrected_name in
  (translate = true → GetCurrentTranslationId E ≠ "") →
  MakeCanonical_run (escape_symbol E) combined_path 1 = (combined_path, []) →
  Str.find (escape_symbol E) corrected_name = None →
  directories tree !! corrected_dir = Some d →
  sub_members tree !! corrected_dir = Some mp →
  (∀ c', c' ∈ pre → mp !! (corrected_name +:+ c') = None) →
  mp !! (corrected_name +:+ c) = Some n →
  FindFile_tree E tree dir name (pre ++ c :: post) translate w
  = Done (MakePath (directory_path tree +:+ "/" +:+ d) n) w.
Proof.
  intros cdir cname combined Hid Hcanon Hfind Hd Hm Hpre Hc.
  unfold FindFile_tree, FindFile_in_tree.
  replace (translate && Str.is_empty (GetCurrentTranslationId E)) with false; cycle 1.
  { symmetry. destruct translate; [|done]. apply is_empty_false. by apply Hid. }
  fold cdir cname combined. rewrite Hcanon.
  unfold mbind, M_bind, bind, say_all. rewrite add_output_nil.
  rewrite String.eqb_refl. cbn [negb].
  unfold lookup_members. rewrite replace_escape_absent by done.
  rewrite Hd, Hm. by rewrite (first_ext_hit_first mp cname pre c post n).
Qed.

Lemma bind_ext {A B} (m m' : M A) (k k' : A → M B) w :
  m w = m' w → (∀ a w1, k a w1 = k' a w1) → (m ≫= k) w = (m' ≫= k') w.
Proof.
  intros Hm Hk. unfold mbind, M_bind, bind. rewrite Hm.
  destruct (m' w); [apply Hk | done].
Qed.

(** *** The code against the algorithm of the specification *)

Lemma member_path_nonempty b d o :
  Str.is_empty (MakePath (b +:+ "/" +:+ d) o) = false.
Proof.
  apply is_empty_false. rewrite MakePath_nonempty_dir.
  - intros [_ H]%string_app_eq_nil. by apply string_app_eq_nil in H as [H _].
  - intros [_ H]%string_app_eq_nil. by apply string_app_eq_nil in H as [H _].
Qed.

(** First match wins, spelled out: the result is empty when every attempt
    missed, and otherwise it is the result of the first attempt that did
    not miss, made in the state the misses before it left; no later
    attempt is made. *)
Lemma first_match_missed {A} (attempt : A → M string) cands w r w' :
  LookupSpec.first_match attempt cands w = Done r w' ↔
  (r = "" ∧ LookupSpec.missed attempt cands w w')
  ∨ (r ≠ "" ∧ ∃ pre c post w1,
       cands = pre ++ c :: post
       ∧ LookupSpec.missed attempt pre w w1
       ∧ attempt c w1 = Done r w').
Proof.
  revert w. induction cands as [|c0 rest IH]; intros w.
  - cbn [LookupSpec.first_match]. split.
    + intros [= <- <-]. left. split; [done | constructor].
    + intros [[-> Hm]|(_ & pre & c & post & w1 & Heq & _)].
      * by inversion Hm.
      * by destruct pre.
  - cbn [LookupSpec.first_match]. unfold mbind, M_bind, bind.
    destruct (attempt c0 w) as [r0 w0|f] eqn:Hfirst.
    + destruct (Str.is_empty r0) eqn:Hr0.
      * apply is_empty_true in Hr0 as ->. rewrite IH. split.
        -- intros [[-> Hm]|(Hr & pre & c & post & w1 & -> & Hm & Hc)].
           ++ left. split; [done|]. by econstructor.
           ++ right. split; [done|]. exists (c0 :: pre), c, post, w1.
              split; [done|]. split; [by econstructor | done].
        -- intros [[-> Hm]|(Hr & pre & c & post & w1 & Heq & Hm & Hc)].
           ++ left. split; [done|]. inversion Hm; subst. congruence.
           ++ destruct pre as [|c1 pre].
              ** injection Heq as <- <-. inversion Hm; subst. congruence.
              ** injection Heq as <- ->. right. split; [done|].
                 exists pre, c, post, w1. split; [done|]. split; [|done].
                 inversion Hm; subst. congruence.
      * apply is_empty_false in Hr0. unfold ret. split.
        -- intros [= <- <-]. right. split; [done|].
           exists [], c0, rest, w. split; [done|]. split; [constructor | done].
        -- intros [[-> Hm]|(Hr & pre & c & post & w1 & Heq & Hm & Hc)].
           ++ inversion Hm; subst. congruence.
           ++ destruct pre as [|c1 pre].
              ** injection Heq as <- <-. inversion Hm; subst. congruence.
              ** injection Heq as <- ->. inversion Hm; subst. congruence.
    + split; [done|].
      intros [[-> Hm]|(Hr & pre & c & post & w1 & Heq & Hm & Hc)].
      * inversion Hm; subst. congruence.
      * destruct pre as [|c1 pre].
        -- injection Heq as <- <-. inversion Hm; subst. congruence.
        -- injection Heq as <- ->. inversion Hm; subst. congruence.
Qed.

Lemma find_default_exts_first_match E cb tree canon exts w :
  find_default_exts E cb tree canon exts w
  = LookupSpec.first_match (λ c, FindDefault_tree_name E cb tree (canon +:+ c)) exts w.
Proof.
  revert w. induction exts as [|c exts IH]; intros w; [done|].
  cbn [find_default_exts LookupSpec.first_match]. apply bind_ext; [done|].
  intros r w1. destruct (Str.is_empty r); [apply IH | done].
Qed.

Lemma first_match_nowhere {A} (l : list A) w :
  LookupSpec.first_match (λ _, ret "") l w = Done "" w.
Proof. induction l as [|c l IH]; [done|]. exact IH. Qed.

Lemma lookup_members_resolve E tree corrected_dir corrected_name exts w :
  lookup_members E tree corrected_dir corrected_name exts w
  = (place ← LookupSpec.member_place E tree corrected_dir corrected_name;
     LookupSpec.first_match (LookupSpec.attempt E tree place) exts) w.
Proof.
  unfold lookup_members, LookupSpec.member_place, mbind, M_bind, bind.
  destruct (replace_escape _ _ _) as [key|]; [|done].
  destruct (directories tree !! corrected_dir) as [d|];
    [|symmetry; apply first_match_nowhere].
  destruct (sub_members tree !! corrected_dir) as [mp|]; [|done].
  unfold ret. induction exts as [|c exts IH]; [done|].
  cbn [first_ext_hit LookupSpec.first_match LookupSpec.attempt].
  unfold mbind, M_bind, bind, ret.
  destruct (mp !! (key +:+ c)) as [o|].
  - by rewrite member_path_nonempty.
  - exact IH.
Qed.

(** [FindFile(tree, ...)] is the index lookup of the specification. *)
Lemma FindFile_tree_resolve E tree dir name exts translate w :
  FindFile_tree E tree dir name exts translate w
  = if translate && Str.is_empty (GetCurrentTranslationId E) then Done "" w
    else LookupSpec.resolve_in_index E tree dir name exts translate w.
Proof.
  unfold FindFile_tree, FindFile_in_tree, LookupSpec.resolve_in_index,
    LookupSpec.prepare.
  destruct (translate && _); [done|].
  destruct (MakeCanonical_run _ _ _) as [canon out].
  unfold mbind, M_bind, bind, say_all.
  destruct (negb _).
  - destruct (Str.find_first_of Str.slash canon) as [pos|].
    + rewrite lookup_members_resolve. reflexivity.
    + apply find_default_exts_first_match.
  - rewrite lookup_members_resolve. reflexivity.
Qed.

Lemma rtp_stage_resolve E tree dir name exts r0 w :
  Str.is_empty r0 = true →
  rtp_stage_top E dir name exts r0 w
  = (r ← LookupSpec.first_match (LookupSpec.run_stage E tree dir name exts)
           [LookupSpec.Rtp];
     (if Str.is_empty r then say (DbgCannotFind dir name) else ret tt);;
     ret r) w.
Proof.
  intros ->%is_empty_true.
  unfold rtp_stage_top, rtp_stage. cbn [LookupSpec.first_match LookupSpec.run_stage].
  change (rtp_lookup E (FindDefault_dir_name E)) with (rtp_lookup_top E).
  unfold mbind, M_bind, bind, get_rtp, ret.
  destruct (disable_rtp (rtp_state w)); [done|]. cbn [negb].
  destruct (rtp_lookup_top E _ _ exts _ w) as [[r b] w1|f]; [|done].
  destruct (report_rtp E dir name r b w1) as [[] w2|f]; [|done].
  destruct (Str.is_empty r) eqn:Hr; [|by rewrite Hr].
  by apply is_empty_true in Hr as ->.
Qed.

Lemma project_stage_resolve E tree dir name exts w :
  (r ← FindFile_tree E tree dir name exts false;
   if negb (Str.is_empty r) then ret r else rtp_stage_top E dir name exts r) w
  = (r ← LookupSpec.first_match (LookupSpec.run_stage E tree dir name exts)
           [LookupSpec.Project; LookupSpec.Rtp];
     (if Str.is_empty r then say (DbgCannotFind dir name) else ret tt);;
     ret r) w.
Proof.
  cbn [LookupSpec.first_match]. unfold mbind, M_bind, bind.
  change (LookupSpec.run_stage E tree dir name exts LookupSpec.Project w)
    with (LookupSpec.resolve_in_index E tree dir name exts false w).
  rewrite (FindFile_tree_resolve E tree dir name exts false w). cbn [andb].
  destruct (LookupSpec.resolve_in_index E tree dir name exts false w) as [r w1|f];
    [|done].
  destruct (Str.is_empty r) eqn:Hr; cbn [negb].
  - rewrite (rtp_stage_resolve E tree) by done. reflexivity.
  - unfold ret. by rewrite Hr.
Qed.

(** The top-level [FindFile] is the algorithm of the specification. *)
Lemma FindFile_resolve E dir name exts tryTranslate w :
  FindFile E dir name exts tryTranslate w
  = LookupSpec.resolve E dir name exts tryTranslate w.
Proof.
  unfold FindFile, FindFile_body, LookupSpec.resolve.
  apply bind_ext; [done|]. intros tree w0.
  change (FindFile_in_tree E (FindDefault_dir_name E)) with (FindFile_tree E).
  change (rtp_stage E (FindDefault_dir_name E)) with (rtp_stage_top E).
  unfold LookupSpec.stages.
  destruct tryTranslate; cbn [andb app]; [|apply project_stage_resolve].
  unfold mbind at 1, M_bind at 1, bind at 1.
  rewrite (FindFile_tree_resolve E tree dir name exts true w0). cbn [andb].
  destruct (Str.is_empty (GetCurrentTranslationId E)); cbn [negb app].
  { apply project_stage_resolve. }
  destruct (LookupSpec.resolve_in_index E tree dir name exts true w0) as [r w1|f]
    eqn:Hoverlay.
  - destruct (Str.is_empty r) eqn:Hr; cbn [negb].
    + rewrite project_stage_resolve.
      cbn [LookupSpec.first_match]. unfold mbind, M_bind, bind.
      change (LookupSpec.run_stage E tree dir name exts LookupSpec.Overlay w0)
        with (LookupSpec.resolve_in_index E tree dir name exts true w0).
      rewrite Hoverlay. by rewrite Hr.
    + cbn [LookupSpec.first_match]. unfold mbind, M_bind, bind.
      change (LookupSpec.run_stage E tree dir name exts LookupSpec.Overlay w0)
        with (LookupSpec.resolve_in_index E tree dir name exts true w0).
      rewrite Hoverlay, Hr. unfold ret. cbn beta iota. by rewrite Hr.
  - cbn [LookupSpec.first_match]. unfold mbind, M_bind, bind.
    change (LookupSpec.run_stage E tree dir name exts LookupSpec.Overlay w0)
      with (LookupSpec.resolve_in_index E tree dir name exts true w0).
    by rewrite Hoverlay.
Qed.

(** C7. For every directory, name, extension list and state with a game
    tree:
    - the top-level [FindFile] consults, in this order, the translation
      overlay (only when asked to and a translation is active), the game's
      own tree, and the RTP lookup (only when RTP is not disabled); each
      stage gets the same extension list, the first non-empty result is
      returned, and a call that returns the empty string has added debug
      lines only, the last of them [Cannot find];
    - the top-level [FindFile] is the algorithm as the specification words
      it ([LookupSpec.resolve]), and it returns a result exactly when the
      stages before the winning one were run in order and missed and the
      winning stage gave that result, or all of them missed;
    - the lookup in an index is the index lookup of the specification
      ([LookupSpec.resolve_in_index]) for every name, path-corrected or
      not: it returns a result exactly when, at the place the prepared
      name leads to, the extensions before the winning one were tried in
      the order of the list and missed and the winning one gave that
      result, or all of them missed;
    - for a name that needs no correction, the first extension of the
      list under which the directory's member map has the name gives the
      result. *)
Theorem FindFile_lookup_order (E : Env) (dir name : string) (exts : list string)
    (tryTranslate : bool) (w : World) (tree : DirectoryTree) :
  game_directory_tree w = Some tree →
  let overlay :=
    if tryTranslate then FindFile_tree E tree dir name exts true else ret "" in
  (tryTranslate = false ∨ GetCurrentTranslationId E = "" →
     FindFile E dir name exts tryTranslate w = FindFile E dir name exts false w)
  ∧ (∀ r w1, overlay w = Done r w1 → r ≠ "" →
       FindFile E dir name exts tryTranslate w = Done r w1)
  ∧ (∀ w1 r w2,
       overlay w = Done "" w1 →
       FindFile_tree E tree dir name exts false w1 = Done r w2 → r ≠ "" →
       FindFile E dir name exts tryTranslate w = Done r w2)
  ∧ (∀ w1 w2,
       overlay w = Done "" w1 →
       FindFile_tree E tree dir name exts false w1 = Done "" w2 →
       disable_rtp (rtp_state w2) = true →
       FindFile E dir name exts tryTranslate w
       = Done "" (add_output w2 [DbgCannotFind dir name]))
  ∧ (∀ w1 w2 r is_rtp_asset w3,
       overlay w = Done "" w1 →
       FindFile_tree E tree dir name exts false w1 = Done "" w2 →
       disable_rtp (rtp_state w2) = false →
       rtp_lookup_top E (Normalize E dir) (Normalize E name) exts (indeterminate E) w2
       = Done (r, is_rtp_asset) w3 →
       ∃ w4, FindFile E dir name exts tryTranslate w = Done r w4)
  ∧ (∀ w', FindFile E dir name exts tryTranslate w = Done "" w' →
       ∃ msgs, output w' = output w ++ msgs ++ [DbgCannotFind dir name]
               ∧ Forall (λ m, level m = LvDebug) msgs)
  ∧ (∀ (translate : bool) pre c post d mp n w0,
       let corrected_dir :=
         Normalize E (if translate then GetTranslationDir E else dir) in
       let corrected_name :=
         Normalize E (if translate
                      then MakePath (MakePath (GetCurrentTranslationId E) dir) name
                      else name) in
       let combined_path := MakePath corrected_dir corrected_name in
       (translate = true → GetCurrentTranslationId E ≠ "") →
       MakeCanonical_run (escape_symbol E) combined_path 1 = (combined_path, []) →
       Str.find (escape_symbol E) corrected_name = None →
       directories tree !! corrected_dir = Some d →
       sub_members tree !! corrected_dir = Some mp →
       (∀ c', c' ∈ pre → mp !! (corrected_name +:+ c') = None) →
       mp !! (corrected_name +:+ c) = Some n →
       FindFile_tree E tree dir name (pre ++ c :: post) translate w0
       = Done (MakePath (directory_path tree +:+ "/" +:+ d) n) w0)
  ∧ FindFile E dir name exts tryTranslate w
    = LookupSpec.resolve E dir name exts tryTranslate w
  ∧ (∀ t (translate : bool) w0,
       FindFile_tree E t dir name exts translate w0
       = if translate && Str.is_empty (GetCurrentTranslationId E) then Done "" w0
         else LookupSpec.resolve_in_index E t dir name exts translate w0)
  ∧ (∀ r w',
       FindFile E dir name exts tryTranslate w = Done r w' ↔
       (r = ""
        ∧ ∃ w1, LookupSpec.missed (LookupSpec.run_stage E tree dir name exts)
                  (LookupSpec.stages E tryTranslate) w w1
                ∧ w' = add_output w1 [DbgCannotFind dir name])
       ∨ (r ≠ ""
          ∧ ∃ pre stage post w1,
              LookupSpec.stages E tryTranslate = pre ++ stage :: post
              ∧ LookupSpec.missed (LookupSpec.run_stage E tree dir name exts) pre w w1
              ∧ LookupSpec.run_stage E tree dir name exts stage w1 = Done r w'))
  ∧ (∀ t (translate : bool) w0 r w',
       (translate = true → GetCurrentTranslationId E ≠ "") →
       FindFile_tree E t dir name exts translate w0 = Done r w' ↔
       ∃ place w1,
         LookupSpec.prepare E t dir name translate w0 = Done place w1
         ∧ ((r = "" ∧ LookupSpec.missed (LookupSpec.attempt E t place) exts w1 w')
            ∨ (r ≠ ""
               ∧ ∃ pre c post w2,
                   exts = pre ++ c :: post
                   ∧ LookupSpec.missed (LookupSpec.attempt E t place) pre w1 w2
                   ∧ LookupSpec.attempt E t place c w2 = Done r w'))).
Proof.
  intros Htree overlay.
  assert (∀ tr : bool,
    FindFile E dir name exts tr w
    = match (if tr then FindFile_tree E tree dir name exts true else ret "") w with
      | Done r w1 =>
          if negb (Str.is_empty r) then Done r w1
          else match FindFile_tree E tree dir name exts false w1 with
               | Done r w2 =>
                   if negb (Str.is_empty r) then Done r w2
                   else rtp_stage_top E dir name exts "" w2
               | Crash f => Crash f
               end
      | Crash f => Crash f
      end) as Hunfold.
  { intros tr. unfold FindFile, FindFile_body at 1.
    unfold mbind at 1, M_bind at 1, bind at 1, deref_game_tree. rewrite Htree.
    unfold mbind at 1, M_bind at 1, bind at 1.
    change (FindFile_in_tree E (FindDefault_dir_name E) tree dir name exts true)
      with (FindFile_tree E tree dir name exts true).
    destruct ((if tr then FindFile_tree E tree dir name exts true
               else ret "") w) as [r w1|f]; [|done].
    destruct (negb (Str.is_empty r)); [done|].
    unfold mbind at 1, M_bind at 1, bind at 1.
    change (FindFile_in_tree E (FindDefault_dir_name E) tree dir name exts false)
      with (FindFile_tree E tree dir name exts false).
    destruct (FindFile_tree E tree dir name exts false w1) as [r2 w2|f]; [|done].
    destruct (negb (Str.is_empty r2)) eqn:Hr2; [done|].
    apply negb_false_iff, is_empty_true in Hr2. by subst r2. }
  pose proof (Hunfold false) as Hfalse.
  specialize (Hunfold tryTranslate). fold overlay in Hunfold.
  repeat match goal with |- _ ∧ _ => split end.
  - intros [->|Hid]; [done|]. rewrite Hunfold, Hfalse. unfold overlay.
    destruct tryTranslate; [|done].
    unfold FindFile_tree at 1, FindFile_in_tree. by rewrite Hid.
  - intros r w1 Ho Hr. rewrite Hunfold, Ho. by rewrite is_empty_neq.
  - intros w1 r w2 Ho Ht Hr. rewrite Hunfold, Ho. simpl. rewrite Ht.
    by rewrite is_empty_neq.
  - intros w1 w2 Ho Ht Hd. rewrite Hunfold, Ho. simpl. rewrite Ht. simpl.
    unfold rtp_stage_top, rtp_stage, mbind, M_bind, bind, get_rtp. by rewrite Hd.
  - intros w1 w2 r b w3 Ho Ht Hd Hrtp. rewrite Hunfold, Ho. simpl. rewrite Ht. simpl.
    unfold rtp_stage_top, rtp_stage.
    unfold mbind, M_bind, bind, get_rtp. rewrite Hd. cbn [negb].
    change (rtp_lookup E (FindDefault_dir_name E)) with (rtp_lookup_top E).
    rewrite Hrtp.
    destruct (report_rtp E dir name r b w3) as [[] w4|f] eqn:Hrun.
    + unfold ret. destruct (Str.is_empty r); simpl; eauto.
    + exfalso. unfold report_rtp in Hrun.
      destruct b; [|done].
      unfold mbind, M_bind, bind, get_rtp in Hrun.
      repeat match type of Hrun with
             | (if ?c then _ else _) _ = _ => destruct c
             end; done.
  - intros w' Hrun.
    pose proof (FindFile_miss E false (λ _, True) ltac:(done) ltac:(done) ltac:(done)
                  (λ d n w _, detect_quiet E d n w) ltac:(done)
                  dir name exts tryTranslate w ltac:(done) I) as Hmiss.
    eapply holds_done in Hmiss; [|exact Hrun]. by destruct Hmiss as [_ ?]; auto.
  - intros translate pre c post d mp n w0 cdir cname combined.
    by apply FindFile_tree_first_extension.
  - apply FindFile_resolve.
  - intros t translate w0. apply FindFile_tree_resolve.
  - intros r w'. rewrite FindFile_resolve.
    unfold LookupSpec.resolve, mbind, M_bind, bind, deref_game_tree.
    rewrite Htree.
    pose proof (first_match_missed (LookupSpec.run_stage E tree dir name exts)
                  (LookupSpec.stages E tryTranslate) w) as Hlaw.
    destruct (LookupSpec.first_match _ _ w) as [r1 w1|f].
    + destruct (Str.is_empty r1) eqn:Hr1.
      * apply is_empty_true in Hr1 as ->. unfold say, say_all, ret. split.
        -- intros [= <- <-]. left. split; [done|]. exists w1. split; [|done].
           destruct (proj1 (Hlaw "" w1) eq_refl) as [[_ ?]|[? _]]; done.
        -- intros [[-> (w2 & Hm & ->)]|(Hr & pre & stage & post & w2 & Heq & Hm & Hs)].
           ++ assert (Done "" w1 = Done "" w2) as [= ->]; [|done].
              apply Hlaw. left. by split.
           ++ assert (Done "" w1 = Done r w') as [= <- _]; [|done].
              apply Hlaw. right. split; [done|]. by exists pre, stage, post, w2.
      * apply is_empty_false in Hr1. unfold ret. split.
        -- intros [= <- <-]. right. split; [done|].
           destruct (proj1 (Hlaw r1 w1) eq_refl) as [[? _]|[_ ?]]; done.
        -- intros [[-> (w2 & Hm & ->)]|(Hr & pre & stage & post & w2 & Heq & Hm & Hs)].
           ++ assert (Done r1 w1 = Done "" w2) as [= -> _]; [|done].
              apply Hlaw. left. by split.
           ++ apply Hlaw. right. split; [done|]. by exists pre, stage, post, w2.
    + split; [done|].
      intros [[-> (w2 & Hm & ->)]|(Hr & pre & stage & post & w2 & Heq & Hm & Hs)].
      * assert (Crash f = Done "" w2) as [=]. apply Hlaw. left. by split.
      * assert (Crash f = Done r w') as [=]. apply Hlaw. right. split; [done|].
        by exists pre, stage, post, w2.
  - intros t translate w0 r w' Hid. rewrite FindFile_tree_resolve.
    replace (translate && Str.is_empty (GetCurrentTranslationId E)) with false; cycle 1.
    { symmetry. destruct translate; [|done]. apply is_empty_false. by apply Hid. }
    unfold LookupSpec.resolve_in_index, mbind, M_bind, bind.
    destruct (LookupSpec.prepare E t dir name translate w0) as [place w1|f].
    + rewrite first_match_missed. split.
      * intros H. by exists place, w1.
      * by intros (? & ? & [= <- <-] & H).
    + split; [done|]. by intros (? & ? & [=] & _).
Qed.

Lemma FindFile_lookup_order_witness :
  game_directory_tree Sample.world_de = Some Sample.game_tree_de
  ∧ returned (FindFile Sample.env_de "Picture" "title" IMG_TYPES true Sample.world_de)
    = Some "/game/Language/de/Picture/Title.png"
  ∧ returned (FindFile Sample.env_de "Picture" "logo" IMG_TYPES true Sample.world_de)
    = Some "/game/Picture/Logo.png"
  ∧ (∃ w4, FindFile Sample.env_de "CharSet" "a" IMG_TYPES true Sample.world_de
           = Done "/rtp/CharSet/A.png" w4)
  ∧ (∀ w', FindFile Sample.env_de "Picture" "none" IMG_TYPES true Sample.world_de
           = Done "" w' →
       ∃ msgs, output w' = output Sample.world_de ++ msgs ++ [DbgCannotFind "Picture" "none"]
               ∧ Forall (λ m, level m = LvDebug) msgs)
  ∧ FindFile_tree Sample.env_de Sample.game_tree_de "Picture" "logo"
      ([".bmp"] ++ ".png" :: [".xyz"]) false Sample.world_de
    = Done "/game/Picture/Logo.png" Sample.world_de
  ∧ returned (LookupSpec.resolve Sample.env_de "Picture" "title" IMG_TYPES true
                Sample.world_de)
    = Some "/game/Language/de/Picture/Title.png"
  ∧ returned (LookupSpec.resolve_in_index Sample.env_de Sample.game_tree_de
                "Picture" "../rpg_rt" [".bmp"; ".ini"; ".ldb"] false Sample.world_de)
    = Some "/game/RPG_RT.ldb"
  ∧ (∀ r w',
       FindFile_tree Sample.env_de Sample.game_tree_de "Picture" "../rpg_rt"
         [".bmp"; ".ini"; ".ldb"] false Sample.world_de = Done r w' ↔
       ∃ place w1,
         LookupSpec.prepare Sample.env_de Sample.game_tree_de "Picture" "../rpg_rt"
           false Sample.world_de = Done place w1
         ∧ ((r = ""
             ∧ LookupSpec.missed
                 (LookupSpec.attempt Sample.env_de Sample.game_tree_de place)
                 [".bmp"; ".ini"; ".ldb"] w1 w')
            ∨ (r ≠ ""
               ∧ ∃ pre c post w2,
                   [".bmp"; ".ini"; ".ldb"] = pre ++ c :: post
                   ∧ LookupSpec.missed
                       (LookupSpec.attempt Sample.env_de Sample.game_tree_de place)
                       pre w1 w2
                   ∧ LookupSpec.attempt Sample.env_de Sample.game_tree_de place c w2
                     = Done r w'))).
Proof.
  split; [reflexivity|].
  split; [|split; [|split; [|split; [|split; [|split; [|split]]]]]].
  - destruct (FindFile_lookup_order Sample.env_de "Picture" "title" IMG_TYPES true
                Sample.world_de Sample.game_tree_de eq_refl) as (_ & H & _).
    erewrite H; [reflexivity | vm_compute; reflexivity | done].
  - destruct (FindFile_lookup_order Sample.env_de "Picture" "logo" IMG_TYPES true
                Sample.world_de Sample.game_tree_de eq_refl) as (_ & _ & H & _).
    erewrite H; [reflexivity | vm_compute; reflexivity | vm_compute; reflexivity | done].
  - destruct (FindFile_lookup_order Sample.env_de "CharSet" "a" IMG_TYPES true
                Sample.world_de Sample.game_tree_de eq_refl) as (_ & _ & _ & _ & H & _).
    eapply H; [vm_compute; reflexivity | vm_compute; reflexivity | reflexivity
              | vm_compute; reflexivity].
  - destruct (FindFile_lookup_order Sample.env_de "Picture" "none" IMG_TYPES true
                Sample.world_de Sample.game_tree_de eq_refl)
      as (_ & _ & _ & _ & _ & H & _).
    exact H.
  - destruct (FindFile_lookup_order Sample.env_de "Picture" "logo" IMG_TYPES true
                Sample.world_de Sample.game_tree_de eq_refl)
      as (_ & _ & _ & _ & _ & _ & H & _).
    apply (H false [".bmp"] ".png" [".xyz"] "Picture"
             {[ "title.png" := "Title.png"; "logo.png" := "Logo.png" ]} "Logo.png");
      [done | reflexivity | reflexivity | reflexivity | reflexivity | | reflexivity].
    intros c' ->%list_elem_of_singleton. reflexivity.
  - destruct (FindFile_lookup_order Sample.env_de "Picture" "title" IMG_TYPES true
                Sample.world_de Sample.game_tree_de eq_refl)
      as (_ & _ & _ & _ & _ & _ & _ & H & _).
    rewrite <- H. vm_compute. reflexivity.
  - destruct (FindFile_lookup_order Sample.env_de "Picture" "../rpg_rt"
                [".bmp"; ".ini"; ".ldb"] true
                Sample.world_de Sample.game_tree_de eq_refl)
      as (_ & _ & _ & _ & _ & _ & _ & _ & H & _).
    specialize (H Sample.game_tree_de false Sample.world_de). cbn [andb] in H.
    rewrite <- H. vm_compute. reflexivity.
  - destruct (FindFile_lookup_order Sample.env_de "Picture" "../rpg_rt"
                [".bmp"; ".ini"; ".ldb"] true
                Sample.world_de Sample.game_tree_de eq_refl)
      as (_ & _ & _ & _ & _ & _ & _ & _ & _ & _ & H).
    intros r w'. by apply H.
Defined.

(** ** Narrowing and the order of the requests *)

(** With plain extensions a lookup changes the state by [narrowed] and
    nothing else but the log. *)
Lemma rtp_lookup_top_plain E dir name exts flag w :
  sane_escape E → world_ok w → exts_plain E exts →
  ∃ p msgs,
    rtp_lookup_top E dir name exts flag w
    = Done p (add_output
                (with_writes
                   (with_rtp w (set_game_rtp (rtp_state w)
                                  (narrowed E dir name (game_rtp (rtp_state w)))))
                   (narrowed_writes E dir name (game_rtp (rtp_state w))
                      (game_rtp_writes w)))
                msgs).
Proof.
  intros Hsane Hok Hplain.
  destruct (detect_game_rtp_effect E dir name w) as (msgs0 & Heq & _).
  set (w1 := add_output _ msgs0) in Heq.
  pose proof (search_rtp_post E true (λ w', ∃ msgs, w' = add_output w1 msgs)
                (FindDefault_dir_name E)) as Hpost.
  specialize (Hpost (λ _, Hsane)).
  destruct (holds_total _ _ _
              (Hpost ltac:(intros ? m (m' & ->); exists (m' ++ m);
                           apply add_output_add_output)
                     ltac:(intros _ ? (m' & ->); exact Hok)
                     dir name exts flag w1 (or_introl Hplain)
                     ltac:(exists []; by rewrite add_output_nil)))
    as (p & w' & Hrun & (msgs & ->) & _).
  exists p, (msgs0 ++ msgs).
  unfold rtp_lookup_top, rtp_lookup, mbind, M_bind, bind.
  rewrite Heq. fold w1. rewrite Hrun. unfold w1. by rewrite add_output_add_output.
Qed.

Lemma lookup_session_cons E q rest w p w' :
  rtp_lookup_top E (req_dir q) (req_name q) (req_exts q) (req_flag q) w = Done p w' →
  returned (lookup_session E (q :: rest) w)
  = (λ later, game_rtp (rtp_state w') :: later) <$> returned (lookup_session E rest w').
Proof.
  intros Hrun. cbn [lookup_session]. unfold mbind, M_bind, bind, get_rtp.
  rewrite Hrun. by destruct (lookup_session E rest w').
Qed.

Lemma erase_first_absent x l : x ∉ l → erase_first x l = l.
Proof.
  induction l as [|y l IH]; [done|]. intros [Hy Hl]%not_elem_of_cons.
  simpl. rewrite decide_False by done. by rewrite IH.
Qed.

Lemma narrow_two (V1 V2 V3 : RtpType) cA cB :
  cA ≡ₚ [V1; V2] → cB ≡ₚ [V2; V3] →
  V1 ≠ V2 → V2 ≠ V3 → V1 ≠ V3 →
  narrow cA cB = [V2] ∧ narrow cB cA = [V2].
Proof.
  intros HA HB H12 H23 H13.
  assert (∀ x, contains cA x = true ↔ x = V1 ∨ x = V2) as InA.
  { intros x. unfold contains. rewrite bool_decide_eq_true, HA.
    rewrite !elem_of_cons, elem_of_nil. tauto. }
  assert (∀ x, contains cB x = true ↔ x = V2 ∨ x = V3) as InB.
  { intros x. unfold contains. rewrite bool_decide_eq_true, HB.
    rewrite !elem_of_cons, elem_of_nil. tauto. }
  symmetry in HA, HB.
  apply Permutation_length_2_inv in HA, HB.
  unfold narrow.
  destruct HA as [-> | ->], HB as [-> | ->];
    rewrite !bool_decide_eq_false_2 by done;
    repeat (first [ rewrite filter_cons_True by (rewrite ?InA, ?InB; tauto)
                  | rewrite filter_cons_False by (rewrite ?InA, ?InB; intros [?|?]; congruence)
                  | rewrite filter_nil ]);
    done.
Qed.

(** C1. From an empty [game_rtp], when the candidates of asset [A] (the
    add-on set aside) are [V1] and [V2] and those of asset [B] are [V2]
    and [V3], looking up [A] then [B] leaves [game_rtp = [V2]], and so does
    looking up [B] then [A]. *)
Theorem narrowing_order_independent E w0 qA qB (V1 V2 V3 : RtpType) :
  let candidates q :=
    erase_first RPG2000_DonMiguelAddon
      (LookupAnyToRtp E (req_dir q) (req_name q) (EngineVersion E)) in
  sane_escape E → world_ok w0 →
  exts_plain E (req_exts qA) → exts_plain E (req_exts qB) →
  game_rtp (rtp_state w0) = [] →
  candidates qA ≡ₚ [V1; V2] → candidates qB ≡ₚ [V2; V3] →
  V1 ≠ V2 → V2 ≠ V3 → V1 ≠ V3 →
  returned (lookup_session E [qA; qB] w0) = Some [candidates qA; [V2]]
  ∧ returned (lookup_session E [qB; qA] w0) = Some [candidates qB; [V2]].
Proof.
  intros candidates Hsane Hok HpA HpB Hempty HA HB H12 H23 H13.
  destruct (narrow_two V1 V2 V3 _ _ HA HB H12 H23 H13) as [HAB HBA].
  assert (∀ q c, candidates q ≡ₚ c → c ≠ [] → List.length c ≠ 1%nat →
            narrowed E (req_dir q) (req_name q) [] = candidates q
            ∧ ∀ g, List.length g ≠ 1%nat →
                   narrowed E (req_dir q) (req_name q) g = narrow g (candidates q))
    as Hnar.
  { intros q c Hc Hne Hlen.
    assert (candidates q ≠ []) as Hq.
    { intros Hnil. rewrite Hnil in Hc. by apply Permutation_nil_l in Hc. }
    unfold narrowed. fold (candidates q). split.
    - rewrite decide_False by done. by rewrite decide_False.
    - intros g Hg. rewrite decide_False by done. by rewrite decide_False. }
  assert (∀ q c, candidates q ≡ₚ c → List.length c = 2%nat →
            List.length (candidates q) ≠ 1%nat) as Hlen2.
  { intros q c Hc Hl. rewrite (Permutation_length Hc). lia. }
  destruct (Hnar qA [V1; V2] HA ltac:(done) ltac:(done)) as [HA0 HAg].
  destruct (Hnar qB [V2; V3] HB ltac:(done) ltac:(done)) as [HB0 HBg].
  split.
  - destruct (rtp_lookup_top_plain E (req_dir qA) (req_name qA) (req_exts qA)
                (req_flag qA) w0 Hsane Hok HpA) as (p1 & m1 & Hrun1).
    rewrite Hempty, HA0 in Hrun1.
    erewrite lookup_session_cons by exact Hrun1.
    match type of Hrun1 with _ = Done _ ?w => set (w1 := w) in * end.
    destruct (rtp_lookup_top_plain E (req_dir qB) (req_name qB) (req_exts qB)
                (req_flag qB) w1 Hsane Hok HpB) as (p2 & m2 & Hrun2).
    erewrite lookup_session_cons by exact Hrun2.
    simpl. rewrite HBg by (by eapply Hlen2). by rewrite HAB.
  - destruct (rtp_lookup_top_plain E (req_dir qB) (req_name qB) (req_exts qB)
                (req_flag qB) w0 Hsane Hok HpB) as (p1 & m1 & Hrun1).
    rewrite Hempty, HB0 in Hrun1.
    erewrite lookup_session_cons by exact Hrun1.
    match type of Hrun1 with _ = Done _ ?w => set (w1 := w) in * end.
    destruct (rtp_lookup_top_plain E (req_dir qA) (req_name qA) (req_exts qA)
                (req_flag qA) w1 Hsane Hok HpA) as (p2 & m2 & Hrun2).
    erewrite lookup_session_cons by exact Hrun2.
    simpl. rewrite HAg by (by eapply Hlen2). by rewrite HBA.
Qed.

Lemma sample_sane : sane_escape Sample.env.
Proof. by split. Qed.

Lemma sample_game_tree_ok : tree_ok Sample.game_tree.
Proof.
  intros k [d Hd].
  destruct (decide (k = "music")) as [->|?]; [by eexists|].
  destruct (decide (k = "picture")) as [->|?]; [by eexists|].
  unfold Sample.game_tree in Hd. cbn [directories] in Hd.
  rewrite lookup_insert_ne in Hd by done.
  rewrite lookup_singleton_ne in Hd by done. done.
Qed.

Lemma sample_rtp_tree_ok : tree_ok Sample.rtp_tree.
Proof.
  intros k [d Hd].
  destruct (decide (k = "charset")) as [->|?]; [by eexists|].
  unfold Sample.rtp_tree in Hd. cbn [directories] in Hd.
  rewrite lookup_singleton_ne in Hd by done. done.
Qed.

Lemma sample_world_ok : world_ok Sample.world.
Proof.
  split; [|split].
  - exists Sample.game_tree. split; [done | apply sample_game_tree_ok].
  - repeat constructor. apply sample_rtp_tree_ok.
  - repeat constructor. apply sample_rtp_tree_ok.
Qed.

Lemma sample_img_types_plain : exts_plain Sample.env IMG_TYPES.
Proof. by repeat constructor. Qed.

Lemma narrowing_order_independent_witness :
  sane_escape Sample.env ∧ world_ok Sample.world
  ∧ exts_plain Sample.env IMG_TYPES
  ∧ returned (lookup_session Sample.env [Sample.request "a"; Sample.request "b"]
                Sample.world)
    = Some [[Sample.V 1; Sample.V 2]; [Sample.V 2]]
  ∧ returned (lookup_session Sample.env [Sample.request "b"; Sample.request "a"]
                Sample.world)
    = Some [[Sample.V 2; Sample.V 3]; [Sample.V 2]].
Proof.
  split; [apply sample_sane|]. split; [apply sample_world_ok|].
  split; [apply sample_img_types_plain|].
  apply (narrowing_order_independent Sample.env Sample.world
           (Sample.request "a") (Sample.request "b")
           (Sample.V 1) (Sample.V 2) (Sample.V 3));
    [apply sample_sane | apply sample_world_ok
    | apply sample_img_types_plain | apply sample_img_types_plain
    | reflexivity | reflexivity | reflexivity | done | done | done].
Defined.

(** ** After an empty intersection the narrowing starts over *)

(** C2. Evaluated on the sample: asset [a] is in the variants 1 and 2,
    asset [c] in variant 3 only, asset [d] in variant 4 only. The second
    lookup empties [game_rtp]; the third one puts variant 4 into it, which
    was not in the vector before. *)
Theorem narrowing_restarts_after_empty_intersection :
  returned (lookup_session Sample.env
              [Sample.request "a"; Sample.request "c"; Sample.request "d"]
              Sample.world)
  = Some [[Sample.V 1; Sample.V 2]; []; [Sample.V 4]].
Proof. vm_compute. reflexivity. Qed.

(** ** The warning about a missing RTP asset *)

Lemma debug_lines_hold_no_missing_warning msgs :
  Forall (λ m, level m = LvDebug) msgs →
  count_msgs is_missing_warning msgs = 0%nat.
Proof.
  unfold count_msgs. induction 1 as [|m msgs Hm _ IH]; [done|].
  simpl. by destruct m.
Qed.

(** C4, the code against the claim. The warning about a missing RTP
    asset is never logged: over any session of top-level [FindFile] calls
    that all return the empty path, whatever the requests, the oracle and
    the state, the log grows by debug lines only, so the warning is logged
    zero times where the claim has it logged once. The branch that logs
    it (lines 264-268) asks for [is_rtp_asset] together with an empty
    path, and [rtp_lookup] clears the flag on every way to an empty path
    (lines 166-167, 215, 233). *)
Theorem missing_warning_never_logged E reqs w results w' :
  find_session E reqs w = Done results w' →
  Forall (λ r, r = "") results →
  ∃ added,
    output w' = output w ++ added
    ∧ Forall (λ m, level m = LvDebug) added
    ∧ count_msgs is_missing_warning added = 0%nat.
Proof.
  intros Hrun Hall.
  assert (∃ added, output w' = output w ++ added
                   ∧ Forall (λ m, level m = LvDebug) added) as (added & Ho & Hd).
  { revert w results Hrun Hall.
    induction reqs as [|[[dir name] exts] reqs IH]; intros w results Hrun Hall.
    - injection Hrun as _ <-. exists []. by rewrite app_nil_r.
    - cbn [find_session] in Hrun. unfold mbind, M_bind, bind in Hrun.
      destruct (FindFile E dir name exts false w) as [r w1|] eqn:Hfind; [|done].
      destruct (find_session E reqs w1) as [later w2|] eqn:Hrest; [|done].
      injection Hrun as <- <-. apply Forall_cons in Hall as [-> Hlater].
      pose proof (FindFile_miss E false (λ _, True) ltac:(done) ltac:(done) ltac:(done)
                    (λ d n w _, detect_quiet E d n w) ltac:(done)
                    dir name exts false w ltac:(done) I) as Hmiss.
      apply (holds_done _ _ _ _ _ _ Hmiss) in Hfind as [_ Hlog].
      destruct (Hlog eq_refl) as (msgs & Ho1 & Hd1).
      destruct (IH w1 later Hrest Hlater) as (added & Ho2 & Hd2).
      exists (msgs ++ [DbgCannotFind dir name] ++ added). split.
      + rewrite Ho2, Ho1. by rewrite <- !app_assoc.
      + apply Forall_app. split; [done|]. by constructor. }
  exists added. split; [done|]. split; [done|].
  by apply debug_lines_hold_no_missing_warning.
Qed.

Lemma missing_warning_never_logged_witness :
  LookupAnyToRtp Sample.env "charset" "b" (EngineVersion Sample.env)
  = [RPG2000_DonMiguelAddon; Sample.V 2; Sample.V 3]
  ∧ game_has_full_package_flag (rtp_state Sample.world) = false
  ∧ Normalize Sample.env "CharSet" ≠ "music"
  ∧ Normalize Sample.env "CharSet" ≠ "sound"
  ∧ ∃ w', find_session Sample.env
            [("CharSet", "b", IMG_TYPES); ("CharSet", "b", IMG_TYPES)] Sample.world
          = Done [""; ""] w'
          ∧ Forall (λ r, r = "") [""; ""]
          ∧ ∃ added,
              output w' = output Sample.world ++ added
              ∧ Forall (λ m, level m = LvDebug) added
              ∧ count_msgs is_missing_warning added = 0%nat.
Proof.
  split; [reflexivity|]. split; [reflexivity|].
  split; [discriminate|]. split; [discriminate|].
  destruct (find_session Sample.env
              [("CharSet", "b", IMG_TYPES); ("CharSet", "b", IMG_TYPES)] Sample.world)
    as [results w'|f] eqn:Hrun; [|by vm_compute in Hrun].
  assert (Hres : results = [""; ""]).
  { vm_compute in Hrun. by injection Hrun as <- _. }
  subst results. exists w'. split; [reflexivity|].
  assert (Hall : Forall (λ r, r = "") [""; ""]) by (by repeat constructor).
  split; [exact Hall|].
  exact (missing_warning_never_logged Sample.env _ Sample.world _ w' Hrun Hall).
Defined.

(** ** Where a path found in a tree lies *)

Lemma first_ext_hit_Some m name exts n :
  first_ext_hit m name exts = Some n → ∃ k, m !! k = Some n.
Proof.
  induction exts as [|c exts IH]; [done|]. simpl.
  destruct (m !! (name +:+ c)) eqn:Hm; [|done].
  intros [= <-]. eauto.
Qed.

Lemma lookup_members_indexed E tree dir name exts w :
  holds false (lookup_members E tree dir name exts) w
    (λ r _, r = "" ∨ indexed tree r).
Proof.
  unfold lookup_members.
  destruct (replace_escape _ _ _) as [name'|]; [|done].
  destruct (directories tree !! dir) as [d|] eqn:Hd; [|by left].
  destruct (sub_members tree !! dir) as [m|] eqn:Hm; [|done].
  destruct (first_ext_hit m name' exts) as [n|] eqn:Hn; [|by left].
  apply first_ext_hit_Some in Hn as [k' Hk']. right. left.
  by exists dir, d, m, k', n.
Qed.

Lemma find_default_exts_indexed E cb tree canon exts w :
  delimiter_free (escape_symbol E) canon = true →
  exts_plain E exts →
  holds false (find_default_exts E cb tree canon exts) w
    (λ r _, r = "" ∨ indexed tree r).
Proof.
  intros Hcanon Hplain. revert w.
  induction Hplain as [|c exts Hc _ IH]; intros w; [by left|].
  cbn [find_default_exts]. apply holds_bind.
  unfold FindDefault_tree_name. rewrite SplitPath_canon_ext by done.
  destruct (files tree !! _) as [f|] eqn:Hf.
  - apply holds_ret. destruct (Str.is_empty _); [apply IH|].
    apply holds_ret. right. right. eauto.
  - apply holds_ret. apply IH.
Qed.

Lemma FindFile_in_tree_indexed E cb tree dir name exts translate w :
  exts_plain E exts →
  holds false (FindFile_in_tree E cb tree dir name exts translate) w
    (λ r _, r = "" ∨ indexed tree r).
Proof.
  intros Hplain. unfold FindFile_in_tree.
  destruct (translate && _); [by left|].
  set (combined := MakePath _ _).
  pose proof (canon_without_slash (escape_symbol E) combined 1) as Hcanon.
  destruct (MakeCanonical_run (escape_symbol E) combined 1) as [canon out].
  cbn [fst] in Hcanon.
  apply holds_bind, holds_say_all.
  destruct (negb _); [|apply lookup_members_indexed].
  destruct (Str.find_first_of Str.slash canon) eqn:Hpos.
  - apply lookup_members_indexed.
  - apply find_default_exts_indexed; auto.
Qed.

Lemma indexed_lies_under tree r :
  directory_path tree ≠ "" →
  Str.has_char Str.backslash (directory_path tree) = false →
  indexed tree r → lies_under (directory_path tree) r.
Proof.
  intros Hne Hbs [(k & d & m & k' & n & _ & _ & _ & ->)|(k & f & _ & ->)].
  - rewrite MakePath_nonempty_dir.
    + rewrite !replace_char_app. rewrite (replace_char_absent _ _ _ Hbs).
      eexists. rewrite !string_app_assoc. reflexivity.
    + intros H. apply string_app_eq_nil in H as [_ H].
      by apply string_app_eq_nil in H as [? _].
  - rewrite MakePath_nonempty_dir by done.
    rewrite (replace_char_absent _ _ _ Hbs). by eexists.
Qed.

(** C5, counterexample. [MakePath] rewrites the backslash of the base
    path, so a path found in the tree at [/srv/my\game] does not start
    with that base path; and with an extension that holds a slash the
    lookup in the tree at [/rtp] is handed on to [FindDefault(dir, name)],
    which answers from the game's tree. *)
Lemma resolve_outside_base_path :
  (returned (FindFile_tree Sample.env Sample.backslash_tree "Music" "town" [".ogg"]
               false Sample.world) = Some "/srv/my/game/Music/Town.ogg"
   ∧ ¬ lies_under (directory_path Sample.backslash_tree) "/srv/my/game/Music/Town.ogg")
  ∧ (returned (FindFile_tree Sample.env Sample.rtp_tree "charset" "../music"
                 ["/town.ogg"] false Sample.world) = Some "/game/Music/Town.ogg"
     ∧ ¬ lies_under (directory_path Sample.rtp_tree) "/game/Music/Town.ogg").
Proof.
  split; (split; [vm_compute; reflexivity|]); intros [rest H]; vm_compute in H;
    discriminate H.
Qed.

(** C5, amended. For every tree, directory, name and translation flag,
    and every extension list without a path delimiter inside an
    extension: a non-empty path returned by the lookup in a tree is the
    base path of that tree joined by [MakePath] with names stored in the
    index of that tree, never with text of the request; when the base path
    is not empty and holds no backslash the path starts with the base path
    and a slash. *)
Theorem FindFile_tree_contained E tree dir name exts translate w r w' :
  exts_plain E exts →
  FindFile_tree E tree dir name exts translate w = Done r w' →
  r ≠ "" →
  indexed tree r
  ∧ (directory_path tree ≠ "" →
     Str.has_char Str.backslash (directory_path tree) = false →
     lies_under (directory_path tree) r).
Proof.
  intros Hplain Hrun Hr.
  assert (indexed tree r) as Hi.
  { pose proof (FindFile_in_tree_indexed E (FindDefault_dir_name E) tree dir name
                  exts translate w Hplain) as H.
    eapply holds_done in H; [|exact Hrun]. by destruct H. }
  split; [done|]. intros Hne Hbs. by apply indexed_lies_under.
Qed.

Lemma FindFile_tree_contained_witness :
  exts_plain Sample.env IMG_TYPES
  ∧ ∃ w', FindFile_tree Sample.env Sample.game_tree "Picture" "../../secret"
            IMG_TYPES false Sample.world = Done "/game/Secret.png" w'
          ∧ "/game/Secret.png" ≠ ""
          ∧ indexed Sample.game_tree "/game/Secret.png"
          ∧ lies_under (directory_path Sample.game_tree) "/game/Secret.png".
Proof.
  split; [apply sample_img_types_plain|].
  eexists. split; [vm_compute; reflexivity|]. split; [done|].
  edestruct (FindFile_tree_contained Sample.env Sample.game_tree "Picture"
               "../../secret" IMG_TYPES false Sample.world "/game/Secret.png")
    as [Hi Hu]; [apply sample_img_types_plain | vm_compute; reflexivity | done |].
  split; [exact Hi | by apply Hu].
Defined.

(** ** The flat scan *)

Lemma last_with_key_snoc E k l n :
  last_with_key E k (l ++ [n])
  = if same_key E k n then Some n else last_with_key E k l.
Proof.
  unfold last_with_key. rewrite List.filter_app. simpl.
  destruct (same_key E k n); [apply last_snoc | by rewrite app_nil_r].
Qed.

Lemma lookup_insert_key E (mp : gmap string string) k n :
  (<[Normalize E n := n]> mp) !! k = if same_key E k n then Some n else mp !! k.
Proof.
  unfold same_key. rewrite lookup_insert.
  destruct (String.eqb_spec (Normalize E n) k); by case_decide.
Qed.

Lemma is_Some_last_with_key E k l :
  bool_decide (is_Some (last_with_key E k l)) = existsb (same_key E k) l.
Proof.
  induction l as [|x l IH] using rev_ind; [done|].
  rewrite last_with_key_snoc, existsb_app. simpl. rewrite orb_false_r.
  destruct (same_key E k x).
  - rewrite orb_true_r. by apply bool_decide_eq_true_2.
  - by rewrite orb_false_r.
Qed.

Lemma folder_warnings_app E earlier l1 l2 :
  folder_warnings E earlier (l1 ++ l2)
  = folder_warnings E earlier l1 ++ folder_warnings E (earlier ++ l1) l2.
Proof.
  revert earlier. induction l1 as [|n l1 IH]; intros earlier; simpl.
  - by rewrite app_nil_r.
  - rewrite IH. rewrite <- !app_assoc. done.
Qed.

Lemma recorded_cons m want name d cls :
  recorded m want ((name, d) :: cls)
  = (if negb (is_dot name) && keeps m d && Bool.eqb d want then [name] else [])
    ++ recorded m want cls.
Proof.
  unfold recorded. simpl.
  by destruct (negb (is_dot name) && keeps m d && Bool.eqb d want).
Qed.

Lemma entry_is_directory_run E path name type w :
  entry_is_directory E path name type w
  = Done (if next_fast (has_fast_dir_stat w) type then is_directory_type type
          else IsDirectory E (MakePath path name))
         (with_fast_dir_stat w (next_fast (has_fast_dir_stat w) type)).
Proof. destruct w as [st gt [] out], type; reflexivity. Qed.

Lemma recorded_single m want name d :
  recorded m want [(name, d)]
  = if negb (is_dot name) && keeps m d && Bool.eqb d want then [name] else [].
Proof. by rewrite recorded_cons, app_nil_r. Qed.

Section FlatStep.

Context (E : Env) (result : Directory) (w : World) (fast' : bool).
Context (earlier_f earlier_d : list string).

Hypothesis Hf : ∀ k, dir_files result !! k = last_with_key E k earlier_f.
Hypothesis Hd : ∀ k, dir_directories result !! k = last_with_key E k earlier_d.

Lemma scan_skip :
  scan_post E w fast' earlier_f earlier_d [] [] result (with_fast_dir_stat w fast').
Proof.
  unfold scan_post. cbn [folder_warnings]. by rewrite !app_nil_r.
Qed.

Lemma scan_file name :
  ∃ r w', record_entry E result name false (with_fast_dir_stat w fast') = Done r w'
          ∧ scan_post E w fast' earlier_f earlier_d [name] [] r w'.
Proof.
  eexists _, _. split; [reflexivity|].
  unfold scan_post. cbn [folder_warnings]. rewrite !app_nil_r.
  split; [|done]. intros k. simpl.
  by rewrite lookup_insert_key, last_with_key_snoc, Hf.
Qed.

Lemma scan_directory name :
  ∃ r w', record_entry E result name true (with_fast_dir_stat w fast') = Done r w'
          ∧ scan_post E w fast' earlier_f earlier_d [] [name] r w'.
Proof.
  unfold record_entry, mbind, M_bind, bind.
  rewrite Hd, is_Some_last_with_key.
  destruct (existsb _ earlier_d) eqn:Hex; eexists _, _; (split; [reflexivity|]);
    unfold scan_post; cbn [folder_warnings]; rewrite Hex, !app_nil_r; simpl;
    rewrite <- ?app_assoc; (split; [done|]); (split; [|done]); intros k;
    by rewrite lookup_insert_key, last_with_key_snoc, Hd.
Qed.

End FlatStep.

(** One iteration of a flat scan: the entry goes where the mode and its
    kind send it, a directory whose key is taken draws the two warnings, a
    file does not. *)
Lemma scan_entry_flat E recurse path m parent result name type w earlier_f earlier_d :
  m ≠ RECURSIVE →
  (∀ k, dir_files result !! k = last_with_key E k earlier_f) →
  (∀ k, dir_directories result !! k = last_with_key E k earlier_d) →
  let cls := classify E path (has_fast_dir_stat w) [(name, type)] in
  ∃ r w',
    scan_entry E recurse path m parent result name type w = Done r w'
    ∧ scan_post E w (next_fast (has_fast_dir_stat w) type) earlier_f earlier_d
        (recorded m false cls) (recorded m true cls) r w'.
Proof.
  intros Hm Hf Hd cls. subst cls. cbn [classify].
  set (d := if next_fast _ _ then _ else _).
  unfold scan_entry, mbind, M_bind, bind. rewrite entry_is_directory_run. fold d.
  rewrite !recorded_single. unfold is_dot.
  destruct (String.eqb name "." || String.eqb name "..").
  { eexists _, _. split; [reflexivity|]. by apply scan_skip. }
  destruct m; try done; destruct d; cbn [negb andb keeps Bool.eqb];
    first [ by apply scan_file
          | by apply scan_directory
          | eexists _, _; split; [reflexivity|]; by apply scan_skip ].
Qed.

Lemma recorded_app m want l1 l2 :
  recorded m want (l1 ++ l2) = recorded m want l1 ++ recorded m want l2.
Proof. unfold recorded. by rewrite List.filter_app, List.map_app. Qed.

Lemma scan_post_trans E w w1 f1 f2 ef ed nf1 nd1 nf2 nd2 r1 r w' :
  scan_post E w f1 ef ed nf1 nd1 r1 w1 →
  scan_post E w1 f2 (ef ++ nf1) (ed ++ nd1) nf2 nd2 r w' →
  scan_post E w f2 ef ed (nf1 ++ nf2) (nd1 ++ nd2) r w'.
Proof.
  intros (_ & _ & Ho1 & _ & Hr1 & Hg1) (Hf & Hd & Ho & Hfast & Hr & Hg).
  unfold scan_post. rewrite !app_assoc. repeat split; try done.
  - rewrite Ho, Ho1, folder_warnings_app. by rewrite <- !app_assoc.
  - by rewrite Hr.
  - by rewrite Hg.
Qed.

(** A flat scan: every key maps to the last name recorded under it, and
    the log grows by the folder warnings, whatever the recorded files. *)
Lemma scan_entries_flat E recurse path m parent entries :
  m ≠ RECURSIVE →
  ∀ result w earlier_f earlier_d,
    (∀ k, dir_files result !! k = last_with_key E k earlier_f) →
    (∀ k, dir_directories result !! k = last_with_key E k earlier_d) →
    let cls := classify E path (has_fast_dir_stat w) entries in
    ∃ r w' fast',
      scan_entries E recurse path m parent entries result w = Done r w'
      ∧ scan_post E w fast' earlier_f earlier_d
          (recorded m false cls) (recorded m true cls) r w'.
Proof.
  intros Hm. induction entries as [|[name type] entries IH];
    intros result w earlier_f earlier_d Hf Hd cls.
  - exists result, w, (has_fast_dir_stat w). split; [done|].
    unfold scan_post. subst cls. simpl. by rewrite !app_nil_r.
  - destruct (scan_entry_flat E recurse path m parent result name type w
                earlier_f earlier_d Hm Hf Hd) as (r1 & w1 & Hrun1 & Hpost1).
    pose proof Hpost1 as (Hf1 & Hd1 & _ & Hfast1 & _).
    destruct (IH r1 w1 _ _ Hf1 Hd1) as (r & w' & fast' & Hrun & Hpost).
    exists r, w', fast'. split.
    + cbn [scan_entries]. unfold mbind, M_bind, bind. by rewrite Hrun1.
    + subst cls. cbn [classify] in *.
      change (?x :: classify E path ?f entries)
        with ([x] ++ classify E path f entries).
      rewrite !recorded_app. rewrite Hfast1 in Hpost.
      eapply scan_post_trans; [exact Hpost1 | exact Hpost].
Qed.

(** C8, counterexample. The sample directory [/game] holds the two files
    [Title.png] and [title.PNG], which share the key [title.png]. The scan
    in the mode [FILES] keeps the later one and logs nothing; in the mode
    [ALL] the only warnings are those for the two sub-directories [Music]
    and [music]. *)
Lemma file_collision_is_silent :
  (dir_files <$> returned (GetDirectoryMembers Sample.env 1 "/game" FILES "" Sample.world))
    ≫= (λ f, f !! "title.png") = Some "title.PNG"
  ∧ log_of (GetDirectoryMembers Sample.env 1 "/game" FILES "" Sample.world) = []
  ∧ log_of (GetDirectoryMembers Sample.env 1 "/game" ALL "" Sample.world)
    = [WarnFolderTwice "music"; WarnMergeDirectories].
Proof. repeat split; vm_compute; reflexivity. Qed.

(** What a flat scan of an existing, readable directory returns. *)
Lemma flat_scan_records E fuel path m parent w entries :
  m ≠ RECURSIVE →
  Exists E path = true → IsDirectory E path = true →
  ReadDirectory E path = Some entries →
  let cls := classify E path (has_fast_dir_stat w) entries in
  ∃ r w',
    GetDirectoryMembers E (S fuel) path m parent w = Done r w'
    ∧ (∀ k, dir_files r !! k = last_with_key E k (recorded m false cls))
    ∧ (∀ k, dir_directories r !! k = last_with_key E k (recorded m true cls))
    ∧ output w' = output w ++ folder_warnings E [] (recorded m true cls).
Proof.
  intros Hm Hex Hdir Hread cls.
  cbn [GetDirectoryMembers]. unfold GetDirectoryMembers_body.
  unfold mbind, M_bind, bind. rewrite Hex, Hdir, Hread. simpl.
  destruct (scan_entries_flat E (GetDirectoryMembers E fuel) path m parent entries Hm
              {| base := path; dir_files := ∅; dir_directories := ∅ |} w [] [])
    as (r & w' & fast' & Hrun & Hf & Hd & Ho & _); [done..|].
  exists r, w'. by rewrite Hrun.
Qed.

(** C8, amended. A flat scan ([FILES], [DIRECTORIES] or [ALL]) of an
    existing directory never faults. In each of its two maps a key maps to
    the last entry recorded under it (last write wins). A collision is
    reported, by two warning lines, only between directories: for each
    directory whose key an earlier directory of the same scan has. A
    collision between files is overwritten without any diagnostic. *)
Theorem flat_scan_collisions E fuel path m parent w entries :
  m ≠ RECURSIVE →
  Exists E path = true → IsDirectory E path = true →
  ReadDirectory E path = Some entries →
  let cls := classify E path (has_fast_dir_stat w) entries in
  ∃ r w',
    GetDirectoryMembers E (S fuel) path m parent w = Done r w'
    ∧ (∀ k, dir_files r !! k = last_with_key E k (recorded m false cls))
    ∧ (∀ k, dir_directories r !! k = last_with_key E k (recorded m true cls))
    ∧ output w' = output w ++ folder_warnings E [] (recorded m true cls).
Proof. apply flat_scan_records. Qed.

Lemma flat_scan_collisions_witness :
  ALL ≠ RECURSIVE
  ∧ Exists Sample.env "/game" = true ∧ IsDirectory Sample.env "/game" = true
  ∧ ∃ entries, ReadDirectory Sample.env "/game" = Some entries
  ∧ ∃ r w',
      GetDirectoryMembers Sample.env 1 "/game" ALL "" Sample.world = Done r w'
      ∧ dir_files r !! "title.png" = Some "title.PNG"
      ∧ dir_directories r !! "music" = Some "music"
      ∧ output w' = [WarnFolderTwice "music"; WarnMergeDirectories].
Proof.
  split; [done|]. split; [reflexivity|]. split; [reflexivity|].
  eexists. split; [reflexivity|].
  destruct (flat_scan_collisions Sample.env 0 "/game" ALL "" Sample.world _
              ltac:(done) eq_refl eq_refl eq_refl)
    as (r & w' & Hrun & Hf & Hd & Ho).
  exists r, w'. split; [exact Hrun|].
  split; [by rewrite Hf|]. split; [by rewrite Hd | by rewrite Ho].
Defined.

(** ** Totality *)

Lemma flat_scan_total E fuel path m parent w :
  m ≠ RECURSIVE → Exists E path = true → IsDirectory E path = true →
  ∃ r w', GetDirectoryMembers E (S fuel) path m parent w = Done r w'
          ∧ ∀ k n, dir_directories r !! k = Some n →
              ∃ entries, ReadDirectory E path = Some entries
                ∧ n ∈ recorded m true (classify E path (has_fast_dir_stat w) entries).
Proof.
  intros Hm Hex Hdir.
  destruct (ReadDirectory E path) as [entries|] eqn:Hread.
  - destruct (flat_scan_records E fuel path m parent w entries Hm Hex Hdir Hread)
      as (r & w' & Hrun & _ & Hd & _).
    exists r, w'. split; [done|].
    intros k n Hk. exists entries. split; [done|].
    rewrite Hd in Hk. unfold last_with_key in Hk.
    apply last_Some_elem_of in Hk.
    apply list_elem_of_In, List.filter_In in Hk as [Hk _].
    by apply list_elem_of_In.
  - exists {| base := path; dir_files := ∅; dir_directories := ∅ |},
           (add_output w [DbgErrorOpeningDir path]).
    split.
    + cbn [GetDirectoryMembers]. unfold GetDirectoryMembers_body.
      unfold mbind, M_bind, bind. by rewrite Hex, Hdir, Hread.
    + intros k n Hk. simpl in Hk. by rewrite lookup_empty in Hk.
Qed.

Lemma recorded_elem E path m fast entries n :
  n ∈ recorded m true (classify E path fast entries) →
  is_dot n = false
  ∧ ∃ type, (n, type) ∈ entries
            ∧ (type = FtDirectory ∨ IsDirectory E (MakePath path n) = true).
Proof.
  revert fast. induction entries as [|[name type] entries IH]; intros fast.
  - by intros ?%elem_of_nil.
  - cbn [classify]. rewrite recorded_cons.
    intros [Hn|Hn]%elem_of_app.
    + destruct (negb (is_dot name)) eqn:Hdot; [|by apply elem_of_nil in Hn].
      destruct (keeps m _); [|by apply elem_of_nil in Hn].
      cbn [andb] in Hn.
      destruct (if next_fast fast type then _ else _) eqn:Hd;
        [|by apply elem_of_nil in Hn].
      apply list_elem_of_singleton in Hn as ->.
      split; [by apply negb_true_iff|].
      exists type. split; [by left|].
      destruct (next_fast fast type); [left | by right].
      by destruct type.
    + destruct (IH _ Hn) as (Hdot & type' & Hin & Hdir).
      split; [done|]. exists type'. split; [by right | done].
Qed.

(** The recursive scan of a directory whose sub-directories can be
    scanned. *)
Lemma scan_entries_recursive E recurse depth path parent all :
  platform_consistent E depth →
  ReadDirectory E path = Some all →
  (∀ sub parent' w,
     Exists E sub = true → IsDirectory E sub = true →
     (depth sub < depth path)%nat →
     ∃ r w', recurse sub RECURSIVE parent' w = Done r w') →
  ∀ entries result w,
    (∀ e, e ∈ entries → e ∈ all) →
    ∃ r w', scan_entries E recurse path RECURSIVE parent entries result w = Done r w'.
Proof.
  intros Hcons Hread Hrec.
  induction entries as [|[name type] entries IH]; intros result w Hsub.
  - by exists result, w.
  - cbn [scan_entries]. unfold mbind, M_bind, bind.
    assert (∃ r1 w1, scan_entry E recurse path RECURSIVE parent result name type w
                     = Done r1 w1) as (r1 & w1 & Hstep).
    { unfold scan_entry, mbind, M_bind, bind. rewrite entry_is_directory_run.
      destruct (String.eqb name "." || String.eqb name "..") eqn:Hdot; [by eexists _, _|].
      destruct (if next_fast _ _ then _ else _) eqn:Hd; [|by eexists _, _].
      assert (type = FtDirectory ∨ IsDirectory E (MakePath path name) = true) as Hkind.
      { destruct (next_fast _ _); [left | by right]. by destruct type. }
      destruct (Hcons path all name type Hread (Hsub _ ltac:(by left)) Hdot Hkind)
        as (Hex & Hdir & Hdepth).
      destruct (Hrec (MakePath path name) (MakePath parent name)
                  (with_fast_dir_stat w (next_fast (has_fast_dir_stat w) type))
                  Hex Hdir Hdepth) as (r & w' & ->).
      by eexists _, _. }
    rewrite Hstep. apply IH. intros e He. apply Hsub. by right.
Qed.

Lemma GetDirectoryMembers_recursive_total E depth :
  platform_consistent E depth →
  ∀ fuel path parent w,
    Exists E path = true → IsDirectory E path = true → (depth path < fuel)%nat →
    ∃ r w', GetDirectoryMembers E fuel path RECURSIVE parent w = Done r w'.
Proof.
  intros Hcons. induction fuel as [|fuel IH]; intros path parent w Hex Hdir Hdepth;
    [lia|].
  cbn [GetDirectoryMembers]. unfold GetDirectoryMembers_body.
  unfold mbind, M_bind, bind. rewrite Hex, Hdir. simpl.
  destruct (ReadDirectory E path) as [entries|] eqn:Hread; [|by eexists _, _].
  eapply scan_entries_recursive; eauto.
  intros sub parent' w0 Hex' Hdir' Hd'. apply IH; [done..|lia].
Qed.

Lemma fill_sub_members_total E depth fuel p :
  platform_consistent E depth →
  ∀ dirs subs w,
    (∀ k v, (k, v) ∈ dirs →
       Exists E (MakePath p v) = true ∧ IsDirectory E (MakePath p v) = true
       ∧ (depth (MakePath p v) < fuel)%nat) →
    ∃ subs' w',
      fill_sub_members E fuel p dirs subs w = Done subs' w'
      ∧ ∀ k, (is_Some (subs !! k) ∨ ∃ v, (k, v) ∈ dirs) → is_Some (subs' !! k).
Proof.
  intros Hcons. induction dirs as [|[key original] dirs IH]; intros subs w Hdirs.
  - exists subs, w. split; [done|]. intros k [?|[v ?%elem_of_nil]]; done.
  - destruct (Hdirs key original ltac:(by left)) as (Hex & Hdir & Hdepth).
    destruct (GetDirectoryMembers_recursive_total E depth Hcons fuel
                (MakePath p original) "" w Hex Hdir Hdepth) as (rdir & w1 & Hrun).
    destruct (IH (<[key := dir_files rdir]> subs) w1) as (subs' & w' & Hrest & Hdom).
    { intros k v Hin. apply (Hdirs k v). by right. }
    exists subs', w'. split.
    + cbn [fill_sub_members]. unfold mbind, M_bind, bind. by rewrite Hrun.
    + intros k [Hk|[v Hin]]; apply Hdom.
      * left. destruct (decide (key = k)) as [->|?].
        -- rewrite lookup_insert_eq. by eexists.
        -- by rewrite lookup_insert_ne.
      * apply elem_of_cons in Hin as [[= -> ->]|Hin].
        -- left. rewrite lookup_insert_eq. by eexists.
        -- right. by exists v.
Qed.

(** Building a tree of an existing directory: it never faults, and in
    the recursive mode every directory it lists has its member map. *)
Lemma CreateDirectoryTree_total E depth fuel p mode w :
  platform_consistent E depth →
  Exists E p = true → IsDirectory E p = true → (depth p < fuel)%nat →
  ∃ tree w',
    CreateDirectoryTree E fuel p mode w = Done (Some tree) w'
    ∧ directory_path tree = p
    ∧ (mode = RECURSIVE → tree_ok tree).
Proof.
  intros Hcons Hex Hdir Hdepth.
  destruct fuel as [|fuel]; [lia|].
  unfold CreateDirectoryTree. rewrite Hex, Hdir. cbn [andb negb].
  set (flat := match mode with RECURSIVE => ALL | _ => mode end).
  assert (flat ≠ RECURSIVE) as Hflat by (by destruct mode).
  destruct (flat_scan_total E fuel p flat "" w Hflat Hex Hdir)
    as (mem & w1 & Hscan & Hdirs).
  unfold mbind, M_bind, bind. rewrite Hscan.
  destruct mode; try (eexists _, _; split; [reflexivity|]; by split).
  destruct (fill_sub_members_total E depth (S fuel) p Hcons
              (map_to_list (dir_directories mem)) ∅ w1)
    as (subs & w' & Hfill & Hdom).
  { intros k v Hin%elem_of_map_to_list.
    destruct (Hdirs k v Hin) as (entries & Hread & Hrec).
    apply recorded_elem in Hrec as (Hdot & type & Hent & Hkind).
    destruct (Hcons p entries v type Hread Hent Hdot Hkind) as (? & ? & ?).
    repeat split; [done..|lia]. }
  rewrite Hfill. eexists _, _. split; [reflexivity|]. split; [done|].
  intros _ k [v Hk]. cbn [directories sub_members] in *.
  apply Hdom. right. exists v. by apply elem_of_map_to_list.
Qed.

Lemma world_ok_total_pre E :
  sane_escape E →
  (∀ w msgs, world_ok w → world_ok (add_output w msgs))
  ∧ (∀ d n w, world_ok w →
       holds true (detect_game_rtp E d n) w (λ _ w', world_ok w' ∧ quiet w w'))
  ∧ (∀ w, world_ok w → world_ok (with_rtp w (set_warning_shown (rtp_state w)))).
Proof.
  intros _. split; [done|]. split; [|done].
  intros d n w. apply detect_world_ok.
Qed.

(** [FindFile] returns: for extensions without a path delimiter, or with
    the RTP disabled. *)
Lemma FindFile_total E dir name exts tryTranslate w :
  sane_escape E → world_ok w →
  exts_plain E exts ∨ disable_rtp (rtp_state w) = true →
  ∃ r w', FindFile E dir name exts tryTranslate w = Done r w'
          ∧ world_ok w'
          ∧ disable_rtp (rtp_state w') = disable_rtp (rtp_state w).
Proof.
  intros Hsane Hok Hrtp.
  set (off := disable_rtp (rtp_state w)).
  destruct (holds_total _ _ _
              (FindFile_post E true
                 (λ w, world_ok w ∧ disable_rtp (rtp_state w) = off)
                 (λ _, Hsane) ltac:(by intros ?? [??]) ltac:(by intros _ ? [??])
                 ltac:(intros d n w0 [Hok0 Hoff0];
                       destruct (detect_game_rtp_effect E d n w0) as (msgs & Heq & Hd);
                       unfold holds; rewrite Heq; split; [done | by apply quiet_narrowed])
                 ltac:(by intros ? [??])
                 dir name exts tryTranslate w
                 ltac:(intros _; destruct Hrtp as [?|Hoff]; [by left|];
                       right; intros w0 [_ ->]; exact Hoff)
                 ltac:(done)))
    as (r & w' & Hrun & [Hok' Hoff'] & _).
  by exists r, w'.
Qed.

(** C9, counterexample. On the sample [CreateDirectoryTree] in the mode
    [ALL] builds a tree that lists the directory [music] and has no member
    map for it; looking up [Music/town] in that tree dereferences the end
    iterator of [sub_members]. The scan of a path that does not exist
    fails its first assertion. And a top-level [FindFile] with two
    extensions that hold a path delimiter re-enters the lookup while the
    loop over [game_rtp] is running, the re-entered lookup erases from the
    vector, and the loop goes on with an invalidated iterator: on a state
    with a game tree and a member map for every listed directory. *)
Lemma operations_can_fault :
  match CreateDirectoryTree Sample.env 1 "/game" ALL Sample.world with
  | Done (Some tree) _ =>
      FindFile_tree Sample.env tree "Music" "town" MUSIC_TYPES false Sample.world
      = Crash InvalidDereference
  | _ => False
  end
  ∧ FindFile_tree Sample.env Sample.flat_tree "Music" "town" MUSIC_TYPES false
      Sample.world = Crash InvalidDereference
  ∧ Exists Sample.env "/nowhere" = false
  ∧ GetDirectoryMembers Sample.env 1 "/nowhere" ALL "" Sample.world
    = Crash AssertionFailed
  ∧ sane_escape LiveSample.env
  ∧ world_ok Sample.world
  ∧ FindFile LiveSample.env "charset" ".." ["charset/b"; "charset/d"] false
      Sample.world = Crash InvalidatedIterator.
Proof.
  split; [vm_compute; reflexivity|]. split; [vm_compute; reflexivity|].
  split; [reflexivity|]. split; [vm_compute; reflexivity|].
  split; [apply sample_sane|]. split; [apply sample_world_ok|].
  vm_compute. reflexivity.
Qed.

(** C9, amended. Within their preconditions the operations never fault
    and report a failure by the value they return:
    - [CreateDirectoryTree] returns the empty pointer for a path that
      does not exist or is not a directory;
    - the scan of an existing directory returns a listing, in the flat
      modes always and in the recursive mode when the platform's answers
      are consistent and the nesting is within the bound;
    - [CreateDirectoryTree] of an existing directory returns a tree, and
      in the recursive mode one that has a member map for every directory
      it lists;
    - with a game tree set, a member map for every listed directory in
      every tree of the state, and an escape symbol that is neither empty
      nor a slash: [FindFile] returns a path or the empty string when no
      extension holds a path delimiter or the RTP is disabled, [rtp_lookup]
      when no extension holds a path delimiter, the lookup in a tree with
      a member map for every listed directory for every extension list,
      and so do the lookups by asset kind when their extensions hold no
      delimiter, and [FindDefault]. *)
Theorem operations_total E :
  (∀ fuel p mode w,
     Exists E p && IsDirectory E p = false →
     CreateDirectoryTree E fuel p mode w = Done None w)
  ∧ (∀ fuel path m parent w,
       m ≠ RECURSIVE → Exists E path = true → IsDirectory E path = true →
       ∃ r w', GetDirectoryMembers E (S fuel) path m parent w = Done r w')
  ∧ (∀ depth fuel path parent w,
       platform_consistent E depth →
       Exists E path = true → IsDirectory E path = true → (depth path < fuel)%nat →
       ∃ r w', GetDirectoryMembers E fuel path RECURSIVE parent w = Done r w')
  ∧ (∀ depth fuel p mode w,
       platform_consistent E depth →
       Exists E p = true → IsDirectory E p = true → (depth p < fuel)%nat →
       ∃ tree w',
         CreateDirectoryTree E fuel p mode w = Done (Some tree) w'
         ∧ directory_path tree = p
         ∧ (mode = RECURSIVE → tree_ok tree))
  ∧ (sane_escape E →
     ∀ w, world_ok w →
       (∀ dir name exts tryTranslate,
          exts_plain E exts ∨ disable_rtp (rtp_state w) = true →
          ∃ r w', FindFile E dir name exts tryTranslate w = Done r w' ∧ world_ok w')
       ∧ (∀ tree dir name exts translate,
            tree_ok tree →
            ∃ r w', FindFile_tree E tree dir name exts translate w = Done r w'
                    ∧ world_ok w')
       ∧ (∀ dir name exts flag,
            exts_plain E exts →
            ∃ p w', rtp_lookup_top E dir name exts flag w = Done p w' ∧ world_ok w')
       ∧ (∀ dir name,
            (exts_plain E IMG_TYPES →
             ∃ r w', FindImage E dir name w = Done r w' ∧ world_ok w')
            ∧ (exts_plain E MUSIC_TYPES →
               ∃ r w', FindMusic E name w = Done r w' ∧ world_ok w')
            ∧ (exts_plain E SOUND_TYPES →
               ∃ r w', FindSound E name w = Done r w' ∧ world_ok w')
            ∧ (exts_plain E FONTS_TYPES →
               ∃ r w', FindFont E name w = Done r w' ∧ world_ok w')
            ∧ (∃ r w', FindDefault_name E name w = Done r w' ∧ world_ok w')
            ∧ (∀ tree, tree_ok tree →
                 ∃ r w', FindDefault_tree_dir_name E tree dir name w = Done r w'
                         ∧ world_ok w'))).
Proof.
  split; [|split; [|split; [|split]]].
  - intros fuel p mode w H. unfold CreateDirectoryTree. by rewrite H.
  - intros fuel path m parent w Hm Hex Hdir.
    destruct (flat_scan_total E fuel path m parent w Hm Hex Hdir) as (r & w' & ? & _).
    by exists r, w'.
  - intros depth fuel path parent w Hcons. by apply GetDirectoryMembers_recursive_total.
  - intros depth fuel p mode w Hcons. by apply CreateDirectoryTree_total.
  - intros Hsane w Hok.
    destruct (world_ok_total_pre E Hsane) as (Hout & Hdet & Hlatch).
    assert (∀ dir name exts tr,
              exts_plain E exts ∨ disable_rtp (rtp_state w) = true →
              ∃ r w', FindFile E dir name exts tr w = Done r w' ∧ world_ok w') as Hfind.
    { intros dir name exts tr Hrtp.
      destruct (FindFile_total E dir name exts tr w Hsane Hok Hrtp)
        as (r & w' & Hrun & Hok' & _).
      by exists r, w'. }
    assert (∀ tree dir name exts tr, tree_ok tree →
              ∃ r w', FindFile_tree E tree dir name exts tr w = Done r w'
                      ∧ world_ok w') as Htree.
    { intros tree dir name exts tr Htree.
      destruct (holds_total _ _ _
                  (FindFile_tree_post E true world_ok (λ _, Hsane) Hout (λ _ _ H, H)
                     Hdet Hlatch tree dir name exts tr w (λ _, Htree) Hok))
        as (r & w' & Hrun & Hok' & _).
      by exists r, w'. }
    split; [done|]. split; [done|]. split; cycle 1.
    { intros dir name.
      repeat split; try (intros Hplain; apply Hfind; by left).
      - pose proof Hok as ((t & Ht & _) & _).
        unfold FindDefault_name, mbind, M_bind, bind, deref_game_tree. rewrite Ht.
        unfold FindDefault_tree_name. destruct (1 <? _)%nat.
        + destruct (holds_total _ _ _
                      (FindDefault_dir_name_ok E true world_ok (λ _, Hsane) Hout
                         (λ _ _ H, H) Hdet Hlatch
                         (hd "" (SplitPath (escape_symbol E) name))
                         (fold_left MakePath (tail (SplitPath (escape_symbol E) name)) "")
                         w Hok))
            as (r & w' & Hrun & Hok'' & _).
          by exists r, w'.
        + destruct (files t !! _); by eexists _, _.
      - intros tree Hto. by apply Htree. }
    + intros dir name exts flag Hplain.
      destruct (holds_total _ _ _
                  (rtp_lookup_top_post E true world_ok (λ _, Hsane) Hout (λ _ _ H, H)
                     Hdet Hlatch dir name exts flag w (λ _, Hplain) Hok))
        as (p & w' & Hrun & Hok' & _).
      by exists p, w'.
Qed.

Lemma sample_platform_consistent : platform_consistent Sample.env Sample.depth.
Proof.
  intros path entries name type Hread Hin Hdot Hkind.
  cbn [ReadDirectory Exists IsDirectory Sample.env] in *.
  unfold Sample.read_directory in Hread.
  destruct (String.eqb_spec path "/game") as [->|_].
  { injection Hread as <-.
    repeat (apply elem_of_cons in Hin as [[= -> ->]|Hin]);
      try (by apply elem_of_nil in Hin);
      try discriminate Hdot;
      try (destruct Hkind as [?|Hk]; [done | by vm_compute in Hk]);
      repeat split; try reflexivity; vm_compute; lia. }
  destruct (String.eqb_spec path "/game/Music") as [->|_].
  { injection Hread as <-.
    repeat (apply elem_of_cons in Hin as [[= -> ->]|Hin]);
      try (by apply elem_of_nil in Hin).
    destruct Hkind as [?|Hk]; [done | by vm_compute in Hk]. }
  destruct (String.eqb_spec path "/game/music") as [->|_]; [|done].
  injection Hread as <-.
  repeat (apply elem_of_cons in Hin as [[= -> ->]|Hin]);
    try (by apply elem_of_nil in Hin).
  destruct Hkind as [?|Hk]; [done | by vm_compute in Hk].
Qed.

Lemma sample_music_types_plain : exts_plain Sample.env MUSIC_TYPES.
Proof. by repeat constructor. Qed.

Lemma operations_total_witness :
  CreateDirectoryTree Sample.env 3 "/nowhere" RECURSIVE Sample.world
  = Done None Sample.world
  ∧ (∃ r w', GetDirectoryMembers Sample.env 1 "/game" ALL "" Sample.world = Done r w')
  ∧ (∃ r w', GetDirectoryMembers Sample.env 2 "/game" RECURSIVE "" Sample.world
             = Done r w')
  ∧ (∃ tree w', CreateDirectoryTree Sample.env 2 "/game" RECURSIVE Sample.world
                = Done (Some tree) w'
                ∧ directory_path tree = "/game"
                ∧ (RECURSIVE = RECURSIVE → tree_ok tree))
  ∧ (∃ r w', FindFile Sample.env "CharSet" "b" IMG_TYPES true Sample.world
             = Done r w' ∧ world_ok w')
  ∧ (∃ r w', FindFile_tree Sample.env Sample.rtp_tree "charset" "../music"
               ["/town.ogg"] false Sample.world = Done r w' ∧ world_ok w')
  ∧ (∃ p w', rtp_lookup_top Sample.env "charset" "b" IMG_TYPES true Sample.world
             = Done p w' ∧ world_ok w')
  ∧ (∃ r w', FindMusic Sample.env "town" Sample.world = Done r w' ∧ world_ok w').
Proof.
  destruct (operations_total Sample.env) as (H1 & H2 & H3 & H4 & H5).
  destruct (H5 sample_sane Sample.world sample_world_ok) as (H5a & H5b & H5c & H5d).
  split; [apply H1; reflexivity|].
  split; [apply H2; [done | reflexivity | reflexivity]|].
  split; [apply (H3 Sample.depth);
          [apply sample_platform_consistent | reflexivity | reflexivity
          | vm_compute; lia]|].
  split; [apply (H4 Sample.depth);
          [apply sample_platform_consistent | reflexivity | reflexivity
          | vm_compute; lia]|].
  split; [apply H5a; left; apply sample_img_types_plain|].
  split; [apply H5b, sample_rtp_tree_ok|].
  split; [apply H5c, sample_img_types_plain|].
  destruct (H5d "Music" "town") as (_ & Hm & _). apply Hm, sample_music_types_plain.
Defined.

(** ** The recursion has two levels

    With plain extensions no lookup reaches [FindDefault(dir, name)], so
    its result does not depend on what that function is taken to be. *)

Section Independence.

Context (E : Env) (cb cb' : string → string → M string) (exts : list string).
Hypothesis plain : exts_plain E exts.

Lemma find_default_exts_indep tree canon l w :
  delimiter_free (escape_symbol E) canon = true →
  exts_plain E l →
  find_default_exts E cb tree canon l w = find_default_exts E cb' tree canon l w.
Proof.
  intros Hcanon Hl. revert w. induction Hl as [|c l Hc _ IH]; intros w; [done|].
  cbn [find_default_exts]. apply bind_ext.
  - unfold FindDefault_tree_name. by rewrite SplitPath_canon_ext.
  - intros r w1. destruct (Str.is_empty r); [apply IH | done].
Qed.

Lemma FindFile_in_tree_indep tree dir name translate w :
  FindFile_in_tree E cb tree dir name exts translate w
  = FindFile_in_tree E cb' tree dir name exts translate w.
Proof.
  unfold FindFile_in_tree. destruct (translate && _); [done|].
  set (combined := MakePath _ _).
  pose proof (canon_without_slash (escape_symbol E) combined 1) as Hcanon.
  destruct (MakeCanonical_run (escape_symbol E) combined 1) as [canon out].
  cbn [fst] in Hcanon.
  apply bind_ext; [done|]. intros _ w1.
  destruct (negb _); [|done].
  destruct (Str.find_first_of Str.slash canon); [done|].
  apply find_default_exts_indep; [by apply Hcanon | exact plain].
Qed.

Lemma search_in_paths_indep paths dir name w :
  search_in_paths E cb paths dir name exts w
  = search_in_paths E cb' paths dir name exts w.
Proof.
  revert w. induction paths as [|path paths IH]; intros w; [done|].
  cbn [search_in_paths]. apply bind_ext; [apply FindFile_in_tree_indep|].
  intros r w1. destruct (negb _); [done | apply IH].
Qed.

Lemma normal_search_indep dir name w :
  normal_search E cb dir name exts w = normal_search E cb' dir name exts w.
Proof.
  unfold normal_search. apply bind_ext; [done|]. intros st w1.
  apply bind_ext; [apply search_in_paths_indep | done].
Qed.

Lemma search_variants_indep rtp dir name variants flag w :
  search_variants E cb rtp dir name exts variants flag w
  = search_variants E cb' rtp dir name exts variants flag w.
Proof.
  revert flag w. induction variants as [|v variants IH]; intros flag w; [done|].
  cbn [search_variants]. destruct (LookupRtpToRtp E dir name v (hit_type rtp) flag).
  destruct (negb _); [|apply IH].
  apply bind_ext; [done|]. intros writes w0.
  apply bind_ext; [apply FindFile_in_tree_indep|].
  intros r w1. destruct (negb _); [done|].
  apply bind_ext; [done|]. intros writes' w2.
  destruct (writes' =? writes)%nat; [apply IH | done].
Qed.

Lemma search_detected_indep detected dir name flag w :
  search_detected E cb detected dir name exts flag w
  = search_detected E cb' detected dir name exts flag w.
Proof.
  revert flag w. induction detected as [|rtp detected IH]; intros flag w; [done|].
  cbn [search_detected]. apply bind_ext; [done|]. intros st w0.
  apply bind_ext; [apply search_variants_indep|].
  intros [[r|] flag'] w1; [done | apply IH].
Qed.

Lemma rtp_lookup_indep dir name flag w :
  rtp_lookup E cb dir name exts flag w = rtp_lookup E cb' dir name exts flag w.
Proof.
  unfold rtp_lookup. apply bind_ext; [done|]. intros _ w1.
  unfold search_rtp. apply bind_ext; [done|]. intros st w2.
  destruct (bool_decide _); [apply normal_search_indep|].
  apply bind_ext; [apply search_detected_indep|].
  intros [[r|] flag'] w3; [done | apply normal_search_indep].
Qed.

Lemma FindFile_body_indep dir name tryTranslate w :
  FindFile_body E cb dir name exts tryTranslate w
  = FindFile_body E cb' dir name exts tryTranslate w.
Proof.
  unfold FindFile_body. apply bind_ext; [done|]. intros tree w1.
  apply bind_ext.
  { destruct tryTranslate; [apply FindFile_in_tree_indep | done]. }
  intros r w2. destruct (negb _); [done|].
  apply bind_ext; [apply FindFile_in_tree_indep|].
  intros r2 w3. destruct (negb _); [done|].
  unfold rtp_stage. apply bind_ext; [done|]. intros st w4.
  apply bind_ext; [|done].
  destruct (negb _); [|done].
  apply bind_ext; [apply rtp_lookup_indep | done].
Qed.

End Independence.

(** The recursion equation of the source: [FindDefault(dir, name)] is
    [FindFile(dir, name, no_exts)]. *)
Lemma FindDefault_dir_name_unfold E dir name w :
  FindDefault_dir_name E dir name w = FindFile E dir name no_exts false w.
Proof. apply FindFile_body_indep, no_exts_plain. Qed.

(** ** Further properties of the path primitives *)

Lemma has_char_replace_char a b s :
  a ≠ b → Str.has_char a (Str.replace_char a b s) = false.
Proof.
  intros Hab. induction s as [|c r IH]; simpl; [done|].
  rewrite IH, orb_false_r. destruct (Ascii.eqb c a) eqn:Hc; [|exact Hc].
  apply Ascii.eqb_neq. congruence.
Qed.

Lemma MakePath_no_backslash dir name :
  Str.has_char Str.backslash (MakePath dir name) = false.
Proof. unfold MakePath. apply has_char_replace_char. discriminate. Qed.

Lemma MakePath_assoc dir name other :
  dir = "" ∨ name ≠ "" →
  MakePath (MakePath dir name) other = MakePath dir (MakePath name other).
Proof.
  intros H.
  destruct (decide (dir = "")) as [->|Hd].
  - rewrite !MakePath_empty_dir.
    destruct (decide (name = "")) as [->|Hn].
    + simpl. rewrite !MakePath_empty_dir, replace_char_idem. done.
    + rewrite !MakePath_nonempty_dir; [|done|by rewrite replace_char_empty].
      rewrite !replace_char_app, !replace_char_idem. done.
  - destruct H as [?|Hn]; [done|].
    rewrite (MakePath_nonempty_dir dir name) by done.
    rewrite (MakePath_nonempty_dir name other) by done.
    rewrite !MakePath_nonempty_dir; [| done |].
    + rewrite !replace_char_app, !replace_char_idem, !string_app_assoc. done.
    + intros Heq. apply string_app_eq_nil in Heq as [Heq _].
      by apply replace_char_empty in Heq.
Qed.

(** X1. [MakePath] never yields a backslash, treats the two separators
    of its arguments alike, and is associative whenever the middle part is
    not empty (or the first one is): joining [dir/name] with [other] is
    joining [dir] with [name/other]. *)
Theorem MakePath_separators (dir name other : string) :
  Str.has_char Str.backslash (MakePath dir name) = false
  ∧ MakePath (rb dir) (rb name) = MakePath dir name
  ∧ (dir = "" ∨ name ≠ "" →
     MakePath (MakePath dir name) other = MakePath dir (MakePath name other)).
Proof.
  split; [apply MakePath_no_backslash|]. split; [|apply MakePath_assoc].
  destruct (decide (dir = "")) as [->|Hd].
  - simpl. rewrite !MakePath_empty_dir. apply replace_char_idem.
  - rewrite !MakePath_nonempty_dir; [|done|by rewrite replace_char_empty].
    by rewrite !replace_char_idem.
Qed.

Lemma MakePath_separators_witness :
  ("" = "" ∨ "Music\a" ≠ "")
  ∧ Str.has_char Str.backslash (MakePath "C:\game" "Music\a") = false
  ∧ MakePath (MakePath "/game" "Music\a") "b.ogg" = "/game/Music/a/b.ogg"
  ∧ MakePath "/game" (MakePath "Music\a" "b.ogg") = "/game/Music/a/b.ogg".
Proof.
  split; [by right|]. split; [exact (proj1 (MakePath_separators _ _ "")) |].
  split.
  - rewrite (proj2 (proj2 (MakePath_separators "/game" "Music\a" "b.ogg")));
      [reflexivity | by right].
  - reflexivity.
Defined.

(** ** The canonical form *)

Lemma has_char_str_all c s :
  Str.has_char c s = false ↔ str_all (λ d, negb (Ascii.eqb d c)) s = true.
Proof.
  induction s as [|d r IH]; simpl; [done|].
  rewrite orb_false_iff, andb_true_iff, negb_true_iff, IH. done.
Qed.

Lemma Tokenize_from_all q pred cur text :
  str_all q cur = true → str_all q text = true →
  Forall (λ t, str_all q t = true) (Tokenize_from cur text pred).
Proof.
  revert cur. induction text as [|c rest IH]; intros cur Hcur Htext; simpl.
  - by constructor.
  - simpl in Htext. apply andb_true_iff in Htext as [Hc Hrest].
    destruct (pred c).
    + constructor; [done|]. by apply IH.
    + apply IH; [|done]. rewrite str_all_app, Hcur. simpl. by rewrite Hc.
Qed.

Lemma delimiter_free_no_escape esc s :
  delimiter_free esc s = true → Str.has_char (escape_char_back esc) s = false.
Proof.
  unfold delimiter_free, is_delim. induction s as [|c r IH]; simpl; [done|].
  rewrite andb_true_iff, negb_true_iff, orb_false_iff.
  intros [[-> _] Hr]. simpl. by apply IH.
Qed.

Lemma delimiter_free_no_slash esc s :
  delimiter_free esc s = true → Str.has_char Str.slash s = false.
Proof.
  unfold delimiter_free, is_delim. induction s as [|c r IH]; simpl; [done|].
  rewrite andb_true_iff, negb_true_iff, orb_false_iff.
  intros [[_ ->] Hr]. simpl. by apply IH.
Qed.

Lemma SplitPath_no_backslash esc path :
  backslash_delimits esc path →
  Forall (λ t, Str.has_char Str.backslash t = false) (SplitPath esc path).
Proof.
  intros [Hp|He].
  - eapply Forall_impl.
    + apply (Tokenize_from_all (λ d, negb (Ascii.eqb d Str.backslash))
               (is_delim esc) "" path); [done|]. by apply has_char_str_all.
    + intros t Ht. by apply has_char_str_all.
  - eapply Forall_impl; [apply SplitPath_tokens|].
    intros t Ht. simpl in Ht. rewrite <- He. by apply delimiter_free_no_escape.
Qed.

Lemma step_retained_ordinary (Q : string → Prop) st seg :
  (ordinary seg → Q seg) →
  Forall Q (CanonSpec.retained st) →
  Forall Q (CanonSpec.retained (CanonSpec.step st seg)).
Proof.
  intros Hseg Hst. unfold CanonSpec.step.
  destruct (decide (seg = "." ∨ seg = "")) as [|Hn]; [done|].
  destruct (decide (seg = "..")) as [|Hdd].
  - destruct (CanonSpec.retained st) as [|x l] eqn:Hr.
    + destruct (decide (0 < CanonSpec.depth st)); simpl; constructor.
    + cbn [CanonSpec.retained]. by apply Forall_removelast.
  - cbn [CanonSpec.retained]. apply Forall_app. split; [done|].
    apply Forall_singleton. apply Hseg. unfold ordinary. tauto.
Qed.

Lemma fold_retained_ordinary (Q : string → Prop) segs st :
  Forall (λ s, ordinary s → Q s) segs →
  Forall Q (CanonSpec.retained st) →
  Forall Q (CanonSpec.retained (fold_left CanonSpec.step segs st)).
Proof.
  intros Hsegs. revert st. induction Hsegs as [|seg segs Hseg _ IH]; intros st Hst.
  - done.
  - simpl. apply IH. by apply step_retained_ordinary.
Qed.

Lemma Tokenize_from_app_clean pred x cur text :
  str_all (λ c, negb (pred c)) x = true →
  Tokenize_from cur (x +:+ text) pred = Tokenize_from (cur +:+ x) text pred.
Proof.
  revert cur. induction x as [|c x IH]; intros cur Hx.
  - simpl. by rewrite string_app_nil_r.
  - simpl in Hx. apply andb_true_iff in Hx as [Hc Hx].
    apply negb_true_iff in Hc. simpl. rewrite Hc, IH by done.
    by rewrite string_app_assoc.
Qed.

Lemma Tokenize_from_join pred l x cur :
  pred Str.slash = true →
  Forall (λ t, str_all (λ c, negb (pred c)) t = true) (x :: l) →
  Tokenize_from cur (String.concat "/" (x :: l)) pred = (cur +:+ x) :: l.
Proof.
  intros Hslash. revert x cur. induction l as [|y l IH]; intros x cur Hall.
  - simpl. apply Tokenize_from_clean. by inversion Hall.
  - inversion Hall as [|? ? Hx Hrest]; subst.
    change (String.concat "/" (x :: y :: l))
      with (x +:+ String Str.slash (String.concat "/" (y :: l))).
    rewrite Tokenize_from_app_clean by done.
    cbn [Tokenize_from]. rewrite Hslash. f_equal.
    rewrite IH by done. done.
Qed.

Lemma fold_push l st :
  Forall ordinary l →
  fold_left CanonSpec.step l st
  = {| CanonSpec.retained := CanonSpec.retained st ++ l;
       CanonSpec.depth := CanonSpec.depth st;
       CanonSpec.clamped := CanonSpec.clamped st |}.
Proof.
  intros Hl. revert st. induction Hl as [|seg l [H1 [H2 H3]] _ IH]; intros st.
  - simpl. rewrite app_nil_r. by destruct st.
  - simpl. rewrite IH, step_push by done. simpl. by rewrite <- app_assoc.
Qed.

Lemma has_char_concat c l :
  c ≠ Str.slash →
  Forall (λ t, Str.has_char c t = false) l →
  Str.has_char c (String.concat "/" l) = false.
Proof.
  intros Hc Hl. induction Hl as [|x l Hx Hl IH]; [done|].
  destruct l as [|y l]; [done|].
  change (String.concat "/" (x :: y :: l))
    with (x +:+ String Str.slash (String.concat "/" (y :: l))).
  rewrite has_char_app, Hx. cbn [Str.has_char orb]. rewrite IH, orb_false_r.
  apply Ascii.eqb_neq. congruence.
Qed.

(** The segments [MakeCanonical] retains and the string it builds from
    them, when every backslash is a delimiter. *)
Lemma canon_retained esc path d :
  backslash_delimits esc path →
  let R := CanonSpec.retained (CanonSpec.canonicalize_fold (SplitPath esc path) d) in
  MakeCanonical esc path d = CanonSpec.join R
  ∧ Forall (λ s, ordinary s ∧ delimiter_free esc s = true
                 ∧ Str.has_char Str.backslash s = false) R.
Proof.
  intros Hb R.
  assert (HR : Forall (λ s, ordinary s ∧ delimiter_free esc s = true
                            ∧ Str.has_char Str.backslash s = false) R).
  { apply fold_retained_ordinary; [|constructor].
    pose proof (SplitPath_tokens esc path) as H1.
    pose proof (SplitPath_no_backslash esc path Hb) as H2.
    rewrite Forall_forall in H1, H2. apply Forall_forall. intros s Hs Ho.
    auto. }
  split; [|done].
  unfold MakeCanonical. rewrite MakeCanonical_run_fold. simpl. fold R.
  apply replace_char_absent. apply has_char_concat; [discriminate|].
  eapply Forall_impl; [exact HR|]. simpl. tauto.
Qed.

Lemma SplitPath_join esc R :
  R ≠ [] → Forall (λ s, delimiter_free esc s = true) R →
  SplitPath esc (CanonSpec.join R) = R.
Proof.
  intros Hne HR. destruct R as [|x l]; [done|].
  unfold SplitPath, Tokenize, CanonSpec.join.
  rewrite Tokenize_from_join; [done| apply is_delim_slash | exact HR].
Qed.

(** X2. Canonicalising is idempotent: a path [MakeCanonical] returned is
    returned unchanged, with no diagnostic and whatever the depth budget,
    when canonicalised again. This needs every backslash of the path to
    be a delimiter (the escape symbol starts with a backslash, or the path
    holds none); otherwise the backslashes that [MakePath] turns into
    slashes form new segments. *)
Theorem MakeCanonical_idempotent (esc path : string) (d d' : Z) :
  backslash_delimits esc path →
  MakeCanonical_run esc (MakeCanonical esc path d) d'
  = (MakeCanonical esc path d, []).
Proof.
  intros Hb. destruct (canon_retained esc path d Hb) as [Hc HR].
  set (R := CanonSpec.retained (CanonSpec.canonicalize_fold (SplitPath esc path) d)) in *.
  rewrite Hc, MakeCanonical_run_fold. cbv zeta.
  destruct (decide (R = [])) as [HRn|HRn].
  - rewrite HRn. reflexivity.
  - rewrite SplitPath_join; [|done|].
    2:{ eapply Forall_impl; [exact HR|]. simpl. tauto. }
    unfold CanonSpec.canonicalize_fold. rewrite fold_push.
    2:{ eapply Forall_impl; [exact HR|]. simpl. tauto. }
    simpl. f_equal. apply replace_char_absent.
    apply has_char_concat; [discriminate|].
    eapply Forall_impl; [exact HR|]. simpl. tauto.
Qed.

Lemma MakeCanonical_idempotent_witness :
  backslash_delimits "\" "Music\..\.\Picture//a\..\b.png"
  ∧ MakeCanonical "\" "Music\..\.\Picture//a\..\b.png" 1 = "Picture/b.png"
  ∧ MakeCanonical_run "\" "Picture/b.png" 0 = ("Picture/b.png", []).
Proof.
  assert (Hb : backslash_delimits "\" "Music\..\.\Picture//a\..\b.png")
    by (right; reflexivity).
  split; [exact Hb|]. split; [reflexivity|].
  exact (MakeCanonical_idempotent "\" "Music\..\.\Picture//a\..\b.png" 1 0 Hb).
Defined.

(** X3. The canonical form holds no backslash and no segment that is
    empty, [.] or [..]: it is the empty string or splits into ordinary
    segments only (every backslash of the path being a delimiter). *)
Theorem MakeCanonical_segments (esc path : string) (d : Z) :
  backslash_delimits esc path →
  Str.has_char Str.backslash (MakeCanonical esc path d) = false
  ∧ (MakeCanonical esc path d = ""
     ∨ Forall ordinary (SplitPath esc (MakeCanonical esc path d))).
Proof.
  intros Hb. destruct (canon_retained esc path d Hb) as [Hc HR].
  set (R := CanonSpec.retained (CanonSpec.canonicalize_fold (SplitPath esc path) d)) in *.
  rewrite Hc. split.
  - apply has_char_concat; [discriminate|].
    eapply Forall_impl; [exact HR|]. simpl. tauto.
  - destruct (decide (R = [])) as [HRn|HRn]; [left; by rewrite HRn|right].
    rewrite SplitPath_join; [|done|].
    + eapply Forall_impl; [exact HR|]. simpl. tauto.
    + eapply Forall_impl; [exact HR|]. simpl. tauto.
Qed.

Lemma MakeCanonical_segments_witness :
  backslash_delimits "\" "../a/./b\..\c/"
  ∧ MakeCanonical "\" "../a/./b\..\c/" 0 = "a/c"
  ∧ Str.has_char Str.backslash (MakeCanonical "\" "../a/./b\..\c/" 0) = false
  ∧ (MakeCanonical "\" "../a/./b\..\c/" 0 = ""
     ∨ Forall ordinary (SplitPath "\" (MakeCanonical "\" "../a/./b\..\c/" 0))).
Proof.
  assert (Hb : backslash_delimits "\" "../a/./b\..\c/") by (right; reflexivity).
  split; [exact Hb|]. split; [reflexivity|].
  exact (MakeCanonical_segments "\" "../a/./b\..\c/" 0 Hb).
Defined.

(** ** Paths relative to a base *)

Lemma prefix_app s t : String.prefix s (s +:+ t) = true.
Proof.
  induction s as [|c s IH]; simpl; [by destruct t|].
  destruct (ascii_dec c c); [done | congruence].
Qed.

Lemma drop_app_length s t : Str.drop (String.length s) (s +:+ t) = t.
Proof. induction s as [|c s IH]; simpl; [by destruct t | done]. Qed.

Lemma GetPathInsidePath_strip base rest :
  GetPathInsidePath base (base +:+ String Str.slash rest) = rest.
Proof.
  unfold GetPathInsidePath. rewrite prefix_app, drop_app_length. reflexivity.
Qed.

Lemma starts_with_separator_rb s :
  starts_with_separator s = false →
  starts_with_separator (Str.replace_char Str.backslash Str.slash s) = false.
Proof.
  destruct s as [|c r]; [done|]. simpl.
  destruct (Ascii.eqb c Str.backslash) eqn:Hc.
  - by rewrite orb_true_r.
  - by rewrite Hc.
Qed.

(** X4. Making a joined path relative again: [GetPathInsidePath dir]
    applied to [MakePath dir name] gives back [name], with its separators
    normalised. The base must hold no backslash ([MakePath] rewrites
    them, after which the prefix test fails), and with an empty base the
    name must not start with a separator. *)
Theorem GetPathInsidePath_MakePath (dir name : string) :
  Str.has_char Str.backslash dir = false →
  dir ≠ "" ∨ starts_with_separator name = false →
  GetPathInsidePath dir (MakePath dir name)
  = Str.replace_char Str.backslash Str.slash name.
Proof.
  intros Hb Hs. destruct (decide (dir = "")) as [->|Hd].
  - destruct Hs as [?|Hs]; [done|]. rewrite MakePath_empty_dir.
    apply starts_with_separator_rb in Hs.
    unfold GetPathInsidePath. simpl.
    destruct (Str.replace_char Str.backslash Str.slash name) as [|c r]; [done|].
    simpl in Hs. by rewrite Hs.
  - rewrite MakePath_nonempty_dir by done.
    rewrite (replace_char_absent _ _ dir Hb).
    apply GetPathInsidePath_strip.
Qed.

Lemma GetPathInsidePath_MakePath_witness :
  Str.has_char Str.backslash "/home/me/game" = false
  ∧ ("/home/me/game" ≠ "" ∨ starts_with_separator "Music\Town.ogg" = false)
  ∧ MakePath "/home/me/game" "Music\Town.ogg" = "/home/me/game/Music/Town.ogg"
  ∧ GetPathInsidePath "/home/me/game" (MakePath "/home/me/game" "Music\Town.ogg")
    = "Music/Town.ogg".
Proof.
  split; [reflexivity|]. split; [by left|]. split; [reflexivity|].
  apply (GetPathInsidePath_MakePath "/home/me/game" "Music\Town.ogg");
    [reflexivity | by left].
Defined.

Lemma indexed_relative tree r :
  directory_path tree ≠ "" →
  Str.has_char Str.backslash (directory_path tree) = false →
  indexed tree r →
  ∃ rest, r = directory_path tree +:+ String Str.slash rest
          ∧ Str.has_char Str.backslash rest = false.
Proof.
  intros Hne Hb [(k & d & m & k' & n & _ & _ & _ & ->)|(k & f & _ & ->)].
  - exists (Str.replace_char Str.backslash Str.slash d +:+ "/"
            +:+ Str.replace_char Str.backslash Str.slash n).
    split.
    + rewrite MakePath_nonempty_dir.
      * rewrite !replace_char_app, (replace_char_absent _ _ _ Hb).
        rewrite !string_app_assoc. reflexivity.
      * intros Heq. by apply string_app_eq_nil in Heq as [? _].
    + rewrite !has_char_app, !has_char_replace_char by discriminate. reflexivity.
  - exists (Str.replace_char Str.backslash Str.slash f). split.
    + rewrite MakePath_nonempty_dir by done.
      by rewrite (replace_char_absent _ _ _ Hb).
    + apply has_char_replace_char. discriminate.
Qed.

(** X5. A path found in a tree can be made relative to the tree's base
    path and joined to it again: for a base path that is not empty and
    holds no backslash, and extensions without a path delimiter,
    [GetPathInsidePath] strips exactly the base path and one slash from the
    result of [FindFile], and [MakePath] restores it. *)
Theorem FindFile_tree_relative E tree dir name exts (translate : bool) w r w' :
  exts_plain E exts →
  directory_path tree ≠ "" →
  Str.has_char Str.backslash (directory_path tree) = false →
  FindFile_tree E tree dir name exts translate w = Done r w' →
  r ≠ "" →
  r = directory_path tree +:+ "/" +:+ GetPathInsidePath (directory_path tree) r
  ∧ MakePath (directory_path tree) (GetPathInsidePath (directory_path tree) r) = r.
Proof.
  intros Hplain Hne Hb Hrun Hr.
  pose proof (FindFile_in_tree_indexed E (FindDefault_dir_name E) tree dir name exts
                translate w Hplain) as Hidx.
  apply (holds_done _ _ _ _ _ _ Hidx) in Hrun as [?|Hi]; [done|].
  destruct (indexed_relative tree r Hne Hb Hi) as (rest & -> & Hrest).
  rewrite GetPathInsidePath_strip. split; [reflexivity|].
  rewrite MakePath_nonempty_dir by done.
  by rewrite (replace_char_absent _ _ _ Hb), (replace_char_absent _ _ _ Hrest).
Qed.

Lemma FindFile_tree_relative_witness :
  exts_plain Sample.env MUSIC_TYPES
  ∧ directory_path Sample.game_tree ≠ ""
  ∧ Str.has_char Str.backslash (directory_path Sample.game_tree) = false
  ∧ FindFile_tree Sample.env Sample.game_tree "Music" "town" MUSIC_TYPES false
      Sample.world = Done "/game/Music/Town.ogg" Sample.world
  ∧ GetPathInsidePath "/game" "/game/Music/Town.ogg" = "Music/Town.ogg"
  ∧ ("/game/Music/Town.ogg"
     = directory_path Sample.game_tree +:+ "/"
       +:+ GetPathInsidePath (directory_path Sample.game_tree) "/game/Music/Town.ogg"
     ∧ MakePath (directory_path Sample.game_tree)
         (GetPathInsidePath (directory_path Sample.game_tree) "/game/Music/Town.ogg")
       = "/game/Music/Town.ogg").
Proof.
  assert (Hp : exts_plain Sample.env MUSIC_TYPES).
  { unfold exts_plain. repeat constructor. }
  split; [exact Hp|]. split; [discriminate|]. split; [reflexivity|].
  assert (Hrun : FindFile_tree Sample.env Sample.game_tree "Music" "town" MUSIC_TYPES
                   false Sample.world = Done "/game/Music/Town.ogg" Sample.world)
    by (vm_compute; reflexivity).
  split; [exact Hrun|]. split; [reflexivity|].
  apply (FindFile_tree_relative Sample.env Sample.game_tree "Music" "town"
           MUSIC_TYPES false Sample.world _ Sample.world Hp);
    [discriminate | reflexivity | exact Hrun | discriminate].
Defined.

(** ** Invariants of a session *)

(** A property of the state that the narrowing step, the latch of the
    warning and the log preserve, and that does not depend on the count
    of the writes to [game_rtp], holds throughout a session. *)
Lemma session_invariant E (Inv : World → Prop) w0 w :
  (∀ w msgs, Inv w → Inv (add_output w msgs)) →
  (∀ w n, Inv w → Inv (with_writes w n)) →
  (∀ d n w, Inv w →
     Inv (with_rtp w (set_game_rtp (rtp_state w)
                        (narrowed E d n (game_rtp (rtp_state w)))))) →
  (∀ w, Inv w → Inv (with_rtp w (set_warning_shown (rtp_state w)))) →
  Inv w0 → reachable E w0 w → Inv w.
Proof.
  intros Hout Hwrites Hnarrow Hlatch H0 Hreach.
  assert (Hdetect : ∀ d n w, Inv w →
            holds true (detect_game_rtp E d n) w (λ _ w', Inv w' ∧ quiet w w')).
  { intros d n w1 Hw1.
    destruct (detect_game_rtp_effect E d n w1) as (msgs & Heq & Hdbg).
    unfold holds. rewrite Heq. split.
    - apply Hout, Hwrites. by apply Hnarrow.
    - by apply quiet_narrowed. }
  induction Hreach as [|w q r w' _ IH Hrun|w dir name exts tr r w' _ IH Hrun]; [done| |].
  - eapply holds_done in Hrun;
      [|apply (rtp_lookup_top_post E false Inv ltac:(done) Hout ltac:(done)
                 Hdetect Hlatch); [done | exact IH]].
    by destruct Hrun as (? & _).
  - eapply holds_done in Hrun;
      [|apply (FindFile_post E false Inv ltac:(done) Hout ltac:(done)
                 Hdetect Hlatch); [done | exact IH]].
    by destruct Hrun as (? & _).
Qed.

Lemma narrowed_resolved E d n g : List.length g = 1%nat → narrowed E d n g = g.
Proof. intros Hg. unfold narrowed. by destruct (decide _). Qed.

(** X6. Once the game's RTP is resolved it stays resolved: when
    [game_rtp] holds exactly one variant, no [rtp_lookup] and no [FindFile]
    of the session changes it, whatever is requested. *)
Theorem resolved_is_final E w0 w (t : RtpType) :
  game_rtp (rtp_state w0) = [t] →
  reachable E w0 w →
  game_rtp (rtp_state w) = [t].
Proof.
  intros H0 Hreach.
  apply (session_invariant E (λ w, game_rtp (rtp_state w) = [t]) w0 w);
    try done.
  intros d n w1 Hw1. simpl. rewrite narrowed_resolved; [done | by rewrite Hw1].
Qed.

Lemma resolved_is_final_witness :
  let w0 := with_rtp Sample.world (set_game_rtp Sample.rtp_state0 [Sample.V 2]) in
  game_rtp (rtp_state w0) = [Sample.V 2]
  ∧ LookupAnyToRtp Sample.env "charset" "d" 2000
    = [Sample.V 4; RPG2000_DonMiguelAddon]
  ∧ ∃ r w, rtp_lookup_top Sample.env "charset" "d" IMG_TYPES false w0 = Done r w
           ∧ game_rtp (rtp_state w) = [Sample.V 2].
Proof.
  intros w0. split; [reflexivity|]. split; [reflexivity|].
  destruct (rtp_lookup_top Sample.env "charset" "d" IMG_TYPES false w0)
    as [r w|f] eqn:Hrun; [|by vm_compute in Hrun].
  exists r, w. split; [reflexivity|].
  apply (resolved_is_final Sample.env w0 w (Sample.V 2)); [reflexivity|].
  apply (reach_lookup _ _ w0 (Sample.request "d") r w); [apply reach_start|].
  exact Hrun.
Defined.

(** X7. Lookups are read-only on the installation: throughout a session
    of [rtp_lookup] and [FindFile] calls the game tree, the RTP search
    paths, the detected RTPs, the two configuration flags and
    [has_fast_dir_stat] keep their values, the latch of the warning is
    never cleared, and the log only grows. Only [game_rtp] and the latch
    ever change. *)
Theorem lookups_preserve_setup E w0 w :
  reachable E w0 w → same_setup w0 w.
Proof.
  intros Hreach.
  apply (session_invariant E (same_setup w0) w0 w); try done.
  - intros w1 msgs (H1 & H2 & H3 & H4 & H5 & H6 & H7 & msgs0 & H8).
    repeat split; try done. exists (msgs0 ++ msgs). simpl.
    by rewrite H8, app_assoc.
  - intros w1 (H1 & H2 & H3 & H4 & H5 & H6 & H7 & H8). repeat split; done.
  - repeat split; try done. exists []. by rewrite app_nil_r.
Qed.

Lemma lookups_preserve_setup_witness :
  ∃ w, reachable Sample.env Sample.world w
       ∧ game_rtp (rtp_state w) = [Sample.V 1; Sample.V 2]
       ∧ same_setup Sample.world w.
Proof.
  destruct (FindFile Sample.env "CharSet" "a" IMG_TYPES true Sample.world)
    as [r w|f] eqn:Hrun; [|by vm_compute in Hrun].
  assert (Hreach : reachable Sample.env Sample.world w).
  { apply (reach_find _ _ Sample.world "CharSet" "a" IMG_TYPES true r w);
      [apply reach_start | exact Hrun]. }
  exists w. split; [exact Hreach|]. split.
  - vm_compute in Hrun. by injection Hrun as _ <-.
  - exact (lookups_preserve_setup Sample.env Sample.world w Hreach).
Defined.

Lemma erase_first_sublist x l : erase_first x l `sublist_of` l.
Proof.
  induction l as [|y l IH]; simpl; [done|].
  destruct (decide (y = x)); [by apply sublist_cons | by apply sublist_skip].
Qed.

Lemma narrowed_NoDup E d n g :
  oracle_is_set E → NoDup g → NoDup (narrowed E d n g).
Proof.
  intros Hset Hg. unfold narrowed.
  destruct (decide (List.length g = 1%nat)); [done|].
  destruct (decide (erase_first _ _ = [])); [done|].
  unfold narrow. case_bool_decide.
  - eapply sublist_NoDup; [apply Hset | apply erase_first_sublist].
  - by apply NoDup_filter.
Qed.

(** X8. [game_rtp] is a set throughout a session: if the oracle lists
    no variant twice and [game_rtp] starts without duplicates, no
    [rtp_lookup] and no [FindFile] introduces one. *)
Theorem game_rtp_stays_duplicate_free E w0 w :
  oracle_is_set E →
  NoDup (game_rtp (rtp_state w0)) →
  reachable E w0 w →
  NoDup (game_rtp (rtp_state w)).
Proof.
  intros Hset H0 Hreach.
  apply (session_invariant E (λ w, NoDup (game_rtp (rtp_state w))) w0 w);
    try done.
  intros d n w1 Hw1. simpl. by apply narrowed_NoDup.
Qed.

Lemma game_rtp_stays_duplicate_free_witness :
  oracle_is_set Sample.env
  ∧ NoDup (game_rtp (rtp_state Sample.world))
  ∧ ∃ w, reachable Sample.env Sample.world w
         ∧ game_rtp (rtp_state w) = [Sample.V 2; Sample.V 3]
         ∧ NoDup (game_rtp (rtp_state w)).
Proof.
  split; [apply sample_oracle_is_set|]. split; [apply NoDup_nil_2|].
  destruct (rtp_lookup_top Sample.env "charset" "b" IMG_TYPES false Sample.world)
    as [r w|f] eqn:Hrun; [|by vm_compute in Hrun].
  assert (Hreach : reachable Sample.env Sample.world w).
  { apply (reach_lookup _ _ Sample.world (Sample.request "b") r w);
      [apply reach_start | exact Hrun]. }
  exists w. split; [exact Hreach|]. split.
  - vm_compute in Hrun. by injection Hrun as _ <-.
  - apply (game_rtp_stays_duplicate_free Sample.env Sample.world w);
      [apply sample_oracle_is_set | apply NoDup_nil_2 | exact Hreach].
Defined.

(** What one [rtp_lookup] with plain extensions does to the RTP state,
    with no assumption that the call returns. *)
Lemma rtp_lookup_top_rtp_state E dir name exts flag w p w' :
  exts_plain E exts →
  rtp_lookup_top E dir name exts flag w = Done p w' →
  rtp_state w'
  = set_game_rtp (rtp_state w) (narrowed E dir name (game_rtp (rtp_state w))).
Proof.
  intros Hplain Hrun.
  unfold rtp_lookup_top, rtp_lookup in Hrun.
  unfold mbind at 1, M_bind, bind in Hrun.
  destruct (detect_game_rtp_effect E dir name w) as (msgs & Heq & _).
  rewrite Heq in Hrun.
  set (w1 := add_output _ msgs) in Hrun.
  pose proof (search_rtp_post E false (λ w2, rtp_state w2 = rtp_state w1)
                (FindDefault_dir_name E) ltac:(done) ltac:(done) ltac:(done)
                dir name exts flag w1 (or_introl Hplain) eq_refl) as Hpost.
  apply (holds_done _ _ _ _ _ _ Hpost) in Hrun as (-> & _). reflexivity.
Qed.

(** X9. While [game_rtp] is not empty a lookup only narrows it: for
    extensions without a path delimiter, an [rtp_lookup] that returns
    leaves in [game_rtp] exactly the narrowing of the old value by the
    request's candidates, every variant it holds was there before, and the
    rest of the RTP state is untouched. *)
Theorem rtp_lookup_only_narrows E dir name exts (flag : bool) w p w' :
  exts_plain E exts →
  game_rtp (rtp_state w) ≠ [] →
  rtp_lookup_top E dir name exts flag w = Done p w' →
  rtp_state w'
  = set_game_rtp (rtp_state w) (narrowed E dir name (game_rtp (rtp_state w)))
  ∧ (∀ t, t ∈ game_rtp (rtp_state w') → t ∈ game_rtp (rtp_state w)).
Proof.
  intros Hplain Hne Hrun.
  pose proof (rtp_lookup_top_rtp_state E dir name exts flag w p w' Hplain Hrun) as Hst.
  split; [exact Hst|]. intros t. rewrite Hst. simpl. by apply narrowed_subset.
Qed.

Lemma rtp_lookup_only_narrows_witness :
  let w := with_rtp Sample.world
             (set_game_rtp Sample.rtp_state0 [Sample.V 1; Sample.V 2; Sample.V 3]) in
  exts_plain Sample.env IMG_TYPES
  ∧ game_rtp (rtp_state w) ≠ []
  ∧ ∃ p w', rtp_lookup_top Sample.env "charset" "b" IMG_TYPES false w = Done p w'
            ∧ game_rtp (rtp_state w') = [Sample.V 2; Sample.V 3]
            ∧ (∀ t, t ∈ game_rtp (rtp_state w') → t ∈ game_rtp (rtp_state w)).
Proof.
  intros w. split; [apply sample_img_types_plain|]. split; [discriminate|].
  destruct (rtp_lookup_top Sample.env "charset" "b" IMG_TYPES false w)
    as [p w'|f] eqn:Hrun; [|by vm_compute in Hrun].
  exists p, w'. split; [reflexivity|]. split.
  - vm_compute in Hrun. by injection Hrun as _ <-.
  - apply (rtp_lookup_only_narrows Sample.env "charset" "b" IMG_TYPES false w p w');
      [apply sample_img_types_plain | discriminate | exact Hrun].
Defined.

(** ** The latch of the full-package warning *)

Lemma same_setup_refl w : same_setup w w.
Proof. repeat split; try done. exists []. by rewrite app_nil_r. Qed.

Lemma same_setup_trans w1 w2 w3 :
  same_setup w1 w2 → same_setup w2 w3 → same_setup w1 w3.
Proof.
  intros (A1 & A2 & A3 & A4 & A5 & A6 & A7 & m1 & A8)
         (B1 & B2 & B3 & B4 & B5 & B6 & B7 & m2 & B8).
  repeat split; try congruence; [tauto|].
  exists (m1 ++ m2). by rewrite B8, A8, app_assoc.
Qed.

Lemma count_msgs_app f l1 l2 :
  count_msgs f (l1 ++ l2) = (count_msgs f l1 + count_msgs f l2)%nat.
Proof. unfold count_msgs. by rewrite List.filter_app, length_app. Qed.

(** One run of the warning step: the full-package warning is logged
    exactly when the latch goes from clear to set. *)
Lemma report_rtp_latch E dir name r (flag : bool) w :
  ∃ w' added,
    report_rtp E dir name r flag w = Done tt w'
    ∧ same_setup w w'
    ∧ game_rtp (rtp_state w') = game_rtp (rtp_state w)
    ∧ output w' = output w ++ added
    ∧ (count_msgs is_claims_warning added
       + Nat.b2n (warning_broken_rtp_game_shown (rtp_state w))
       = Nat.b2n (warning_broken_rtp_game_shown (rtp_state w')))%nat.
Proof.
  unfold report_rtp. destruct flag.
  2:{ exists w, []. split; [done|]. split; [apply same_setup_refl|].
      by rewrite app_nil_r. }
  unfold mbind, M_bind, bind, get_rtp.
  destruct (negb (Str.is_empty r) && game_has_full_package_flag (rtp_state w)
            && negb (warning_broken_rtp_game_shown (rtp_state w))
            && negb (String.eqb (Normalize E dir) "music"
                     || String.eqb (Normalize E dir) "sound")) eqn:Hc.
  - apply andb_true_iff in Hc as [Hc _]. apply andb_true_iff in Hc as [_ Hc].
    apply negb_true_iff in Hc.
    eexists _, [WarnClaimsNoRtp]. split; [reflexivity|].
    split; [|split; [done|split; [done|]]].
    + repeat split; try done. by eexists.
    + simpl. by rewrite Hc.
  - destruct (Str.is_empty r && negb (game_has_full_package_flag (rtp_state w))
              && negb (String.eqb (Normalize E dir) "music"
                       || String.eqb (Normalize E dir) "sound")).
    + eexists _, [_]. split; [reflexivity|].
      split; [|split; [done|split; [done|done]]].
      repeat split; try done. by eexists.
    + exists w, []. split; [done|]. split; [apply same_setup_refl|].
      by rewrite app_nil_r.
Qed.

(** X10. The full-package warning ("claims it does not need the RTP")
    is logged at most once: over any sequence of runs of the warning step
    of [FindFile], whatever their outcomes, the number of times it is
    logged plus the initial value of the latch equals the final value of
    the latch. So it is logged once if the latch goes from clear to set,
    never otherwise, and never once the latch is set. Nothing else of the
    state changes and the log only grows. *)
Theorem claims_warning_at_most_once E steps w :
  ∃ w' added,
    report_session E steps w = Done tt w'
    ∧ same_setup w w'
    ∧ game_rtp (rtp_state w') = game_rtp (rtp_state w)
    ∧ output w' = output w ++ added
    ∧ (count_msgs is_claims_warning added
       + Nat.b2n (warning_broken_rtp_game_shown (rtp_state w))
       = Nat.b2n (warning_broken_rtp_game_shown (rtp_state w')))%nat.
Proof.
  revert w. induction steps as [|[[[dir name] r] flag] rest IH]; intros w.
  - exists w, []. split; [done|]. split; [apply same_setup_refl|].
    by rewrite app_nil_r.
  - destruct (report_rtp_latch E dir name r flag w)
      as (w1 & a1 & Hrun1 & Hs1 & Hg1 & Ho1 & Hc1).
    destruct (IH w1) as (w2 & a2 & Hrun2 & Hs2 & Hg2 & Ho2 & Hc2).
    exists w2, (a1 ++ a2). split.
    { simpl. unfold mbind, M_bind, bind. by rewrite Hrun1. }
    split; [by eapply same_setup_trans|]. split; [congruence|].
    split; [by rewrite Ho2, Ho1, app_assoc|].
    rewrite count_msgs_app. lia.
Qed.

(** ** Where results come from *)

Section Provenance.

Context (E : Env) (trees : list DirectoryTree) (Inv : World → Prop) (b : bool).
Context (cb : string → string → M string).

Hypothesis Inv_output : ∀ w msgs, Inv w → Inv (add_output w msgs).
Hypothesis Inv_writes : ∀ w n, Inv w → Inv (with_writes w n).

Lemma FindDefault_tree_name_src tree canon c w :
  tree ∈ trees →
  delimiter_free (escape_symbol E) canon = true →
  delimiter_free (escape_symbol E) c = true ∨ callback_drawn trees Inv cb →
  Inv w →
  holds false (FindDefault_tree_name E cb tree (canon +:+ c)) w
    (drawn_from trees Inv).
Proof.
  intros Ht Hcanon Hc HI. unfold FindDefault_tree_name.
  destruct (1 <? _)%nat eqn:Hlen.
  - destruct Hc as [Hc|Hcb].
    + by rewrite SplitPath_canon_ext in Hlen.
    + by apply Hcb.
  - destruct (files tree !! _) as [f|] eqn:Hf; apply holds_ret; (split; [done|]).
    + right. exists tree. split; [done|]. right. eauto.
    + by left.
Qed.

Lemma find_default_exts_src tree canon exts w :
  tree ∈ trees →
  delimiter_free (escape_symbol E) canon = true →
  exts_plain E exts ∨ callback_drawn trees Inv cb →
  Inv w →
  holds false (find_default_exts E cb tree canon exts) w (drawn_from trees Inv).
Proof.
  intros Ht Hcanon. revert w.
  induction exts as [|c exts IH]; intros w Hc HI.
  { apply holds_ret. split; [done | by left]. }
  cbn [find_default_exts]. apply holds_bind.
  assert (Hhead : delimiter_free (escape_symbol E) c = true
                  ∨ callback_drawn trees Inv cb).
  { destruct Hc as [Hp|?]; [left; by inversion Hp | by right]. }
  assert (Htail : exts_plain E exts ∨ callback_drawn trees Inv cb).
  { destruct Hc as [Hp|?]; [left; by inversion Hp | by right]. }
  eapply holds_mono; [|by apply FindDefault_tree_name_src].
  intros r w1 [HI1 Hr]. destruct (Str.is_empty r).
  - by apply IH.
  - by apply holds_ret.
Qed.

Lemma lookup_members_src tree dir name exts w :
  tree ∈ trees → Inv w →
  holds false (lookup_members E tree dir name exts) w (drawn_from trees Inv).
Proof.
  intros Ht HI. unfold lookup_members.
  destruct (replace_escape _ _ _) as [name'|]; [|done].
  destruct (directories tree !! dir) as [d|] eqn:Hd; [|by split; [|left]].
  destruct (sub_members tree !! dir) as [m|] eqn:Hm; [|done].
  destruct (first_ext_hit m name' exts) as [n|] eqn:Hn; [|by split; [|left]].
  apply first_ext_hit_Some in Hn as [k' Hk']. split; [done|].
  right. exists tree. split; [done|]. left. by exists dir, d, m, k', n.
Qed.

Lemma FindFile_in_tree_src tree dir name exts (translate : bool) w :
  tree ∈ trees →
  exts_plain E exts ∨ callback_drawn trees Inv cb →
  Inv w →
  holds false (FindFile_in_tree E cb tree dir name exts translate) w
    (drawn_from trees Inv).
Proof.
  intros Ht Hc HI. unfold FindFile_in_tree.
  destruct (translate && _); [by split; [|left]|].
  set (combined := MakePath _ _).
  pose proof (canon_without_slash (escape_symbol E) combined 1) as Hcanon.
  destruct (MakeCanonical_run (escape_symbol E) combined 1) as [canon out].
  cbn [fst] in Hcanon.
  apply holds_bind, holds_say_all.
  destruct (negb _); [|by apply lookup_members_src; auto].
  destruct (Str.find_first_of Str.slash canon) eqn:Hpos.
  - apply lookup_members_src; auto.
  - apply find_default_exts_src; auto.
Qed.

Lemma search_in_paths_src paths dir name exts w :
  (∀ t, t ∈ paths → t ∈ trees) →
  exts_plain E exts ∨ callback_drawn trees Inv cb →
  Inv w →
  holds false (search_in_paths E cb paths dir name exts) w (drawn_from trees Inv).
Proof.
  intros Hp Hc. revert w. induction paths as [|path rest IH]; intros w HI.
  { apply holds_ret. split; [done | by left]. }
  cbn [search_in_paths]. apply holds_bind.
  eapply holds_mono; [|apply FindFile_in_tree_src; auto].
  - intros r w1 [HI1 Hr]. destruct (negb _).
    + by apply holds_ret.
    + apply IH; [|done]. intros t Hin. apply Hp. by right.
  - apply Hp. by left.
Qed.

Lemma search_variants_src rtp dir name exts variants (flag : bool) w :
  hit_tree rtp ∈ trees →
  exts_plain E exts ∨ callback_drawn trees Inv cb →
  Inv w →
  holds false (search_variants E cb rtp dir name exts variants flag) w
    (λ p w', Inv w' ∧ ∀ r, p.1 = Some r → from_trees trees r).
Proof.
  intros Ht Hc. revert flag w.
  induction variants as [|v rest IH]; intros flag w HI.
  { apply holds_ret. split; [done | by intros r [=]]. }
  cbn [search_variants].
  destruct (LookupRtpToRtp E dir name v (hit_type rtp) flag) as [entry flag'].
  destruct (negb (Str.is_empty entry)); [|by apply IH].
  apply holds_bind, holds_get_game_rtp_writes, holds_bind.
  eapply holds_mono; [|apply FindFile_in_tree_src; auto].
  intros r w1 [HI1 Hr]. destruct (negb _).
  - apply holds_ret. split; [done|]. by intros r' [= <-].
  - apply holds_bind, holds_get_game_rtp_writes.
    destruct (_ =? _)%nat; [by apply IH | done].
Qed.

Lemma search_detected_src detected dir name exts (flag : bool) w :
  (∀ h, h ∈ detected → hit_tree h ∈ trees) →
  exts_plain E exts ∨ callback_drawn trees Inv cb →
  Inv w →
  holds false (search_detected E cb detected dir name exts flag) w
    (λ p w', Inv w' ∧ ∀ r, p.1 = Some r → from_trees trees r).
Proof.
  intros Hd Hc. revert flag w.
  induction detected as [|rtp rest IH]; intros flag w HI.
  { apply holds_ret. split; [done | by intros r [=]]. }
  cbn [search_detected]. apply holds_bind, holds_get_rtp, holds_bind.
  eapply holds_mono; [|apply search_variants_src; auto].
  - intros [hit flag'] w1 [HI1 Hr]. destruct hit as [r|].
    + apply holds_ret. split; [done|]. exact Hr.
    + apply IH; [|done]. intros h Hin. apply Hd. by right.
  - apply Hd. by left.
Qed.

Hypothesis Inv_flag : ∀ w, Inv w → disable_rtp (rtp_state w) = b.
Hypothesis Inv_paths : b = false → ∀ w, Inv w →
  (∀ t, t ∈ search_paths (rtp_state w) → t ∈ trees)
  ∧ (∀ h, h ∈ detected_rtp (rtp_state w) → hit_tree h ∈ trees).

Lemma normal_search_src dir name exts w :
  b = false →
  exts_plain E exts ∨ callback_drawn trees Inv cb →
  Inv w →
  holds false (normal_search E cb dir name exts) w
    (λ p w', Inv w' ∧ from_trees trees p.1).
Proof.
  intros Hb Hc HI. unfold normal_search.
  apply holds_bind, holds_get_rtp, holds_bind.
  eapply holds_mono; [|apply search_in_paths_src; auto].
  - intros r w1 [HI1 Hr]. by apply holds_ret.
  - by apply (Inv_paths Hb w HI).
Qed.

Lemma search_rtp_src dir name exts (flag : bool) w :
  b = false →
  exts_plain E exts ∨ callback_drawn trees Inv cb →
  Inv w →
  holds false (search_rtp E cb dir name exts flag) w
    (λ p w', Inv w' ∧ from_trees trees p.1).
Proof.
  intros Hb Hc HI. unfold search_rtp.
  apply holds_bind, holds_get_rtp.
  case_bool_decide; [by apply normal_search_src|].
  apply holds_bind.
  eapply holds_mono; [|apply search_detected_src; auto].
  - intros [hit flag'] w1 [HI1 Hr]. destruct hit as [r|].
    + apply holds_ret. split; [done|]. by apply Hr.
    + by apply normal_search_src.
  - by apply (Inv_paths Hb w HI).
Qed.

Hypothesis Inv_narrow : b = false → ∀ d n w, Inv w →
  Inv (with_rtp w (set_game_rtp (rtp_state w)
                     (narrowed E d n (game_rtp (rtp_state w))))).

Lemma rtp_lookup_src dir name exts (flag : bool) w :
  b = false →
  exts_plain E exts ∨ callback_drawn trees Inv cb →
  Inv w →
  holds false (rtp_lookup E cb dir name exts flag) w
    (λ p w', Inv w' ∧ from_trees trees p.1).
Proof.
  intros Hb Hc HI. unfold rtp_lookup. apply holds_bind.
  destruct (detect_game_rtp_effect E dir name w) as (msgs & Heq & _).
  unfold holds at 1. rewrite Heq.
  apply search_rtp_src; [done|done|]. apply Inv_output, Inv_writes. by apply Inv_narrow.
Qed.

Hypothesis Inv_latch : b = false →
  ∀ w, Inv w → Inv (with_rtp w (set_warning_shown (rtp_state w))).

Lemma report_rtp_src dir name r (flag : bool) w :
  b = false → Inv w →
  holds false (report_rtp E dir name r flag) w (λ _ w', Inv w').
Proof.
  intros Hb HI. unfold report_rtp. destruct flag; [|by apply holds_ret].
  apply holds_bind, holds_get_rtp.
  destruct (_ && _ && _ && _).
  - apply holds_bind, holds_put_rtp, holds_say. apply Inv_output.
    by apply Inv_latch.
  - destruct (_ && _ && _).
    + apply holds_say. by apply Inv_output.
    + by apply holds_ret.
Qed.

Hypothesis Inv_tree : ∀ w t, Inv w → game_directory_tree w = Some t → t ∈ trees.

Lemma FindFile_body_src dir name exts (tryTranslate : bool) w :
  exts_plain E exts ∨ callback_drawn trees Inv cb →
  Inv w →
  holds false (FindFile_body E cb dir name exts tryTranslate) w
    (drawn_from trees Inv).
Proof.
  intros Hc HI. unfold FindFile_body. apply holds_bind.
  unfold holds at 1, deref_game_tree.
  destruct (game_directory_tree w) as [tree|] eqn:Htree; [|done].
  pose proof (Inv_tree w tree HI Htree) as Ht.
  apply holds_bind.
  assert (Hover : holds false
            (if tryTranslate then FindFile_in_tree E cb tree dir name exts true
             else ret "") w (drawn_from trees Inv)).
  { destruct tryTranslate; [by apply FindFile_in_tree_src|].
    apply holds_ret. split; [done | by left]. }
  eapply holds_mono; [|exact Hover].
  intros r1 w1 [HI1 Hr1]. destruct (negb (Str.is_empty r1)); [by apply holds_ret|].
  apply holds_bind.
  eapply holds_mono; [|by apply FindFile_in_tree_src].
  intros r2 w2 [HI2 Hr2]. destruct (negb (Str.is_empty r2)); [by apply holds_ret|].
  unfold rtp_stage. apply holds_bind, holds_get_rtp.
  rewrite (Inv_flag w2 HI2).
  assert (Hfin : ∀ r w3, Inv w3 → from_trees trees r →
            holds false
              ((if Str.is_empty r then say (DbgCannotFind dir name) else ret tt);;
               ret r) w3 (drawn_from trees Inv)).
  { intros r w3 HI3 Hr. apply holds_bind. destruct (Str.is_empty r).
    - apply holds_say, holds_ret. split; [by apply Inv_output | done].
    - apply holds_ret, holds_ret. by split. }
  apply holds_bind. destruct (decide (b = false)) as [Hb|Hb].
  2:{ apply not_false_is_true in Hb. rewrite Hb. cbn [negb].
      apply holds_ret. by apply Hfin. }
  rewrite Hb. cbn [negb].
  - apply holds_bind.
    eapply holds_mono; [|by apply rtp_lookup_src].
    intros [r3 flag3] w3 [HI3 Hr3]. apply holds_bind.
    eapply holds_mono; [|by apply report_rtp_src].
    intros u w4 HI4. apply holds_ret. by apply Hfin.
Qed.

End Provenance.

Lemma no_reentry_drawn trees Inv : callback_drawn trees Inv no_reentry.
Proof. by intros d n w _. Qed.

Section ProvenanceTop.

Context (E : Env) (trees : list DirectoryTree) (Inv : World → Prop) (b : bool).

Hypothesis Inv_output : ∀ w msgs, Inv w → Inv (add_output w msgs).
Hypothesis Inv_writes : ∀ w n, Inv w → Inv (with_writes w n).
Hypothesis Inv_flag : ∀ w, Inv w → disable_rtp (rtp_state w) = b.
Hypothesis Inv_paths : b = false → ∀ w, Inv w →
  (∀ t, t ∈ search_paths (rtp_state w) → t ∈ trees)
  ∧ (∀ h, h ∈ detected_rtp (rtp_state w) → hit_tree h ∈ trees).
Hypothesis Inv_narrow : b = false → ∀ d n w, Inv w →
  Inv (with_rtp w (set_game_rtp (rtp_state w)
                     (narrowed E d n (game_rtp (rtp_state w))))).
Hypothesis Inv_latch : b = false →
  ∀ w, Inv w → Inv (with_rtp w (set_warning_shown (rtp_state w))).
Hypothesis Inv_tree : ∀ w t, Inv w → game_directory_tree w = Some t → t ∈ trees.

Lemma FindDefault_dir_name_drawn : callback_drawn trees Inv (FindDefault_dir_name E).
Proof.
  intros d n w HI. unfold FindDefault_dir_name.
  apply (FindFile_body_src E trees Inv b no_reentry); auto.
  left. apply no_exts_plain.
Qed.

Lemma FindFile_src dir name exts (tryTranslate : bool) w :
  Inv w →
  holds false (FindFile E dir name exts tryTranslate) w (drawn_from trees Inv).
Proof.
  intros HI. unfold FindFile.
  apply (FindFile_body_src E trees Inv b (FindDefault_dir_name E)); auto.
  right. apply FindDefault_dir_name_drawn.
Qed.

End ProvenanceTop.

(** X11. Every path the top-level [FindFile] returns is the path of an
    entry recorded in one of the trees of the state it started in: the
    game's tree, an RTP search path or the tree of a detected RTP. This
    holds for every request and every extension list, the calls that
    re-enter [FindFile] through [FindDefault] included. *)
Theorem FindFile_provenance E dir name exts (tryTranslate : bool) w r w' :
  FindFile E dir name exts tryTranslate w = Done r w' →
  from_trees (sources w) r.
Proof.
  intros Hrun.
  pose proof (FindFile_src E (sources w)
                (λ w1, sources w1 = sources w
                       ∧ disable_rtp (rtp_state w1) = disable_rtp (rtp_state w))
                (disable_rtp (rtp_state w))) as Hsrc.
  assert (Hh : holds false (FindFile E dir name exts tryTranslate) w
                 (drawn_from (sources w)
                    (λ w1, sources w1 = sources w
                           ∧ disable_rtp (rtp_state w1) = disable_rtp (rtp_state w)))).
  { apply Hsrc; clear Hsrc; try done.
    - by intros w1 [_ ?].
    - intros _ w1 [Hs _]. rewrite <- Hs. unfold sources. split.
      + intros t Ht. rewrite !elem_of_app. tauto.
      + intros h Hh. rewrite !elem_of_app. right. right.
        apply list_elem_of_fmap. by exists h.
    - intros w1 t [Hs _] Ht. rewrite <- Hs. unfold sources. rewrite Ht.
      apply elem_of_app. left. simpl. by left. }
  by apply (holds_done _ _ _ _ _ _ Hh) in Hrun as [_ ?].
Qed.

Lemma FindFile_provenance_witness :
  ∃ w', FindFile Sample.env "CharSet" "a" IMG_TYPES true Sample.world
        = Done "/rtp/CharSet/A.png" w'
        ∧ sources Sample.world
          = [Sample.game_tree; Sample.rtp_tree; Sample.rtp_tree]
        ∧ from_trees (sources Sample.world) "/rtp/CharSet/A.png".
Proof.
  destruct (FindFile Sample.env "CharSet" "a" IMG_TYPES true Sample.world)
    as [r w'|f] eqn:Hrun; [|by vm_compute in Hrun].
  assert (Hr : r = "/rtp/CharSet/A.png").
  { vm_compute in Hrun. by injection Hrun as <- _. }
  exists w'. split; [by rewrite Hr|]. split; [reflexivity|].
  rewrite <- Hr.
  exact (FindFile_provenance Sample.env "CharSet" "a" IMG_TYPES true
           Sample.world r w' Hrun).
Defined.

Lemma FindFile_without_rtp E dir name exts (tryTranslate : bool) w tree r w' :
  disable_rtp (rtp_state w) = true →
  game_directory_tree w = Some tree →
  FindFile E dir name exts tryTranslate w = Done r w' →
  rtp_state w' = rtp_state w
  ∧ game_directory_tree w' = Some tree
  ∧ (r = "" ∨ indexed tree r).
Proof.
  intros Hdis Htree Hrun.
  pose proof (FindFile_src E [tree]
                (λ w1, rtp_state w1 = rtp_state w
                       ∧ game_directory_tree w1 = Some tree) true) as Hsrc.
  assert (Hh : holds false (FindFile E dir name exts tryTranslate) w
                 (drawn_from [tree]
                    (λ w1, rtp_state w1 = rtp_state w
                           ∧ game_directory_tree w1 = Some tree))).
  { apply Hsrc; clear Hsrc; try done.
    - intros w1 [H1 _]. by rewrite H1.
    - intros w1 t [_ H2] Ht. rewrite H2 in Ht. injection Ht as <-.
      by apply list_elem_of_singleton. }
  apply (holds_done _ _ _ _ _ _ Hh) in Hrun
    as [[H1 H2] [Hr|(t & Ht & Hi)]]; (split; [done|split; [done|]]).
  - by left.
  - right. apply list_elem_of_singleton in Ht. by subst.
Qed.

(** X12. With RTP disabled the top-level [FindFile] never consults the
    RTP: whatever is requested, it leaves [rtp_state] and the game tree
    as they are, and a path it returns is the path of an entry of the
    game's tree. *)
Theorem FindFile_rtp_disabled E dir name exts (tryTranslate : bool) w tree r w' :
  disable_rtp (rtp_state w) = true →
  game_directory_tree w = Some tree →
  FindFile E dir name exts tryTranslate w = Done r w' →
  rtp_state w' = rtp_state w
  ∧ game_directory_tree w' = Some tree
  ∧ (r = "" ∨ indexed tree r).
Proof. apply FindFile_without_rtp. Qed.

Lemma FindFile_rtp_disabled_witness :
  let w := with_rtp Sample.world
             {| search_paths := [Sample.rtp_tree];
                disable_rtp := true;
                game_has_full_package_flag := false;
                warning_broken_rtp_game_shown := false;
                detected_rtp := [Sample.rtp_hit];
                game_rtp := [] |} in
  disable_rtp (rtp_state w) = true
  ∧ game_directory_tree w = Some Sample.game_tree
  ∧ ∃ r w', FindFile Sample.env "CharSet" "a" IMG_TYPES true w = Done r w'
            ∧ r = ""
            ∧ rtp_state w' = rtp_state w
            ∧ game_directory_tree w' = Some Sample.game_tree
            ∧ (r = "" ∨ indexed Sample.game_tree r).
Proof.
  intros w. split; [reflexivity|]. split; [reflexivity|].
  destruct (FindFile Sample.env "CharSet" "a" IMG_TYPES true w)
    as [r w'|f] eqn:Hrun; [|by vm_compute in Hrun].
  assert (Hr : r = "").
  { vm_compute in Hrun. by injection Hrun as <- _. }
  exists r, w'. split; [reflexivity|]. split; [exact Hr|].
  apply (FindFile_rtp_disabled Sample.env "CharSet" "a" IMG_TYPES true w
           Sample.game_tree r w'); [reflexivity | reflexivity | exact Hrun].
Defined.

(** ** The index a scan builds *)

Lemma last_with_key_Some E k l n :
  last_with_key E k l = Some n → n ∈ l ∧ Normalize E n = k.
Proof.
  unfold last_with_key. intros H. apply last_Some_elem_of in H.
  apply list_elem_of_In, List.filter_In in H as [Hin Hk].
  split; [by apply list_elem_of_In|]. by apply String.eqb_eq in Hk.
Qed.

Lemma recorded_member m want cls n :
  n ∈ recorded m want cls
  ↔ (n, want) ∈ cls ∧ is_dot n = false ∧ keeps m want = true.
Proof.
  unfold recorded. rewrite list_elem_of_In, in_map_iff. split.
  - intros ([n' d] & <- & Hin). apply List.filter_In in Hin as [Hin Hc].
    simpl in Hc. apply andb_true_iff in Hc as [Hc Heq].
    apply andb_true_iff in Hc as [Hdot Hk].
    apply Bool.eqb_prop in Heq. subst d. simpl.
    split; [by apply list_elem_of_In|]. split; [by apply negb_true_iff | done].
  - intros (Hin & Hdot & Hk). exists (n, want). split; [done|].
    apply List.filter_In. split; [by apply list_elem_of_In|].
    simpl. rewrite Hdot, Hk. simpl. by destruct want.
Qed.

Lemma classify_names E path fast entries n :
  (∃ d, (n, d) ∈ classify E path fast entries) ↔ (∃ type, (n, type) ∈ entries).
Proof.
  revert fast. induction entries as [|[name type] entries IH]; intros fast.
  - split; intros [? H]; by apply elem_of_nil in H.
  - cbn [classify]. split.
    + intros [d [H|H]%elem_of_cons].
      * injection H as -> _. exists type. by left.
      * destruct (proj1 (IH _) (ex_intro _ d H)) as [type' Hin].
        exists type'. by right.
    + intros [type' [H|H]%elem_of_cons].
      * injection H as -> _. eexists. by left.
      * destruct (proj2 (IH (next_fast fast type)) (ex_intro _ type' H)) as [d Hin].
        exists d. by right.
Qed.

Lemma recorded_unkept m want cls : keeps m want = false → recorded m want cls = [].
Proof.
  intros Hk. destruct (recorded m want cls) as [|n l] eqn:Hr; [done|].
  assert (Hin : n ∈ recorded m want cls) by (rewrite Hr; by left).
  apply recorded_member in Hin as (_ & _ & Hk'). congruence.
Qed.

(** X13. The index of a flat scan is sound and complete. Every entry
    of the two maps maps the normalised form of a name to that name, the
    name is one the directory listing reported, and it is neither [.] nor
    [..]. In the mode [ALL] every reported name other than [.] and [..] can
    be looked up by its normalised form. In the mode [FILES] no directory
    is recorded, in the mode [DIRECTORIES] no file. *)
Theorem flat_scan_index E fuel path m parent w entries :
  m ≠ RECURSIVE →
  Exists E path = true → IsDirectory E path = true →
  ReadDirectory E path = Some entries →
  ∃ r w',
    GetDirectoryMembers E (S fuel) path m parent w = Done r w'
    ∧ (∀ k n, dir_files r !! k = Some n ∨ dir_directories r !! k = Some n →
         k = Normalize E n ∧ is_dot n = false ∧ ∃ type, (n, type) ∈ entries)
    ∧ (m = ALL → ∀ n type, (n, type) ∈ entries → is_dot n = false →
         is_Some (dir_files r !! Normalize E n)
         ∨ is_Some (dir_directories r !! Normalize E n))
    ∧ (m = FILES → dir_directories r = ∅)
    ∧ (m = DIRECTORIES → dir_files r = ∅).
Proof.
  intros Hm Hex Hdir Hread.
  destruct (flat_scan_records E fuel path m parent w entries Hm Hex Hdir Hread)
    as (r & w' & Hrun & Hf & Hd & _).
  set (cls := classify E path (has_fast_dir_stat w) entries) in *.
  exists r, w'. split; [done|]. split; [|split; [|split]].
  - assert (Hsound : ∀ want k n,
              last_with_key E k (recorded m want cls) = Some n →
              k = Normalize E n ∧ is_dot n = false ∧ ∃ type, (n, type) ∈ entries).
    { intros want k n H. apply last_with_key_Some in H as [Hin Hk].
      apply recorded_member in Hin as (Hin & Hdot & _).
      split; [done|]. split; [done|].
      apply (classify_names E path (has_fast_dir_stat w)). by exists want. }
    intros k n [H|H]; [rewrite Hf in H | rewrite Hd in H]; by eapply Hsound.
  - intros -> n type Hin Hdot.
    destruct (proj2 (classify_names E path (has_fast_dir_stat w) entries n)
                (ex_intro _ type Hin)) as [d Hcls]. fold cls in Hcls.
    assert (Hrec : n ∈ recorded ALL d cls) by (by apply recorded_member).
    assert (Hsome : is_Some (last_with_key E (Normalize E n) (recorded ALL d cls))).
    { assert (Hb : bool_decide
                     (is_Some (last_with_key E (Normalize E n) (recorded ALL d cls)))
                   = true).
      { rewrite is_Some_last_with_key. apply existsb_exists. exists n.
        split; [by apply list_elem_of_In|]. apply String.eqb_refl. }
      by apply bool_decide_eq_true in Hb. }
    destruct d; [right; by rewrite Hd | left; by rewrite Hf].
  - intros ->. apply map_empty. intros k. rewrite Hd.
    by rewrite recorded_unkept.
  - intros ->. apply map_empty. intros k. rewrite Hf.
    by rewrite recorded_unkept.
Qed.

Lemma flat_scan_index_witness :
  ALL ≠ RECURSIVE
  ∧ Exists Sample.env "/game" = true ∧ IsDirectory Sample.env "/game" = true
  ∧ ∃ entries, ReadDirectory Sample.env "/game" = Some entries
  ∧ ∃ r w',
      GetDirectoryMembers Sample.env 1 "/game" ALL "" Sample.world = Done r w'
      ∧ dir_files r !! "rpg_rt.ldb" = Some "RPG_RT.ldb"
      ∧ (∀ k n, dir_files r !! k = Some n ∨ dir_directories r !! k = Some n →
           k = Normalize Sample.env n ∧ is_dot n = false
           ∧ ∃ type, (n, type) ∈ entries)
      ∧ (is_Some (dir_files r !! Normalize Sample.env "Music")
         ∨ is_Some (dir_directories r !! Normalize Sample.env "Music")).
Proof.
  split; [discriminate|]. split; [reflexivity|]. split; [reflexivity|].
  eexists. split; [reflexivity|].
  destruct (flat_scan_index Sample.env 0 "/game" ALL "" Sample.world _
              ltac:(discriminate) eq_refl eq_refl eq_refl)
    as (r & w' & Hrun & Hsound & Hall & _).
  exists r, w'. split; [exact Hrun|]. split.
  - vm_compute in Hrun. injection Hrun as <- _. reflexivity.
  - split; [exact Hsound|].
    apply (Hall eq_refl "Music" FtDirectory); [|reflexivity].
    apply list_elem_of_In. simpl. tauto.
Defined.

(** ** The save directory *)

(** X14. [CreateSaveDirectoryTree] is [CreateDirectoryTree] in the mode
    [FILES], and the tree it returns lists no directory and no member
    map: every directory it lists (there is none) has its member map, so
    a lookup in a save tree cannot reach the unchecked dereference of
    [FindFile]. *)
Theorem save_tree_has_no_directories E fuel save_path w :
  CreateSaveDirectoryTree E fuel save_path w
  = CreateDirectoryTree E fuel save_path FILES w
  ∧ ∀ t w', CreateSaveDirectoryTree E fuel save_path w = Done (Some t) w' →
      directory_path t = save_path
      ∧ directories t = ∅ ∧ sub_members t = ∅ ∧ tree_ok t.
Proof.
  split.
  { unfold CreateSaveDirectoryTree, CreateDirectoryTree.
    destruct (negb _); [done|]. unfold mbind, M_bind, bind.
    by destruct (GetDirectoryMembers E fuel save_path FILES "" w). }
  intros t w' Hrun. unfold CreateSaveDirectoryTree in Hrun.
  destruct (Exists E save_path) eqn:Hex; [|done].
  destruct (IsDirectory E save_path) eqn:Hdir; [|done].
  cbn [andb negb] in Hrun. destruct fuel as [|fuel]; [done|].
  destruct (flat_scan_total E fuel save_path FILES "" w ltac:(done) Hex Hdir)
    as (r0 & w0 & Hrun0 & Hdirs).
  unfold mbind, M_bind, bind in Hrun. rewrite Hrun0 in Hrun.
  injection Hrun as <- <-. cbn [directory_path directories sub_members].
  assert (Hempty : dir_directories r0 = ∅).
  { apply map_empty. intros k.
    destruct (dir_directories r0 !! k) as [n|] eqn:Hk; [|done].
    destruct (Hdirs k n Hk) as (entries & _ & Hin).
    rewrite recorded_unkept in Hin by done. by apply elem_of_nil in Hin. }
  split; [done|]. split; [done|]. split; [done|].
  intros k [x Hx]. cbn [directories] in Hx. rewrite Hempty in Hx.
  by rewrite lookup_empty in Hx.
Qed.

Lemma save_tree_has_no_directories_witness :
  ∃ t w', CreateSaveDirectoryTree SaveSample.env 1 "/save" Sample.world
          = Done (Some t) w'
          ∧ files t !! "save03.lsd" = Some "save03.LSD"
          ∧ directories t = ∅ ∧ tree_ok t.
Proof.
  destruct (CreateSaveDirectoryTree SaveSample.env 1 "/save" Sample.world)
    as [[t|] w'|f] eqn:Hrun; [|by vm_compute in Hrun..].
  exists t, w'. split; [reflexivity|].
  destruct (proj2 (save_tree_has_no_directories SaveSample.env 1 "/save" Sample.world)
              t w' Hrun) as (_ & Hd & _ & Hok).
  split; [|by split].
  vm_compute in Hrun. injection Hrun as <- _. reflexivity.
Defined.

Lemma str_all_subset p alphabet s :
  str_all p alphabet = true →
  str_all (λ c, Str.has_char c alphabet) s = true →
  str_all p s = true.
Proof.
  intros Ha.
  assert (Hc : ∀ c, Str.has_char c alphabet = true → p c = true).
  { intros c. induction alphabet as [|d r IH]; simpl in *; [done|].
    apply andb_true_iff in Ha as [Hd Hr].
    intros [Heq|Hin]%orb_true_iff; [|by apply IH].
    apply Ascii.eqb_eq in Heq. by subst. }
  induction s as [|c r IH]; simpl; [done|].
  intros [H1 H2]%andb_true_iff. by rewrite (Hc c H1), IH.
Qed.

Lemma save_name_alphabet :
  Forall (λ i, str_all (λ c, Str.has_char c "Save0123456789.lsd") (save_name i) = true)
    (seq 1 15).
Proof. repeat (constructor; [vm_compute; reflexivity|]). constructor. Qed.

Lemma save_names_clean esc i :
  delimiter_free esc "Save0123456789.lsd" = true →
  i ∈ seq 1 15 → delimiter_free esc (save_name i) = true.
Proof.
  intros Ha Hi. pose proof save_name_alphabet as Hall.
  rewrite Forall_forall in Hall. eapply str_all_subset; [exact Ha|].
  by apply Hall.
Qed.

Lemma count_savegames_run E t names slots count w :
  directory_path t ≠ "" →
  (∀ k, files t !! k = last_with_key E k names) →
  (∀ i, i ∈ slots → delimiter_free (escape_symbol E) (save_name i) = true) →
  count_savegames E (Some t) slots count w
  = Done (count
          + Z.of_nat (List.length
               (List.filter
                  (λ i, existsb (same_key E (Normalize E (save_name i))) names)
                  slots))) w.
Proof.
  intros Hne Hfiles. revert count.
  induction slots as [|i slots IH]; intros count Hclean.
  { simpl. by rewrite Z.add_0_r. }
  cbn [count_savegames List.filter]. unfold mbind, M_bind, bind.
  unfold FindDefault_tree_name.
  rewrite SplitPath_clean by (apply Hclean; by left). cbn [List.length Nat.ltb Nat.leb].
  rewrite Hfiles.
  pose proof (is_Some_last_with_key E (Normalize E (save_name i)) names) as Hsome.
  destruct (last_with_key E (Normalize E (save_name i)) names) as [original|].
  - rewrite bool_decide_eq_true_2 in Hsome by eauto. rewrite <- Hsome.
    unfold ret. rewrite is_empty_neq.
    + cbn [negb]. rewrite IH by (intros j Hj; apply Hclean; by right).
      cbn [List.length]. f_equal. lia.
    + rewrite MakePath_nonempty_dir by done.
      intros Heq. apply string_app_eq_nil in Heq as [Heq _].
      by apply replace_char_empty in Heq.
  - rewrite bool_decide_eq_false_2 in Hsome by (by intros [? ?]).
    rewrite <- Hsome. unfold ret. cbn [Str.is_empty negb].
    rewrite IH by (intros j Hj; apply Hclean; by right). done.
Qed.

(** X15. [GetSavegames] counts the save slots that are present: with a
    save directory that exists and can be listed, it returns the number
    of slots 1 to 15 for which the directory holds a file (not a
    directory) whose name normalises like [SaveNN.lsd]; the result lies
    between 0 and 15, [HasSavegame] tells whether it is positive, and the
    log is left as it was. The save path must not be empty and the
    leading character of the escape symbol must not occur in a save file
    name. *)
Theorem GetSavegames_counts E fuel save_path w entries :
  save_path ≠ "" →
  Exists E save_path = true → IsDirectory E save_path = true →
  ReadDirectory E save_path = Some entries →
  delimiter_free (escape_symbol E) "Save0123456789.lsd" = true →
  let names :=
    recorded FILES false (classify E save_path (has_fast_dir_stat w) entries) in
  let count := Z.of_nat (List.length (present_slots E names)) in
  ∃ w', GetSavegames E (S fuel) save_path w = Done count w'
        ∧ HasSavegame E (S fuel) save_path w = Done (0 <? count) w'
        ∧ output w' = output w
        ∧ 0 ≤ count ≤ 15.
Proof.
  intros Hne Hex Hdir Hread Hclean names count.
  destruct (flat_scan_records E fuel save_path FILES "" w entries
              ltac:(done) Hex Hdir Hread) as (r & w' & Hrun & Hf & _ & Ho).
  fold names in Hf.
  rewrite recorded_unkept in Ho by done. simpl in Ho. rewrite app_nil_r in Ho.
  assert (Hget : GetSavegames E (S fuel) save_path w = Done count w').
  { unfold GetSavegames, CreateSaveDirectoryTree. rewrite Hex, Hdir.
    cbn [andb negb]. unfold mbind, M_bind, bind. rewrite Hrun. unfold ret.
    rewrite (count_savegames_run E _ names); [done|done|done|].
    intros i Hi. by apply save_names_clean. }
  exists w'. split; [exact Hget|]. split.
  { unfold HasSavegame, mbind, M_bind, bind. by rewrite Hget. }
  split; [exact Ho|]. split; [lia|].
  unfold count, present_slots.
  pose proof (List.filter_length_le
                (λ i, existsb (same_key E (Normalize E (save_name i))) names)
                (seq 1 15)) as Hle.
  rewrite length_seq in Hle. lia.
Qed.

Lemma GetSavegames_counts_witness :
  "/save" ≠ ""
  ∧ Exists SaveSample.env "/save" = true ∧ IsDirectory SaveSample.env "/save" = true
  ∧ delimiter_free (escape_symbol SaveSample.env) "Save0123456789.lsd" = true
  ∧ ∃ entries, ReadDirectory SaveSample.env "/save" = Some entries
  ∧ present_slots SaveSample.env
      (recorded FILES false
         (classify SaveSample.env "/save" (has_fast_dir_stat Sample.world) entries))
    = [1; 3]%nat
  ∧ ∃ w', GetSavegames SaveSample.env 1 "/save" Sample.world = Done 2 w'
          ∧ HasSavegame SaveSample.env 1 "/save" Sample.world = Done true w'
          ∧ output w' = output Sample.world
          ∧ 0 ≤ 2 ≤ 15.
Proof.
  split; [discriminate|]. split; [reflexivity|]. split; [reflexivity|].
  split; [reflexivity|]. eexists. split; [reflexivity|]. split; [reflexivity|].
  exact (GetSavegames_counts SaveSample.env 0 "/save" Sample.world _
           ltac:(discriminate) eq_refl eq_refl eq_refl eq_refl).
Defined.

(** X16. [GetSavegames] dereferences the save tree without testing it:
    when the save path does not exist or is not a directory,
    [CreateSaveDirectoryTree] returns the empty pointer and [GetSavegames]
    and [HasSavegame] fault on it in the first iteration. *)
Theorem GetSavegames_missing_directory E fuel save_path w :
  Exists E save_path && IsDirectory E save_path = false →
  CreateSaveDirectoryTree E fuel save_path w = Done None w
  ∧ GetSavegames E fuel save_path w = Crash NullDereference
  ∧ HasSavegame E fuel save_path w = Crash NullDereference.
Proof.
  intros Hno.
  assert (Hnone : CreateSaveDirectoryTree E fuel save_path w = Done None w).
  { unfold CreateSaveDirectoryTree. by rewrite Hno. }
  assert (Hget : GetSavegames E fuel save_path w = Crash NullDereference).
  { unfold GetSavegames, mbind, M_bind, bind. by rewrite Hnone. }
  split; [done|]. split; [done|].
  unfold HasSavegame, mbind, M_bind, bind. by rewrite Hget.
Qed.

Lemma GetSavegames_missing_directory_witness :
  Exists SaveSample.env "/nowhere" && IsDirectory SaveSample.env "/nowhere" = false
  ∧ CreateSaveDirectoryTree SaveSample.env 1 "/nowhere" Sample.world
    = Done None Sample.world
  ∧ GetSavegames SaveSample.env 1 "/nowhere" Sample.world = Crash NullDereference
  ∧ HasSavegame SaveSample.env 1 "/nowhere" Sample.world = Crash NullDereference.
Proof.
  split; [reflexivity|].
  exact (GetSavegames_missing_directory SaveSample.env 1 "/nowhere" Sample.world
           eq_refl).
Defined.

(** ** The recursive scan *)

Lemma scanned_silently_refl w : scanned_silently w w.
Proof. split; [done|]. split; [done|]. exists []. by rewrite app_nil_r. Qed.

Lemma scanned_silently_trans w1 w2 w3 :
  scanned_silently w1 w2 → scanned_silently w2 w3 → scanned_silently w1 w3.
Proof.
  intros (A1 & A2 & m1 & A3 & A4) (B1 & B2 & m2 & B3 & B4).
  split; [congruence|]. split; [congruence|].
  exists (m1 ++ m2). split; [by rewrite B3, A3, app_assoc | by apply Forall_app].
Qed.

Lemma scanned_silently_fast w fast : scanned_silently w (with_fast_dir_stat w fast).
Proof. split; [done|]. split; [done|]. exists []. by rewrite app_nil_r. Qed.

Lemma scan_entries_recursive_silent E recurse path parent :
  (∀ sub parent' w,
     holds false (recurse sub RECURSIVE parent') w (recursive_scan_post E w)) →
  ∀ entries result w0 w,
    dir_directories result = ∅ → keyed E (dir_files result) →
    scanned_silently w0 w →
    holds false (scan_entries E recurse path RECURSIVE parent entries result) w
      (recursive_scan_post E w0).
Proof.
  intros Hrec.
  induction entries as [|[name type] entries IH]; intros result w0 w Hd Hk Hs.
  { by apply holds_ret. }
  cbn [scan_entries]. apply holds_bind.
  unfold scan_entry. apply holds_bind.
  unfold holds at 1. rewrite entry_is_directory_run.
  set (w1 := with_fast_dir_stat w _).
  assert (Hs1 : scanned_silently w0 w1).
  { eapply scanned_silently_trans; [exact Hs | apply scanned_silently_fast]. }
  destruct (String.eqb name "." || String.eqb name "..").
  { apply holds_ret. by apply IH. }
  destruct (if next_fast _ _ then _ else _).
  - apply holds_bind. eapply holds_mono; [|apply Hrec].
    intros rdir w2 (Hd2 & Hk2 & Hs2). apply holds_ret. apply IH.
    + cbn [dir_directories]. rewrite Hd, Hd2. apply (left_id ∅ (∪)).
    + cbn [dir_files]. intros k n [H|[_ H]]%lookup_union_Some_raw;
        [by apply Hk | by apply Hk2].
    + by eapply scanned_silently_trans.
  - apply holds_ret. apply IH; [done| |done].
    cbn [dir_files with_files]. intros k n [[<- <-]|[_ H]]%lookup_insert_Some;
      [done | by apply Hk].
Qed.

Lemma GetDirectoryMembers_recursive_silent E fuel :
  ∀ path parent w,
    holds false (GetDirectoryMembers E fuel path RECURSIVE parent) w
      (recursive_scan_post E w).
Proof.
  induction fuel as [|fuel IH]; intros path parent w; [done|].
  cbn [GetDirectoryMembers]. unfold GetDirectoryMembers_body.
  apply holds_bind. unfold assert at 1.
  destruct (Exists E path); [apply holds_ret|done].
  apply holds_bind. unfold assert at 1.
  destruct (IsDirectory E path); [apply holds_ret|done].
  destruct (ReadDirectory E path) as [entries|].
  - apply scan_entries_recursive_silent; [exact IH|done| |apply scanned_silently_refl].
    intros k n H. cbn [dir_files] in H. by rewrite lookup_empty in H.
  - apply holds_bind, holds_say, holds_ret.
    split; [done|].
    split; [intros k n H; cbn [dir_files] in H; by rewrite lookup_empty in H|].
    split; [done|]. split; [done|]. exists [DbgErrorOpeningDir path].
    split; [done|]. repeat constructor. by eexists.
Qed.

(** X17. A scan in the mode [RECURSIVE] records no directory and is
    silent about collisions: when it returns, its directory map is empty,
    every file is keyed by the normalised form of the path recorded for
    it, the RTP state and the game tree are untouched, and the only lines
    it logged report directories that could not be opened. The warnings
    of the flat scan for directories that differ in case only are never
    given here, although such directories are merged. *)
Theorem recursive_scan_silent E fuel path parent w r w' :
  GetDirectoryMembers E fuel path RECURSIVE parent w = Done r w' →
  dir_directories r = ∅
  ∧ keyed E (dir_files r)
  ∧ scanned_silently w w'.
Proof.
  intros Hrun.
  exact (holds_done _ _ _ _ _ _
           (GetDirectoryMembers_recursive_silent E fuel path parent w) Hrun).
Qed.

Lemma recursive_scan_silent_witness :
  ∃ r w', GetDirectoryMembers Sample.env 2 "/game" RECURSIVE "" Sample.world
          = Done r w'
          ∧ dir_files r !! "music/town.ogg" = Some "Music/Town.ogg"
          ∧ output w' = []
          ∧ dir_directories r = ∅
          ∧ keyed Sample.env (dir_files r)
          ∧ scanned_silently Sample.world w'.
Proof.
  destruct (GetDirectoryMembers Sample.env 2 "/game" RECURSIVE "" Sample.world)
    as [r w'|f] eqn:Hrun; [|by vm_compute in Hrun].
  exists r, w'. split; [reflexivity|].
  pose proof (recursive_scan_silent Sample.env 2 "/game" "" Sample.world r w' Hrun)
    as Hsilent.
  vm_compute in Hrun. injection Hrun as <- <-.
  split; [reflexivity|]. split; [reflexivity|]. exact Hsilent.
Defined.

(** ** Setting up the game tree *)

Lemma GetDirectoryMembers_frame E fuel path m parent w r w' :
  GetDirectoryMembers E fuel path m parent w = Done r w' →
  rtp_state w' = rtp_state w ∧ game_directory_tree w' = game_directory_tree w.
Proof.
  intros Hrun.
  assert (Hcase : m = RECURSIVE ∨ m ≠ RECURSIVE)
    by (destruct m; (by left) || (by right)).
  destruct Hcase as [->|Hm].
  { pose proof (holds_done _ _ _ _ _ _
                  (GetDirectoryMembers_recursive_silent E fuel path parent w) Hrun)
      as (_ & _ & H1 & H2 & _). done. }
  destruct fuel as [|fuel]; [done|].
  cbn [GetDirectoryMembers] in Hrun. unfold GetDirectoryMembers_body in Hrun.
  unfold mbind, M_bind, bind, assert in Hrun.
  destruct (Exists E path); [|done]. destruct (IsDirectory E path); [|done].
  simpl in Hrun. destruct (ReadDirectory E path) as [entries|].
  - destruct (scan_entries_flat E (GetDirectoryMembers E fuel) path m parent entries Hm
                {| base := path; dir_files := ∅; dir_directories := ∅ |} w [] [])
      as (r0 & w0 & fast' & Hrun0 & _ & _ & _ & _ & H1 & H2); [done..|].
    rewrite Hrun0 in Hrun. by injection Hrun as _ <-.
  - by injection Hrun as _ <-.
Qed.

Lemma fill_sub_members_frame E fuel p dirs :
  ∀ subs w subs' w',
    fill_sub_members E fuel p dirs subs w = Done subs' w' →
    rtp_state w' = rtp_state w ∧ game_directory_tree w' = game_directory_tree w.
Proof.
  induction dirs as [|[key original] dirs IH]; intros subs w subs' w' Hrun.
  - by injection Hrun as _ <-.
  - cbn [fill_sub_members] in Hrun. unfold mbind, M_bind, bind in Hrun.
    destruct (GetDirectoryMembers E fuel (MakePath p original) RECURSIVE "" w)
      as [rdir w1|] eqn:Hscan; [|done].
    apply GetDirectoryMembers_frame in Hscan as [H1 H2].
    apply IH in Hrun as [H3 H4]. split; congruence.
Qed.

Lemma CreateDirectoryTree_frame E fuel p mode w t w' :
  CreateDirectoryTree E fuel p mode w = Done t w' →
  rtp_state w' = rtp_state w ∧ game_directory_tree w' = game_directory_tree w.
Proof.
  unfold CreateDirectoryTree. destruct (negb _).
  { intros Hrun. by injection Hrun as _ <-. }
  unfold mbind, M_bind, bind.
  destruct (GetDirectoryMembers E fuel p _ "" w) as [mem w1|] eqn:Hscan; [|done].
  apply GetDirectoryMembers_frame in Hscan as [H1 H2].
  destruct mode.
  1-3: intros Hrun; injection Hrun as _ <-; done.
  destruct (fill_sub_members E fuel p _ ∅ w1) as [subs w2|] eqn:Hfill; [|done].
  apply fill_sub_members_frame in Hfill as [H3 H4].
  intros Hrun. injection Hrun as _ <-. split; congruence.
Qed.

(** X18. Setting up the game tree makes the lookups total. On a
    platform whose answers fit together, [CreateDirectoryTree] in the mode
    [RECURSIVE] returns a tree and leaves the RTP state as it is; once
    [SetDirectoryTree] has installed that tree, every top-level [FindFile]
    whose extensions hold no path delimiter returns, and with the RTP
    disabled every top-level [FindFile] does, provided the escape symbol
    is one the substitution loop terminates for and the RTP trees have the
    member maps of their directories. *)
Theorem game_tree_setup E depth fuel p w :
  platform_consistent E depth → sane_escape E →
  Exists E p = true → IsDirectory E p = true → (depth p < fuel)%nat →
  Forall tree_ok (search_paths (rtp_state w)) →
  Forall (λ h, tree_ok (hit_tree h)) (detected_rtp (rtp_state w)) →
  ∃ tree w1 w2,
    CreateDirectoryTree E fuel p RECURSIVE w = Done (Some tree) w1
    ∧ SetDirectoryTree (Some tree) w1 = Done tt w2
    ∧ directory_path tree = p
    ∧ rtp_state w2 = rtp_state w
    ∧ world_ok w2
    ∧ ∀ dir name exts (tryTranslate : bool),
        exts_plain E exts ∨ disable_rtp (rtp_state w) = true →
        ∃ r w3, FindFile E dir name exts tryTranslate w2 = Done r w3
                ∧ world_ok w3.
Proof.
  intros Hcons Hsane Hex Hdir Hdepth Hpaths Hdet.
  destruct (CreateDirectoryTree_total E depth fuel p RECURSIVE w Hcons Hex Hdir Hdepth)
    as (tree & w1 & Hrun & Hpath & Hok).
  destruct (CreateDirectoryTree_frame E fuel p RECURSIVE w _ w1 Hrun) as [Hst _].
  eexists tree, w1, _. split; [exact Hrun|]. split; [reflexivity|].
  split; [exact Hpath|]. split; [exact Hst|].
  set (w2 := {| rtp_state := rtp_state w1;
                game_rtp_writes := game_rtp_writes w1;
                game_directory_tree := Some tree;
                has_fast_dir_stat := has_fast_dir_stat w1;
                output := output w1 |}).
  assert (Hw2 : world_ok w2).
  { split; [|split]; cbn [w2 rtp_state game_directory_tree].
    - exists tree. split; [done|]. by apply Hok.
    - by rewrite Hst.
    - by rewrite Hst. }
  split; [exact Hw2|].
  intros dir name exts tryTranslate Hrtp.
  destruct (FindFile_total E dir name exts tryTranslate w2 Hsane Hw2)
    as (r & w3 & Hfind & Hok3 & _).
  { destruct Hrtp as [?|Hoff]; [by left|]. right. cbn [w2 rtp_state].
    by rewrite Hst. }
  by exists r, w3.
Qed.

Lemma game_tree_setup_witness :
  platform_consistent Sample.env Sample.depth ∧ sane_escape Sample.env
  ∧ Exists Sample.env "/game" = true ∧ IsDirectory Sample.env "/game" = true
  ∧ (Sample.depth "/game" < 2)%nat
  ∧ Forall tree_ok (search_paths (rtp_state Sample.world))
  ∧ Forall (λ h, tree_ok (hit_tree h)) (detected_rtp (rtp_state Sample.world))
  ∧ ∃ tree w1 w2,
      CreateDirectoryTree Sample.env 2 "/game" RECURSIVE Sample.world
      = Done (Some tree) w1
      ∧ SetDirectoryTree (Some tree) w1 = Done tt w2
      ∧ directory_path tree = "/game"
      ∧ rtp_state w2 = rtp_state Sample.world
      ∧ world_ok w2
      ∧ ∀ dir name exts (tryTranslate : bool),
          exts_plain Sample.env exts
          ∨ disable_rtp (rtp_state Sample.world) = true →
          ∃ r w3, FindFile Sample.env dir name exts tryTranslate w2 = Done r w3
                  ∧ world_ok w3.
Proof.
  pose proof sample_world_ok as (_ & Hp & Hd).
  split; [apply sample_platform_consistent|]. split; [apply sample_sane|].
  split; [reflexivity|]. split; [reflexivity|]. split; [vm_compute; lia|].
  split; [exact Hp|]. split; [exact Hd|].
  apply (game_tree_setup Sample.env Sample.depth 2 "/game" Sample.world);
    [apply sample_platform_consistent | apply sample_sane | reflexivity
    | reflexivity | vm_compute; lia | exact Hp | exact Hd].
Defined.

(** X19. A fresh start. [Quit] resets the RTP state to its defaults
    (RTP disabled, nothing detected) and drops the game tree, after which
    every top-level lookup faults on the empty pointer. Once a tree built
    by [CreateDirectoryTree] in the mode [RECURSIVE] is installed with
    [SetDirectoryTree], every [FindFile] returns, its result is empty or
    the path of an entry of that tree, and the RTP state stays at its
    defaults. *)
Theorem fresh_start E depth fuel p w :
  platform_consistent E depth → sane_escape E →
  Exists E p = true → IsDirectory E p = true → (depth p < fuel)%nat →
  ∃ w0 tree w1 w2, Quit w = Done tt w0
    ∧ rtp_state w0 = rtp_state_default
    ∧ (∀ dir name exts (tryTranslate : bool),
         FindFile E dir name exts tryTranslate w0 = Crash NullDereference)
    ∧ (∀ path_in, GetPathInsideGamePath path_in w0 = Crash NullDereference)
    ∧ CreateDirectoryTree E fuel p RECURSIVE w0 = Done (Some tree) w1
    ∧ SetDirectoryTree (Some tree) w1 = Done tt w2
    ∧ ∀ dir name exts (tryTranslate : bool),
        ∃ r w3, FindFile E dir name exts tryTranslate w2 = Done r w3
                ∧ (r = "" ∨ indexed tree r)
                ∧ rtp_state w3 = rtp_state_default.
Proof.
  intros Hcons Hsane Hex Hdir Hdepth.
  set (w0 := {| rtp_state := rtp_state_default;
                game_rtp_writes := S (game_rtp_writes w);
                game_directory_tree := None;
                has_fast_dir_stat := has_fast_dir_stat w;
                output := output w |}).
  destruct (CreateDirectoryTree_total E depth fuel p RECURSIVE w0 Hcons Hex Hdir Hdepth)
    as (tree & w1 & Hrun & Hpath & Hok).
  destruct (CreateDirectoryTree_frame E fuel p RECURSIVE w0 _ w1 Hrun) as [Hst _].
  exists w0, tree, w1. eexists. split; [reflexivity|]. split; [reflexivity|].
  split; [done|]. split; [done|]. split; [exact Hrun|]. split; [reflexivity|].
  set (w2 := {| rtp_state := rtp_state w1;
                game_rtp_writes := game_rtp_writes w1;
                game_directory_tree := Some tree;
                has_fast_dir_stat := has_fast_dir_stat w1;
                output := output w1 |}).
  assert (Hw2 : world_ok w2).
  { split; [|split]; cbn [w2 rtp_state game_directory_tree].
    - exists tree. split; [done|]. by apply Hok.
    - rewrite Hst. constructor.
    - rewrite Hst. constructor. }
  intros dir name exts tryTranslate.
  destruct (FindFile_total E dir name exts tryTranslate w2 Hsane Hw2)
    as (r & w3 & Hfind & _).
  { right. cbn [w2 rtp_state]. by rewrite Hst. }
  exists r, w3. split; [exact Hfind|].
  destruct (FindFile_without_rtp E dir name exts tryTranslate w2 tree r w3)
    as (H1 & _ & H3); [by cbn; rewrite Hst | done | exact Hfind |].
  split; [exact H3|]. rewrite H1. exact Hst.
Qed.

Lemma fresh_start_witness :
  platform_consistent Sample.env Sample.depth ∧ sane_escape Sample.env
  ∧ Exists Sample.env "/game" = true ∧ IsDirectory Sample.env "/game" = true
  ∧ (Sample.depth "/game" < 2)%nat
  ∧ ∃ w0 tree w1 w2, Quit Sample.world = Done tt w0
      ∧ rtp_state w0 = rtp_state_default
      ∧ (∀ dir name exts (tryTranslate : bool),
           FindFile Sample.env dir name exts tryTranslate w0 = Crash NullDereference)
      ∧ (∀ path_in, GetPathInsideGamePath path_in w0 = Crash NullDereference)
      ∧ CreateDirectoryTree Sample.env 2 "/game" RECURSIVE w0 = Done (Some tree) w1
      ∧ SetDirectoryTree (Some tree) w1 = Done tt w2
      ∧ ∀ dir name exts (tryTranslate : bool),
          ∃ r w3, FindFile Sample.env dir name exts tryTranslate w2 = Done r w3
                  ∧ (r = "" ∨ indexed tree r)
                  ∧ rtp_state w3 = rtp_state_default.
Proof.
  split; [apply sample_platform_consistent|]. split; [apply sample_sane|].
  split; [reflexivity|]. split; [reflexivity|]. split; [vm_compute; lia|].
  apply (fresh_start Sample.env Sample.depth 2 "/game" Sample.world);
    [apply sample_platform_consistent | apply sample_sane | reflexivity
    | reflexivity | vm_compute; lia].
Defined.

(** ** The substitution loop for a one-character escape symbol *)

Lemma find_single_None c s :
  Str.find (String c "") s = None → Str.has_char c s = false.
Proof.
  induction s as [|d r IH]; [done|].
  cbn [Str.find String.prefix]. destruct (ascii_dec c d) as [->|Hcd].
  - by destruct r.
  - destruct (Str.find (String c "") r); [done|]. intros _. simpl.
    rewrite IH by done. rewrite orb_false_r. apply Ascii.eqb_neq. congruence.
Qed.

Lemma find_single_Some c s pos :
  Str.find (String c "") s = Some pos → Str.has_char c (Str.take pos s) = false.
Proof.
  revert pos. induction s as [|d r IH]; intros pos; [done|].
  cbn [Str.find String.prefix]. destruct (ascii_dec c d) as [->|Hcd].
  - destruct r; by intros [= <-].
  - destruct (Str.find (String c "") r) as [n|] eqn:Hf; [|done].
    intros [= <-]. simpl. rewrite (IH n) by done. rewrite orb_false_r.
    apply Ascii.eqb_neq. congruence.
Qed.

Lemma replace_char_self_in c b : Str.replace_char c b (String c "") = String b "".
Proof. simpl. by rewrite Ascii.eqb_refl. Qed.

Lemma replace_escape_single_enough c fuel s :
  c ≠ Str.slash → (weight s ≤ fuel)%nat →
  replace_escape fuel (String c "") s = Some (Str.replace_char c Str.slash s).
Proof.
  intros Hc. assert (Hw2 : weight (String c "") = 2%nat).
  { simpl. apply Ascii.eqb_neq in Hc. by rewrite Hc. }
  revert s. induction fuel as [|fuel IH]; intros s Hw.
  - destruct (Str.find (String c "") s) as [pos|] eqn:Hf.
    + apply find_split in Hf. rewrite Hf in Hw. rewrite !weight_app in Hw. lia.
    + simpl. rewrite Hf. f_equal. symmetry. apply replace_char_absent.
      by apply find_single_None.
  - cbn [replace_escape]. destruct (Str.find (String c "") s) as [pos|] eqn:Hf.
    + pose proof (find_single_Some c s pos Hf) as Hpre.
      apply find_split in Hf.
      set (pre := Str.take pos s) in *.
      set (post := Str.drop (pos + String.length (String c "")) s) in *.
      rewrite IH.
      * f_equal. rewrite Hf at 1. rewrite !replace_char_app, replace_char_self_in.
        assert (Hs : Str.replace_char c Str.slash "/" = String Str.slash "").
        { cbn [Str.replace_char]. by destruct (Ascii.eqb _ c). }
        by rewrite Hs.
      * rewrite Hf in Hw. rewrite !weight_app in Hw. rewrite !weight_app.
        simpl weight at 2. lia.
    + f_equal. symmetry. apply replace_char_absent. by apply find_single_None.
Qed.

Lemma replace_escape_result fuel esc s s' :
  replace_escape fuel esc s = Some s' → Str.find esc s' = None.
Proof.
  revert s. induction fuel as [|fuel IH]; intros s; cbn [replace_escape];
    destruct (Str.find esc s) eqn:Hf; try done.
  - by intros [= <-].
  - apply IH.
  - by intros [= <-].
Qed.

(** X20. What the substitution loop of [FindFile] computes. Whenever
    it ends, the name it leaves holds no occurrence of the escape symbol.
    For an escape symbol of one character other than the slash, within
    the bound of the embedding it is [std::replace]: every occurrence of
    that character has become a slash and nothing else has changed. *)
Theorem replace_escape_is_replace :
  (∀ fuel esc s s',
     replace_escape fuel esc s = Some s' → Str.find esc s' = None)
  ∧ (∀ c s, c ≠ Str.slash →
       replace_escape (2 * String.length s) (String c "") s
       = Some (Str.replace_char c Str.slash s)).
Proof.
  split; [apply replace_escape_result|].
  intros c s Hc. apply replace_escape_single_enough; [done | apply weight_length].
Qed.

Lemma replace_escape_is_replace_witness :
  replace_escape 10 "\" "a\b\\c" = Some "a/b//c"
  ∧ Str.find "\" "a/b//c" = None
  ∧ Str.backslash ≠ Str.slash
  ∧ replace_escape (2 * String.length "a\b\\c") "\" "a\b\\c"
    = Some (Str.replace_char Str.backslash Str.slash "a\b\\c").
Proof.
  assert (Hrun : replace_escape 10 "\" "a\b\\c" = Some "a/b//c") by reflexivity.
  split; [exact Hrun|].
  split; [exact (proj1 replace_escape_is_replace 10%nat "\" "a\b\\c" "a/b//c" Hrun)|].
  split; [discriminate|].
  apply (proj2 replace_escape_is_replace Str.backslash "a\b\\c"). discriminate.
Defined.

(** ** The depth budget of the canonicaliser *)

Lemma step_budget d st st0 seg :
  CanonSpec.retained st = CanonSpec.retained st0 →
  CanonSpec.depth st0 = 0 →
  CanonSpec.depth st
  = (if decide (0 < d) then Z.max (d - Z.of_nat (CanonSpec.clamped st0)) 0 else d) →
  CanonSpec.clamped st = Z.to_nat (Z.of_nat (CanonSpec.clamped st0) - Z.max d 0) →
  let st' := CanonSpec.step st seg in
  let st0' := CanonSpec.step st0 seg in
  CanonSpec.retained st' = CanonSpec.retained st0'
  ∧ CanonSpec.depth st0' = 0
  ∧ CanonSpec.depth st'
    = (if decide (0 < d) then Z.max (d - Z.of_nat (CanonSpec.clamped st0')) 0 else d)
  ∧ CanonSpec.clamped st' = Z.to_nat (Z.of_nat (CanonSpec.clamped st0') - Z.max d 0).
Proof.
  intros HR H0 Hd Hk. cbv zeta. unfold CanonSpec.step.
  destruct (decide (seg = "." ∨ seg = "")); [done|].
  destruct (decide (seg = "..")).
  - rewrite <- HR. destruct (CanonSpec.retained st) as [|x l] eqn:HRst.
    + rewrite H0. destruct (decide (0 < 0)) as [?|_]; [lia|].
      destruct (decide (0 < CanonSpec.depth st)) as [Hpos|Hneg];
        cbn [CanonSpec.retained CanonSpec.depth CanonSpec.clamped];
        (split; [done|]); (split; [done|]);
        rewrite Hd in *; destruct (decide (0 < d)); split; lia.
    + cbn [CanonSpec.retained CanonSpec.depth CanonSpec.clamped]. done.
  - cbn [CanonSpec.retained CanonSpec.depth CanonSpec.clamped].
    by rewrite HR.
Qed.

Lemma fold_budget d segs :
  ∀ st st0,
    CanonSpec.retained st = CanonSpec.retained st0 →
    CanonSpec.depth st0 = 0 →
    CanonSpec.depth st
    = (if decide (0 < d) then Z.max (d - Z.of_nat (CanonSpec.clamped st0)) 0 else d) →
    CanonSpec.clamped st = Z.to_nat (Z.of_nat (CanonSpec.clamped st0) - Z.max d 0) →
    let st' := fold_left CanonSpec.step segs st in
    let st0' := fold_left CanonSpec.step segs st0 in
    CanonSpec.retained st' = CanonSpec.retained st0'
    ∧ CanonSpec.clamped st' = Z.to_nat (Z.of_nat (CanonSpec.clamped st0') - Z.max d 0).
Proof.
  induction segs as [|seg segs IH]; intros st st0 HR H0 Hd Hk; cbv zeta.
  - done.
  - simpl. destruct (step_budget d st st0 seg HR H0 Hd Hk) as (? & ? & ? & ?).
    by apply IH.
Qed.

(** X21. The depth budget of [MakeCanonical] never changes the path it
    returns, only the diagnostics: with the budget [d] the result is the
    one for the budget 0, and of the path-traversal lines logged for the
    budget 0 the first [d] are dropped. *)
Theorem MakeCanonical_budget (esc path : string) (d : Z) :
  MakeCanonical_run esc path d
  = (MakeCanonical esc path 0,
     repeat (DbgPathTraversal path)
       (Z.to_nat (Z.of_nat (List.length (MakeCanonical_run esc path 0).2)
                  - Z.max d 0))).
Proof.
  unfold MakeCanonical. rewrite !MakeCanonical_run_fold. cbv zeta.
  cbn [fst snd]. rewrite repeat_length.
  unfold CanonSpec.canonicalize_fold.
  destruct (fold_budget d (SplitPath esc path)
              {| CanonSpec.retained := []; CanonSpec.depth := d; CanonSpec.clamped := 0 |}
              {| CanonSpec.retained := []; CanonSpec.depth := 0; CanonSpec.clamped := 0 |})
    as [HR Hk]; cbn [CanonSpec.retained CanonSpec.depth CanonSpec.clamped];
    [done | done | destruct (decide (0 < d)); lia | lia |].
  rewrite HR, Hk. done.
Qed.

(** ** From the scan to the lookup *)

Lemma scan_entries_keys_grow E recurse path parent entries :
  ∀ result w r w',
    scan_entries E recurse path RECURSIVE parent entries result w = Done r w' →
    ∀ k, is_Some (dir_files result !! k) → is_Some (dir_files r !! k).
Proof.
  induction entries as [|[name type] entries IH]; intros result w r w' Hrun k Hk.
  { by injection Hrun as <- _. }
  cbn [scan_entries] in Hrun. unfold mbind, M_bind, bind in Hrun.
  destruct (scan_entry E recurse path RECURSIVE parent result name type w)
    as [r1 w1|] eqn:Hstep; [|done].
  apply (IH _ _ _ _ Hrun). clear Hrun IH.
  unfold scan_entry, mbind, M_bind, bind in Hstep.
  rewrite entry_is_directory_run in Hstep.
  destruct (String.eqb name "." || String.eqb name "..");
    [by injection Hstep as <- _|].
  destruct (if next_fast _ _ then _ else _).
  - destruct (recurse _ _ _ _) as [rdir w2|]; [|done].
    injection Hstep as <- _. cbn [dir_files].
    apply lookup_union_is_Some. by left.
  - injection Hstep as <- _. cbn [dir_files with_files].
    apply lookup_insert_is_Some'. by right.
Qed.

Lemma scan_entries_records_file E recurse path parent entries F type :
  (F, type) ∈ entries → is_dot F = false → type ≠ FtDirectory →
  IsDirectory E (MakePath path F) = false →
  ∀ result w r w',
    scan_entries E recurse path RECURSIVE parent entries result w = Done r w' →
    is_Some (dir_files r !! Normalize E (MakePath parent F)).
Proof.
  intros Hin Hdot Htype Hnodir.
  induction entries as [|[name type'] entries IH]; intros result w r w' Hrun.
  { by apply elem_of_nil in Hin. }
  cbn [scan_entries] in Hrun. unfold mbind, M_bind, bind in Hrun.
  destruct (scan_entry E recurse path RECURSIVE parent result name type' w)
    as [r1 w1|] eqn:Hstep; [|done].
  apply elem_of_cons in Hin as [Heq|Hin]; [|by eapply IH].
  injection Heq as <- <-.
  apply (scan_entries_keys_grow _ _ _ _ _ _ _ _ _ Hrun). clear Hrun IH.
  unfold scan_entry, mbind, M_bind, bind in Hstep.
  rewrite entry_is_directory_run in Hstep.
  unfold is_dot in Hdot. rewrite Hdot in Hstep.
  assert (Hcls : (if next_fast (has_fast_dir_stat w) type
                  then is_directory_type type
                  else IsDirectory E (MakePath path F)) = false).
  { destruct (next_fast _ _); [by destruct type | done]. }
  rewrite Hcls in Hstep. injection Hstep as <- _.
  cbn [dir_files with_files]. apply lookup_insert_is_Some'. by left.
Qed.

Lemma recursive_scan_records_file E fuel path parent w r w' entries F type :
  GetDirectoryMembers E fuel path RECURSIVE parent w = Done r w' →
  ReadDirectory E path = Some entries →
  (F, type) ∈ entries → is_dot F = false → type ≠ FtDirectory →
  IsDirectory E (MakePath path F) = false →
  is_Some (dir_files r !! Normalize E (MakePath parent F)).
Proof.
  intros Hrun Hread Hin Hdot Htype Hnodir.
  destruct fuel as [|fuel]; [done|].
  cbn [GetDirectoryMembers] in Hrun. unfold GetDirectoryMembers_body in Hrun.
  unfold mbind, M_bind, bind, assert in Hrun.
  destruct (Exists E path); [|done]. destruct (IsDirectory E path); [|done].
  simpl in Hrun. rewrite Hread in Hrun.
  by eapply scan_entries_records_file.
Qed.

Lemma fill_sub_members_other E fuel p dirs :
  ∀ subs w subs' w' k,
    fill_sub_members E fuel p dirs subs w = Done subs' w' →
    k ∉ dirs.*1 → subs' !! k = subs !! k.
Proof.
  induction dirs as [|[key original] dirs IH]; intros subs w subs' w' k Hrun Hk.
  - by injection Hrun as <- _.
  - cbn [fill_sub_members] in Hrun. unfold mbind, M_bind, bind in Hrun.
    destruct (GetDirectoryMembers E fuel (MakePath p original) RECURSIVE "" w)
      as [rdir w1|]; [|done].
    rewrite fmap_cons in Hk. apply not_elem_of_cons in Hk as [Hne Hk].
    rewrite (IH _ _ _ _ _ Hrun Hk). by rewrite lookup_insert_ne.
Qed.

Lemma fill_sub_members_lookup E fuel p dirs :
  NoDup dirs.*1 →
  ∀ subs w subs' w' k v,
    fill_sub_members E fuel p dirs subs w = Done subs' w' →
    (k, v) ∈ dirs →
    ∃ rdir wa wb,
      GetDirectoryMembers E fuel (MakePath p v) RECURSIVE "" wa = Done rdir wb
      ∧ subs' !! k = Some (dir_files rdir).
Proof.
  induction dirs as [|[key original] dirs IH]; intros Hnd subs w subs' w' k v Hrun Hin.
  - by apply elem_of_nil in Hin.
  - cbn [fill_sub_members] in Hrun. unfold mbind, M_bind, bind in Hrun.
    destruct (GetDirectoryMembers E fuel (MakePath p original) RECURSIVE "" w)
      as [rdir w1|] eqn:Hscan; [|done].
    rewrite fmap_cons in Hnd. apply NoDup_cons in Hnd as [Hfresh Hnd].
    cbn [fst] in Hfresh.
    apply elem_of_cons in Hin as [Heq|Hin].
    + injection Heq as -> ->. exists rdir, w, w1. split; [done|].
      rewrite (fill_sub_members_other _ _ _ _ _ _ _ _ _ Hrun Hfresh).
      by rewrite lookup_insert_eq.
    + by eapply IH.
Qed.

Lemma CreateDirectoryTree_sub_members E fuel p w tree w1 k v :
  CreateDirectoryTree E fuel p RECURSIVE w = Done (Some tree) w1 →
  directories tree !! k = Some v →
  directory_path tree = p
  ∧ ∃ rdir wa wb,
      GetDirectoryMembers E fuel (MakePath p v) RECURSIVE "" wa = Done rdir wb
      ∧ sub_members tree !! k = Some (dir_files rdir).
Proof.
  unfold CreateDirectoryTree. destruct (negb _); [done|].
  unfold mbind, M_bind, bind.
  destruct (GetDirectoryMembers E fuel p ALL "" w) as [mem w0|]; [|done].
  destruct (fill_sub_members E fuel p _ ∅ w0) as [subs w2|] eqn:Hfill; [|done].
  intros Hrun Hk. injection Hrun as <- _.
  cbn [directory_path directories sub_members] in *. split; [done|].
  eapply fill_sub_members_lookup; [|exact Hfill|].
  - apply NoDup_fst_map_to_list.
  - by apply elem_of_map_to_list.
Qed.

Lemma first_ext_hit_ext (m : gmap string string) name exts n :
  first_ext_hit m name exts = Some n →
  ∃ c, c ∈ exts ∧ m !! (name +:+ c) = Some n.
Proof.
  induction exts as [|c exts IH]; [done|]. cbn [first_ext_hit].
  destruct (m !! (name +:+ c)) as [n'|] eqn:Hc.
  - intros [= <-]. exists c. split; [by left | done].
  - intros H. destruct (IH H) as (c' & Hin & Hc'). exists c'. split; [by right|done].
Qed.

Lemma first_ext_hit_complete (m : gmap string string) name exts c :
  c ∈ exts → is_Some (m !! (name +:+ c)) → is_Some (first_ext_hit m name exts).
Proof.
  induction exts as [|c' exts IH]; [by intros ?%elem_of_nil|].
  intros Hin Hc. cbn [first_ext_hit].
  destruct (m !! (name +:+ c')) as [n'|] eqn:Hc'; [by eexists|].
  apply elem_of_cons in Hin as [->|Hin]; [|by apply IH].
  rewrite Hc' in Hc. by destruct Hc.
Qed.

(** X22. A file the scan saw is found, whatever the case of the
    request. Let the tree be the one [CreateDirectoryTree] built in the
    mode [RECURSIVE], let it list the directory [D] under the key of the
    requested directory, and let the listing of [D] hold a file [F] whose
    normalised form is the normalised requested name followed by one of
    the extensions. Then [FindFile] on that tree returns a path into [D]
    whose file normalises to the requested name followed by one of the
    extensions. The request is one the canonicaliser leaves unchanged
    and that holds no escape symbol. *)
Theorem scanned_file_is_found E fuel p w tree w1 dir name exts c D entries F type w2 :
  CreateDirectoryTree E fuel p RECURSIVE w = Done (Some tree) w1 →
  directories tree !! Normalize E dir = Some D →
  ReadDirectory E (MakePath p D) = Some entries →
  (F, type) ∈ entries → is_dot F = false → type ≠ FtDirectory →
  IsDirectory E (MakePath (MakePath p D) F) = false →
  c ∈ exts →
  Normalize E name +:+ c = Normalize E (MakePath "" F) →
  MakeCanonical_run (escape_symbol E)
    (MakePath (Normalize E dir) (Normalize E name)) 1
  = (MakePath (Normalize E dir) (Normalize E name), []) →
  Str.find (escape_symbol E) (Normalize E name) = None →
  ∃ n c',
    FindFile_tree E tree dir name exts false w2
    = Done (MakePath (p +:+ "/" +:+ D) n) w2
    ∧ c' ∈ exts
    ∧ Normalize E n = Normalize E name +:+ c'.
Proof.
  intros Hcreate HD Hread Hin Hdot Htype Hnodir Hc Hkey Hcanon Hesc.
  destruct (CreateDirectoryTree_sub_members E fuel p w tree w1 _ D Hcreate HD)
    as (Hpath & rdir & wa & wb & Hscan & Hsub).
  pose proof (recursive_scan_records_file E fuel _ "" wa rdir wb entries F type
                Hscan Hread Hin Hdot Htype Hnodir) as Hsome.
  pose proof (holds_done _ _ _ _ _ _
                (GetDirectoryMembers_recursive_silent E fuel (MakePath p D) "" wa)
                Hscan) as (_ & Hkeyed & _).
  rewrite <- Hkey in Hsome.
  destruct (first_ext_hit_complete (dir_files rdir) (Normalize E name) exts c Hc Hsome)
    as [n Hn].
  destruct (first_ext_hit_ext _ _ _ _ Hn) as (c' & Hc' & Hlook).
  exists n, c'. split; [|split; [done|]].
  - unfold FindFile_tree, FindFile_in_tree. cbn [andb].
    rewrite Hcanon. unfold mbind, M_bind, bind, say_all.
    rewrite add_output_nil, String.eqb_refl. cbn [negb].
    unfold lookup_members. rewrite (replace_escape_absent _ _ _ Hesc).
    rewrite HD, Hsub, Hn, Hpath. reflexivity.
  - symmetry. by apply Hkeyed.
Qed.

Lemma scanned_file_is_found_witness :
  ∃ tree w1,
    CreateDirectoryTree Sample.env 2 "/game" RECURSIVE Sample.world
    = Done (Some tree) w1
    ∧ directories tree !! Normalize Sample.env "MUSIC" = Some "music"
    ∧ ReadDirectory Sample.env (MakePath "/game" "music")
      = Some [("Town.ogg", FtFile)]
    ∧ Normalize Sample.env "TOWN" +:+ ".ogg"
      = Normalize Sample.env (MakePath "" "Town.ogg")
    ∧ FindFile_tree Sample.env tree "MUSIC" "TOWN" MUSIC_TYPES false Sample.world
      = Done "/game/music/Town.ogg" Sample.world
    ∧ ∃ n c',
        FindFile_tree Sample.env tree "MUSIC" "TOWN" MUSIC_TYPES false Sample.world
        = Done (MakePath ("/game" +:+ "/" +:+ "music") n) Sample.world
        ∧ c' ∈ MUSIC_TYPES
        ∧ Normalize Sample.env n = Normalize Sample.env "TOWN" +:+ c'.
Proof.
  destruct (CreateDirectoryTree Sample.env 2 "/game" RECURSIVE Sample.world)
    as [[tree|] w1|f] eqn:Hrun; [|by vm_compute in Hrun..].
  assert (HD : directories tree !! Normalize Sample.env "MUSIC" = Some "music").
  { vm_compute in Hrun. injection Hrun as <- _. reflexivity. }
  exists tree, w1. split; [reflexivity|]. split; [exact HD|].
  split; [reflexivity|]. split; [reflexivity|]. split.
  { vm_compute in Hrun. injection Hrun as <- _. vm_compute. reflexivity. }
  apply (scanned_file_is_found Sample.env 2 "/game" Sample.world tree w1
           "MUSIC" "TOWN" MUSIC_TYPES ".ogg" "music" [("Town.ogg", FtFile)]
           "Town.ogg" FtFile Sample.world Hrun HD);
    [reflexivity | by left | reflexivity | discriminate | reflexivity
    | | reflexivity | reflexivity | reflexivity].
  apply list_elem_of_In. simpl. tauto.
Defined.
